(** * myDB data manager: pages, free-space index and record manager

    A shallow embedding of [dataManager/page.go], [dataManager/pageCtl.go]
    and [dataManager/dataManager.go].

    Conventions of the embedding.
    - Go's [int64], [int32] and [uint32] values are integers in [Z]; the
      conversions that can wrap are written out ([Int.int32], [Int.int64]).
    - A byte buffer ([[]byte]) is a [list byte]; a slice expression
      [b[lo:hi]] is [slice b lo hi], which panics out of range as Go does;
      a write through a slice, [copy(b[lo:hi], src)], is [copy_slice].
    - A method that can panic returns a [result]; a method that mutates its
      receiver returns the receiver's new value.  A [Page] is a shared
      object: the page cache maps page ids to page values and every mutation
      through a page pointer is written back with [PageCache.put_page].
    - The modules [Page], [PageCtl] and [DataManager] give, for each
      method, what its statements do to the data: the value handed to
      [return] or the panic raised, and the new value of the receiver.  The
      mutexes ([sync.Mutex], [sync.RWMutex]) and the pin counts of the page
      cache come on top, in [LockedPage], [LockedPageCtl], [PinnedCache] and
      [LockedDataManager], for the methods whose locking or pinning decides
      how a call ends ([Append] and [Update] of a page, [Select], and with
      them [Insert], [Delete] and [Update] of the data manager): there a
      call returns, panics or blocks, and leaves a state in each case. *)

From Stdlib Require Import ZArith Lia String.
From Stdlib Require Import Init.Byte Strings.Byte.
From stdpp Require Import base option list gmap.

Local Open Scope Z_scope.

(** ** Machine integers *)

Module Int.
Definition int32 (z : Z) : Z := (z + 2 ^ 31) `mod` 2 ^ 32 - 2 ^ 31.
Definition int64 (z : Z) : Z := (z + 2 ^ 63) `mod` 2 ^ 64 - 2 ^ 63.
End Int.

(** ** Bytes and fixed-width encodings *)

#[global] Instance byte_eq_dec : EqDecision byte.
Proof.
  intros x y. destruct (Byte.eqb x y) eqn:E.
  - left. by apply Byte.byte_dec_bl.
  - right. by apply Byte.eqb_false.
Defined.

Definition byte_to_Z (b : byte) : Z := Z.of_N (Byte.to_N b).

Definition byte_of_Z (z : Z) : byte :=
  default x00 (Byte.of_N (Z.to_N (z `mod` 256))).

(** [len] is Go's [len] on a slice, as an [int64]. *)
Definition len {A} (l : list A) : Z := Z.of_nat (length l).

(** [binary.LittleEndian]: least significant byte first. *)
Fixpoint le_decode (bs : list byte) : Z :=
  match bs with
  | [] => 0
  | b :: r => byte_to_Z b + 256 * le_decode r
  end.

Fixpoint le_encode (n : nat) (z : Z) : list byte :=
  match n with
  | O => []
  | S k => byte_of_Z z :: le_encode k (z `div` 256)
  end.

(** [binary.BigEndian]: most significant byte first. *)
Definition be_decode (bs : list byte) : Z := le_decode (reverse bs).
Definition be_encode (n : nat) (z : Z) : list byte := reverse (le_encode n z).

(** ** Panics and results *)

Inductive panic : Type :=
  | PanicMsg (msg : string)
  | SliceOutOfRange (lo hi cap : Z)
  | IndexOutOfRange (i length : Z)
  | NilDereference
  | OutOfFuel.

Inductive result (A : Type) : Type :=
  | Ok (a : A)
  | Panic (p : panic).
Arguments Ok {A} a.
Arguments Panic {A} p.

#[global] Instance result_ret : MRet result := λ A a, Ok a.
#[global] Instance result_bind : MBind result := λ A B k c,
  match c with
  | Ok a => k a
  | Panic p => Panic p
  end.

(** ** Slices of a buffer *)

Definition in_bounds {A} (buf : list A) (lo hi : Z) : Prop :=
  0 ≤ lo ∧ lo ≤ hi ∧ hi ≤ len buf.

#[global] Instance in_bounds_dec {A} (buf : list A) lo hi :
  Decision (in_bounds buf lo hi).
Proof. unfold in_bounds. apply _. Defined.

(** [buf[lo:hi]] *)
Definition slice (buf : list byte) (lo hi : Z) : result (list byte) :=
  if decide (in_bounds buf lo hi)
  then Ok (take (Z.to_nat (hi - lo)) (drop (Z.to_nat lo) buf))
  else Panic (SliceOutOfRange lo hi (len buf)).

(** The buffer after [copy(buf[lo:hi], src)]: [min(hi - lo, len(src))]
    bytes of [src] land at offset [lo]. *)
Definition copy_slice (buf : list byte) (lo hi : Z) (src : list byte)
  : result (list byte) :=
  if decide (in_bounds buf lo hi)
  then
    let n := Nat.min (Z.to_nat (hi - lo)) (length src) in
    Ok (take (Z.to_nat lo) buf ++ take n src ++ drop (Z.to_nat lo + n) buf)
  else Panic (SliceOutOfRange lo hi (len buf)).

(** ** Page ([page.go]) *)

Module Page.

Definition PageType := Z.

Definition DbMetaPage : PageType := Z.lor (Z.shiftl 1 0) (Z.shiftl 1 15).
Definition TableMetaPage : PageType := Z.lor (Z.shiftl 1 0) (Z.shiftl 1 16).
Definition IndexPage : PageType := Z.lor (Z.shiftl 1 1) (Z.shiftl 1 17).
Definition RecordPage : PageType := Z.lor (Z.shiftl 1 1) (Z.shiftl 1 18).
Definition DataPage : PageType := Z.shiftl 1 1.
Definition MetaPage : PageType := Z.shiftl 1 0.

Definition VcOn : Z := 100.
Definition VcOffset : Z := 8.
Definition VcOff : Z := VcOn + VcOffset.

Definition PageSize : Z := 8192.
Definition SzPgUsed : Z := 4.
Definition SzPageType : Z := 4.
Definition MaxFreeSize : Z := PageSize - SzPgUsed - SzPageType.
Definition InitOffset : Z := SzPgUsed + SzPageType.

Record PageImpl : Type := mkPage {
  data : list byte;
  dirty : bool;
  pageId : Z
}.

Inductive error : Type := ErrorPageOverFlow.

Definition IsDirty (p : PageImpl) : bool := dirty p.

Definition SetDirty (p : PageImpl) (d : bool) : PageImpl :=
  mkPage (data p) d (pageId p).

Definition GetId (p : PageImpl) : Z := pageId p.

Definition GetData (p : PageImpl) : list byte := data p.

Definition GetOffset (p : PageImpl) : Z := Int.int64 ((pageId p - 1) * PageSize).

Definition SetData (p : PageImpl) (d : list byte) : PageImpl :=
  mkPage d (dirty p) (pageId p).

Definition invalidType : panic :=
  PanicMsg "Invalid page type when executing version checking".

Definition GetUsed (p : PageImpl) : result Z :=
  buf ← slice (GetData p) 0 SzPgUsed;
  mret (le_decode buf).

Definition SetUsed (p : PageImpl) (used : Z) : result PageImpl :=
  d ← copy_slice (GetData p) 0 SzPgUsed (le_encode 4 used);
  mret (SetData p d).

Definition GetFree (p : PageImpl) : result Z :=
  used ← GetUsed p;
  mret (PageSize - used).

Definition GetPageType (p : PageImpl) : result PageType :=
  buf ← slice (GetData p) SzPgUsed (SzPgUsed + SzPageType);
  mret (Int.int32 (le_decode buf)).

Definition IsMetaPage (p : PageImpl) : result bool :=
  t ← GetPageType p;
  mret (bool_decide (Z.land t (Z.shiftl 1 0) = 1)).

Definition IsDataPage (p : PageImpl) : result bool :=
  t ← GetPageType p;
  mret (bool_decide (Z.land t (Z.shiftl 1 1) = 1)).

Definition CheckInitVersion (p : PageImpl) : result bool :=
  t ← GetPageType p;
  if decide (t ≠ DbMetaPage) then Panic invalidType
  else
    v1 ← slice (GetData p) VcOn (VcOn + VcOffset);
    v2 ← slice (GetData p) VcOff (VcOff + VcOffset);
    mret (bool_decide (v1 = v2)).

(** [rnd] is what [crypto/rand] delivers; a read that cannot fill the
    eight bytes is the error branch. *)
Definition InitVersion (p : PageImpl) (rnd : list byte) : result PageImpl :=
  t ← GetPageType p;
  if decide (t ≠ DbMetaPage) then Panic invalidType
  else
    _ ← slice (GetData p) VcOn (VcOn + VcOffset);
    if decide (len rnd < VcOffset)
    then Panic (PanicMsg "Error happen when initializing version")
    else
      d ← copy_slice (GetData p) VcOn (VcOn + VcOffset) rnd;
      mret (SetData p d).

Definition UpdateVersion (p : PageImpl) : result PageImpl :=
  t ← GetPageType p;
  if decide (t ≠ DbMetaPage) then Panic invalidType
  else
    src ← slice (GetData p) VcOn (VcOn + VcOffset);
    d ← copy_slice (GetData p) VcOff (VcOff + VcOffset) src;
    mret (SetData p d).

(** The statements of [Append], the mutex of the page set aside.  The
    call itself, with [p.Lock()] around them and the locks its callees
    take, is [LockedPage.Append]. *)
Definition Append (p : PageImpl) (toAdd : list byte)
  : result (PageImpl * option error) :=
  used ← GetUsed p;
  let length := len toAdd in
  if decide (length + used > PageSize) then mret (p, Some ErrorPageOverFlow)
  else
    d ← copy_slice (GetData p) used (used + length) toAdd;
    p1 ← SetUsed (SetData p d) (Int.int32 (used + length));
    mret (SetDirty p1 true, None).

End Page.

(** ** Page cache *)

(** Modelled from the spec: the [PageCache] interface and its file-backed
    implementation ([NewPageCacheRefCountFileSystemImpl]) are not among the
    sources.  Section 4.2 of the specification fixes the contract used here:
    [get_page] returns the page or fails, [release_page] unpins,
    [new_page] appends a page with [used = 8] and the requested type and
    returns its id, [get_page_numbers] is the page count.  This module holds
    the pages; the pin counts are added in [PinnedCache]. *)
Module PageCache.
Import Page.

(** Modelled from the spec: the cache as the pages it can hand out, by id,
    and the page count of the file. *)
Record PageCache : Type := mkCache {
  pages : gmap Z PageImpl;
  pageNumbers : Z
}.

Inductive error : Type := ErrNoSuchPage (id : Z).

(** Modelled from the spec: [get_page(id)] "pins and returns the page ...
    may fail". *)
Definition GetPage (pc : PageCache) (id : Z) : PageImpl + error :=
  match pages pc !! id with
  | Some p => inl p
  | None => inr (ErrNoSuchPage id)
  end.

(** Modelled from the spec: [release_page(page)] "unpins".  Without pin
    counts a release changes nothing and reports no error; the release of a
    page that is not pinned is in [PinnedCache.ReleasePage]. *)
Definition ReleasePage (pc : PageCache) (id : Z) : option error := None.

(** Modelled from the spec: [get_page_numbers()] "returns the current page
    count". *)
Definition GetPageNumbers (pc : PageCache) : Z := pageNumbers pc.

(** Modelled from the spec: "the new page has [used = 8] (header only) and
    the requested [pageType]". *)
Definition freshPage (id : Z) (t : PageType) : PageImpl :=
  mkPage (le_encode 4 InitOffset ++ le_encode 4 t
            ++ replicate (Z.to_nat (PageSize - InitOffset)) x00)
         false id.

(** Modelled from the spec: [new_page(type)] "allocates a fresh page at the
    tail of the file ... and returns the new id". *)
Definition NewPage (pc : PageCache) (t : PageType) : Z * PageCache :=
  let id := pageNumbers pc + 1 in
  (id, mkCache (<[id := freshPage id t]> (pages pc)) id).

(** A page handed out by [GetPage] is a pointer to the cached object:
    what a caller does to it is seen by every later [GetPage]. *)
Definition put_page (pc : PageCache) (p : PageImpl) : PageCache :=
  mkCache (<[GetId p := p]> (pages pc)) (pageNumbers pc).

(** Every page is cached under its own id. *)
Definition consistent (pc : PageCache) : Prop :=
  ∀ k p, pages pc !! k = Some p → GetId p = k.

(** The cache can hand out every page of the file, each with a buffer of
    [PageSize] bytes. *)
Definition complete (pc : PageCache) : Prop :=
  ∀ i, 1 ≤ i ≤ pageNumbers pc →
       ∃ p, pages pc !! i = Some p ∧ GetId p = i ∧ len (data p) = PageSize.

End PageCache.

(** ** Containers *)

(** Modelled from the spec: package [myDB/dataStructure] ([LinkedList],
    [SkipList]) is not among the sources.  Section 4.3 of the specification
    describes a bucket as an ordered sequence that is scanned for the first
    entry whose [available] is at least the request, which is removed and
    returned, and the tiny container as supporting [search(>= need)].  Both
    are ordered by the comparison function given to their constructor. *)
Module DataStructure.
Section Containers.
Context {A : Type} (cmp : A → A → Z).

(** Modelled from the spec: a bucket is "an ordered sequence"; [AddLast]
    appends. *)
Definition AddLast (l : list A) (x : A) : list A := l ++ [x].

(** Modelled from the spec: "scan [bucket[j]] for the first entry whose
    [available >= need]; remove and return it". *)
Fixpoint FindGtAndRemove (l : list A) (target : A) : option A * list A :=
  match l with
  | [] => (None, [])
  | x :: r =>
      if decide (0 ≤ cmp x target) then (Some x, r)
      else let '(o, r') := FindGtAndRemove r target in (o, x :: r')
  end.

(** Modelled from the spec: the tiny container is ordered; [Add] keeps it
    in ascending order. *)
Fixpoint Add (l : list A) (x : A) : list A :=
  match l with
  | [] => [x]
  | y :: r => if decide (cmp x y < 0) then x :: y :: r else y :: Add r x
  end.

(** Modelled from the spec: the tiny container supports
    "[search(>= need)]": the first entry not below the target. *)
Fixpoint BinarySearch (l : list A) (target : A) : option A :=
  match l with
  | [] => None
  | x :: r => if decide (0 ≤ cmp x target) then Some x else BinarySearch r target
  end.
End Containers.
End DataStructure.

(** ** Free-space index ([pageCtl.go]) *)

Module PageCtl.
Import Page DataStructure.

Record PageInfo : Type := mkInfo {
  PageId : Z;
  Available : Z
}.

#[global] Instance PageInfo_eq_dec : EqDecision PageInfo.
Proof. solve_decision. Defined.

Definition THRESHOLD : Z := 128.
Definition TinyTHRESHOLD : Z := THRESHOLD `quot` 4.
Definition INTERVALS : Z := PageSize `quot` THRESHOLD.
Definition OMITTED : Z := 8.

Definition PageNumberDbMeta : Z := 1.

(** [free] is the array [[INTERVALS]*LinkedList]: slot [i] holds the
    list [free !! i]; a slot without a binding holds the empty list. *)
Record PageCtlImpl : Type := mkCtl {
  free : gmap Z (list PageInfo);
  tiny : list PageInfo;
  dirties : list PageInfo
}.

(** The comparison function of [NewPageCtl]. *)
Definition f (a b : PageInfo) : Z :=
  let x := Available a in
  let y := Available b in
  if decide (x = y) then 0 else if decide (x < y) then -1 else 1.

Definition NewPageCtl : PageCtlImpl :=
  mkCtl (list_to_map ((λ i, (i, [])) <$> seqZ 0 INTERVALS)) [] [].

Definition bucket (pi : PageCtlImpl) (i : Z) : list PageInfo :=
  default [] (free pi !! i).

(** [pi.free[i]], with the bounds check of an array of [INTERVALS] slots. *)
Definition free_at (pi : PageCtlImpl) (i : Z) : result (list PageInfo) :=
  if decide (0 ≤ i < INTERVALS) then Ok (bucket pi i)
  else Panic (IndexOutOfRange i INTERVALS).

Definition set_free (pi : PageCtlImpl) (i : Z) (l : list PageInfo) : PageCtlImpl :=
  mkCtl (<[i := l]> (free pi)) (tiny pi) (dirties pi).

Definition selectTinyFast (pi : PageCtlImpl) (need : Z) : option PageInfo :=
  if decide (need < TinyTHRESHOLD)
  then BinarySearch f (tiny pi) (mkInfo (-1) need)
  else None.

(** The loop [for ; intervalNum <= INTERVALS; intervalNum += 1] of
    [Select].  The first component lists the indices [i] at which
    [pi.free[i]] was evaluated, in order. *)
Fixpoint scan (fuel : nat) (pi : PageCtlImpl) (toFind : PageInfo) (intervalNum : Z)
  : list Z * result (option PageInfo * PageCtlImpl) :=
  match fuel with
  | O => ([], Panic OutOfFuel)
  | S k =>
      if decide (intervalNum ≤ INTERVALS) then
        match free_at pi intervalNum with
        | Panic e => ([intervalNum], Panic e)
        | Ok l =>
            match FindGtAndRemove f l toFind with
            | (Some r, l') => ([intervalNum], Ok (Some r, set_free pi intervalNum l'))
            | (None, _) =>
                let '(tr, res) := scan k pi toFind (intervalNum + 1) in
                (intervalNum :: tr, res)
            end
        end
      else ([], Ok (None, pi))
  end.

Definition scanFrom (pi : PageCtlImpl) (need : Z) (intervalNum0 : Z)
  : list Z * result (option PageInfo * PageCtlImpl) :=
  let intervalNum :=
    if decide (intervalNum0 ≠ INTERVALS) then intervalNum0 + 1 else intervalNum0 in
  scan (Z.to_nat (INTERVALS + 2 - intervalNum)) pi (mkInfo (-1) need) intervalNum.

(** The statements of [Select] between [pi.lock.Lock()] and its exit: the
    bucket indices read, and the value handed to [return] with the index at
    that moment, or the panic raised.  The call itself, with the mutex and
    the deferred [pi.lock.Lock()], is [LockedPageCtl.Select]. *)
Definition Select (pi : PageCtlImpl) (need : Z)
  : list Z * result (option PageInfo * PageCtlImpl) :=
  if decide (need ≤ 0)
  then ([], Panic (PanicMsg "Illegal page cache application operation"))
  else if decide (need > PageSize)
  then ([], Panic (PanicMsg "Applying for overflowed page size"))
  else if decide (need < TinyTHRESHOLD) then
    match selectTinyFast pi need with
    | Some r => ([], Ok (Some r, pi))
    | None => scanFrom pi need 0
    end
  else scanFrom pi need (need `quot` THRESHOLD).

Definition AddPageInfo (pi : PageCtlImpl) (pageId available : Z) : result PageCtlImpl :=
  if decide (available < OMITTED) then Ok pi
  else if decide (available < TinyTHRESHOLD)
  then Ok (mkCtl (free pi) (Add f (tiny pi) (mkInfo pageId available)) (dirties pi))
  else
    let intervalId := available `quot` THRESHOLD in
    l ← free_at pi intervalId;
    mret (set_free pi intervalId (AddLast l (mkInfo pageId available))).

(** The calls [Init] makes, in order. *)
Inductive call : Type :=
  | CallGetPage (id : Z)
  | CallAddPageInfo (id available : Z)
  | CallReleasePage (id : Z).

(** One iteration of the loop of [Init]. *)
Definition initPage (pc : PageCache.PageCache) (i : Z)
    (st : list call * PageCtlImpl) : result (list call * PageCtlImpl) :=
  let '(tr, pi) := st in
  if decide (i = PageNumberDbMeta) then Ok (tr, pi)
  else
    match PageCache.GetPage pc i with
    | inr _ => Panic (PanicMsg "Error occurs when getting pages")
    | inl p =>
        isData ← IsDataPage p;
        '(tr1, pi1) ← (if isData : bool
                       then
                         avail ← GetFree p;
                         pi' ← AddPageInfo pi (GetId p) avail;
                         mret (tr ++ [CallGetPage i; CallAddPageInfo (GetId p) avail], pi')
                       else mret (tr ++ [CallGetPage i], pi));
        match PageCache.ReleasePage pc (GetId p) with
        | Some _ => Panic (PanicMsg "Error occurs when releasing pages")
        | None => Ok (tr1 ++ [CallReleasePage (GetId p)], pi1)
        end
    end.

Definition Init (pi : PageCtlImpl) (pc : PageCache.PageCache)
  : result (list call * PageCtlImpl) :=
  let pn := PageCache.GetPageNumbers pc in
  foldl (λ acc i, st ← acc; initPage pc i st) (Ok ([], pi)) (seqZ 1 pn).

(** *** Histories of the index *)

Inductive op : Type :=
  | OpSelect (need : Z)
  | OpAddPageInfo (pageId available : Z).

(** Runs the calls in order; collects, for each [Select] that returned,
    the bucket indices it read and what it returned. *)
Fixpoint run (ops : list op) (pi : PageCtlImpl)
  : result (list (list Z * option PageInfo) * PageCtlImpl) :=
  match ops with
  | [] => Ok ([], pi)
  | OpSelect need :: rest =>
      let '(tr, r) := Select pi need in
      '(o, pi1) ← r;
      '(outs, pi2) ← run rest pi1;
      mret ((tr, o) :: outs, pi2)
  | OpAddPageInfo pageId available :: rest =>
      pi1 ← AddPageInfo pi pageId available;
      run rest pi1
  end.

(** Every entry sits in the container [AddPageInfo] files it under. *)
Definition wellPlaced (pi : PageCtlImpl) : Prop :=
  (∀ j e, e ∈ bucket pi j →
     TinyTHRESHOLD ≤ Available e ∧ Available e `quot` THRESHOLD = j)
  ∧ (∀ e, e ∈ tiny pi → OMITTED ≤ Available e < TinyTHRESHOLD).

(** *** The scan as the specification words it *)

(** [ceil(need / THRESHOLD)] *)
Definition ceilThreshold (need : Z) : Z := (need + THRESHOLD - 1) `div` THRESHOLD.

(** "compute [i = ceil(need / THRESHOLD)]; for [j = i, i+1, ...] scan
    [bucket[j]]": the first bucket read is bucket [ceil(need / THRESHOLD)]. *)
Definition scanStartsAtCeil (pi : PageCtlImpl) (need : Z) : Prop :=
  ∀ j, head (Select pi need).1 = Some j → j = ceilThreshold need.

(** "never accesses a bucket index outside the bucket array" *)
Definition scanInBounds (pi : PageCtlImpl) (need : Z) : Prop :=
  Forall (λ j, 0 ≤ j < INTERVALS) (Select pi need).1.

(** "terminates returning either none or an entry whose recorded
    available is at least [need]" *)
Definition returnsFit (pi : PageCtlImpl) (need : Z) : Prop :=
  ∃ o pi', (Select pi need).2 = Ok (o, pi')
    ∧ ∀ e, o = Some e → need ≤ Available e.

Definition SelectAsSpecified (pi : PageCtlImpl) (need : Z) : Prop :=
  returnsFit pi need ∧ scanStartsAtCeil pi need ∧ scanInBounds pi need.

(** *** What the index holds *)

(** [e] is in one of the containers of the index. *)
Definition indexed (pi : PageCtlImpl) (e : PageInfo) : Prop :=
  e ∈ tiny pi ∨ ∃ j, e ∈ bucket pi j.

(** The entries the calls of [AddPageInfo] in a history were given. *)
Definition addedEntries (ops : list op) : list PageInfo :=
  omap (λ o, match o with
             | OpAddPageInfo pageId available => Some (mkInfo pageId available)
             | OpSelect _ => None
             end) ops.

(** The bucket at which the scan of [Select] starts. *)
Definition scanStart (need : Z) : Z :=
  if decide (need = PageSize) then INTERVALS else need `div` THRESHOLD + 1.

End PageCtl.

(** ** Record frames *)

(** Modelled from the spec: the [DataItem] implementation ([NewDataItem],
    [WrapDataItemRaw], [SetRawInvalid], the constants [SzDIValid] and
    [SzDIDataSize] and the methods of the item) is not among the sources.
    Sections 3 and 4.4 of the specification fix the frame: one validity
    byte (0 tombstoned, 1 live), eight bytes of big-endian payload length,
    the payload.  An item is a view of the page's buffer, so it is
    represented by the page it lives on and the extent of its frame; its
    methods read and write the cached page. *)
Module DataItem.
Import Page.

(** Modelled from the spec: "1 byte [valid]". *)
Definition SzDIValid : Z := 1.

(** Modelled from the spec: "8 bytes [size], big-endian unsigned 64-bit
    payload length". *)
Definition SzDIDataSize : Z := 8.

(** Modelled from the spec: [wrap_data_item_raw(payload)] "prepends
    [01 | size_big_endian_u64] to the payload". *)
Definition WrapDataItemRaw (payload : list byte) : list byte :=
  x01 :: be_encode 8 (len payload) ++ payload.

(** Modelled from the spec: [set_raw_invalid(raw)] "clears byte 0". *)
Definition SetRawInvalid (raw : list byte) : list byte :=
  <[0%nat := x00]> raw.

(** Modelled from the spec: an item "wraps a slice of a page's buffer
    corresponding to one frame": the page, where the frame starts and how
    long it is, and the uid it was created with. *)
Record DataItem : Type := mkItem {
  page : Z;
  offset : Z;
  rawLen : Z;
  uid : Z
}.

(** Modelled from the spec: [get_raw()] "returns the framed bytes". *)
Definition GetRaw (di : DataItem) (p : PageImpl) : result (list byte) :=
  slice (GetData p) (offset di) (offset di + rawLen di).

(** Modelled from the spec: [is_valid()] "reads the validity byte"
    (1 = live). *)
Definition IsValid (di : DataItem) (p : PageImpl) : result bool :=
  raw ← GetRaw di p;
  match raw !! 0%nat with
  | Some b => Ok (bool_decide (b = x01))
  | None => Panic (IndexOutOfRange 0 (len raw))
  end.

(** Modelled from the spec: [get_data()] "returns the payload slice (framed
    bytes minus the 9-byte header)". *)
Definition GetData (di : DataItem) (p : PageImpl) : result (list byte) :=
  raw ← GetRaw di p;
  mret (drop (Z.to_nat (SzDIValid + SzDIDataSize)) raw).

(** Modelled from the spec: [update(new_raw)] "writes back a frame":
    [copy(raw, newRaw)] on the view. *)
Definition Update (di : DataItem) (p : PageImpl) (newRaw : list byte)
  : result PageImpl :=
  d ← copy_slice (Page.GetData p) (offset di) (offset di + rawLen di) newRaw;
  mret (SetData p d).

(** Modelled from the spec: [set_invalid()] "clears the validity byte":
    [raw[0] = 0] on the view. *)
Definition SetInvalid (di : DataItem) (p : PageImpl) : result PageImpl :=
  if decide (rawLen di ≤ 0) then Panic (IndexOutOfRange 0 (rawLen di))
  else
    d ← copy_slice (Page.GetData p) (offset di) (offset di + rawLen di) [x00];
    mret (SetData p d).

End DataItem.

(** ** Redo log *)

(** Modelled from the spec: the [Log] implementation ([OpenRedoLog]) is not
    among the sources.  Section 4.6 of the specification makes it an
    append-only sequence of insert and update intents. *)
Module Redo.
(** Modelled from the spec: what [insert_log(xid, uid, raw)] and
    [update_log(uid, xid, old_raw, new_raw)] append. *)
Inductive record : Type :=
  | InsertLog (xid uid : Z) (raw : list byte)
  | UpdateLog (uid xid : Z) (oldRaw newRaw : list byte).

(** Modelled from the spec: the log, oldest entry first. *)
Definition Log := list record.
End Redo.

(** ** Data manager ([dataManager.go]) *)

Module DataManager.
Import Page PageCtl.

Record DmImpl : Type := mkDm {
  pageCache : PageCache.PageCache;
  pageCtl : PageCtlImpl;
  redo : Redo.Log
}.

Definition mask32 : Z := Z.shiftl 1 32 - 1.

Definition uidTrans (uid : Z) : Z * Z :=
  let offset := Z.land uid mask32 in
  let uid := Z.shiftr uid 32 in
  let pageId := Z.land uid mask32 in
  (pageId, offset).

Definition getUid (pageId offset : Z) : Z :=
  Z.lor (Int.int64 (Z.shiftl pageId 32)) offset.

Definition getDataItem (p : PageImpl) (offset : Z) : result DataItem.DataItem :=
  let data := GetData p in
  szb ← slice data (offset + DataItem.SzDIValid)
                   (offset + DataItem.SzDIValid + DataItem.SzDIDataSize);
  let dataSize := Int.int64 (be_decode szb) in
  raw ← slice data offset
          (Int.int64 (offset + DataItem.SzDIValid + DataItem.SzDIDataSize + dataSize));
  mret (DataItem.mkItem (GetId p) offset (len raw) (getUid (GetId p) offset)).

Definition Release (dm : DmImpl) (di : DataItem.DataItem) : result unit :=
  match PageCache.ReleasePage (pageCache dm) (DataItem.page di) with
  | Some _ => Panic (PanicMsg "release")
  | None => Ok ()
  end.

(** The page an item is a view of, as the cache holds it now.  The cache
    never drops a page, so the pointer of an item that [Read] returned is
    never dangling. *)
Definition pageOf (dm : DmImpl) (di : DataItem.DataItem) : result PageImpl :=
  match PageCache.GetPage (pageCache dm) (DataItem.page di) with
  | inl p => Ok p
  | inr _ => Panic NilDereference
  end.

Definition Read (dm : DmImpl) (uid : Z) : result (option DataItem.DataItem) :=
  let '(pageId, offset) := uidTrans uid in
  match PageCache.GetPage (pageCache dm) pageId with
  | inr _ => Panic (PanicMsg "Error occurs when getting pages")
  | inl p =>
      item ← getDataItem p offset;
      valid ← DataItem.IsValid item p;
      _ ← Release dm item;
      mret (if valid : bool then Some item else None)
  end.

Definition tooLarge : panic :=
  PanicMsg "Error occurs when inserting data, err = data length overflow".

(** The statements of [Insert] over the statements of [Select] and
    [Append]; the call itself is [LockedDataManager.Insert]. *)
Definition Insert (dm : DmImpl) (xid : Z) (data : list byte) : result (Z * DmImpl) :=
  let raw := DataItem.WrapDataItemRaw data in
  let length := len raw in
  if decide (length > MaxFreeSize) then Panic tooLarge
  else
    '(pi, ctl1) ← (Select (pageCtl dm) length).2;
    let '(pageId, pc1) :=
      match pi with
      | None => PageCache.NewPage (pageCache dm) DataPage
      | Some i => (PageId i, pageCache dm)
      end in
    match PageCache.GetPage pc1 pageId with
    | inr _ => Panic (PanicMsg "Error occurs when getting page")
    | inl pg =>
        offset ← GetUsed pg;
        let redo1 := redo dm ++ [Redo.InsertLog xid (getUid (GetId pg) offset) raw] in
        '(pg1, err) ← Append pg raw;
        match err with
        | Some _ => Panic (PanicMsg "Error occurs when updating page")
        | None =>
            avail ← GetFree pg1;
            ctl2 ← AddPageInfo ctl1 (GetId pg1) avail;
            let pc2 := PageCache.put_page pc1 pg1 in
            match PageCache.ReleasePage pc2 (GetId pg1) with
            | Some _ => Panic (PanicMsg "Error occurs when releasing page")
            | None => Ok (getUid (GetId pg1) offset, mkDm pc2 ctl2 redo1)
            end
        end
    end.

(** The statements of [Delete], the pin counts set aside; the call itself
    is [LockedDataManager.Delete]. *)
Definition Delete (dm : DmImpl) (xid uid : Z) : result DmImpl :=
  di ← Read dm uid;
  match di with
  | Some item =>
      p ← pageOf dm item;
      oldRaw ← DataItem.GetRaw item p;
      let newRaw := DataItem.SetRawInvalid oldRaw in
      let redo1 := redo dm ++ [Redo.UpdateLog uid xid oldRaw newRaw] in
      p1 ← DataItem.SetInvalid item p;
      let dm1 := mkDm (PageCache.put_page (pageCache dm) p1) (pageCtl dm) redo1 in
      _ ← Release dm1 item;
      mret dm1
  | None =>
      (* [di.Release()] on the nil interface value *)
      Panic NilDereference
  end.

(** The statements of [Update], the pin counts set aside; the call itself
    is [LockedDataManager.Update]. *)
Definition Update (dm : DmImpl) (xid uid : Z) (data : list byte) : result (Z * DmImpl) :=
  di ← Read dm uid;
  match di with
  | None =>
      Panic (PanicMsg "Error occurs when updating data item, this data item is invalid")
  | Some item =>
      p ← pageOf dm item;
      oldRaw ← DataItem.GetRaw item p;
      let newRaw := DataItem.WrapDataItemRaw data in
      '(ret, dm1) ←
        (if decide (len oldRaw >= len newRaw) then
           let redo1 := redo dm ++ [Redo.UpdateLog uid xid oldRaw newRaw] in
           p1 ← DataItem.Update item p newRaw;
           mret (uid, mkDm (PageCache.put_page (pageCache dm) p1) (pageCtl dm) redo1)
         else
           dm' ← Delete dm xid uid;
           Insert dm' xid data);
      _ ← Release dm1 item;
      mret (ret, dm1)
  end.

(** What a caller reads at [uid]: the payload of the item [Read] returns. *)
Definition readData (dm : DmImpl) (uid : Z) : result (option (list byte)) :=
  di ← Read dm uid;
  match di with
  | None => Ok None
  | Some item =>
      p ← pageOf dm item;
      d ← DataItem.GetData item p;
      mret (Some d)
  end.

(** *** Start-up and shutdown *)

(** [dm.metaPage]: the pointer [init] takes with [GetPage(PageNumberDbMeta)]
    and keeps; the page it points to is page 1 of the cache. *)
Definition metaPage (dm : DmImpl) : result PageImpl :=
  match PageCache.GetPage (pageCache dm) PageNumberDbMeta with
  | inl p => Ok p
  | inr _ => Panic NilDereference
  end.

Section Startup.
(** [redo.CrashRecover(pageCache, transactionManager)] is not among the
    sources: what it does to the pages is a parameter. *)
Variable CrashRecover : PageCache.PageCache → Redo.Log → PageCache.PageCache.

(** [init].  The boolean tells whether [CrashRecover] was called; [rnd] is
    what [crypto/rand] delivers to [InitVersion].
    Modelled from the spec: [redo.ResetLog()] "truncates the log". *)
Definition init (dm : DmImpl) (rnd : list byte) : result (bool * DmImpl) :=
  match PageCache.GetPage (pageCache dm) PageNumberDbMeta with
  | inr _ => Panic (PanicMsg "no such page")
  | inl p =>
      clean ← CheckInitVersion p;
      let pc1 := if clean : bool then pageCache dm
                 else CrashRecover (pageCache dm) (redo dm) in
      let dm1 := mkDm pc1 (pageCtl dm) [] in
      p1 ← metaPage dm1;
      p2 ← InitVersion p1 rnd;
      let pc2 := PageCache.put_page pc1 p2 in
      '(_, ctl) ← PageCtl.Init (pageCtl dm) pc2;
      mret (negb clean, mkDm pc2 ctl [])
  end.

End Startup.

End DataManager.

(** ** Calls that take locks and pins *)

(** The definitions so far give, for each method, what its statements do
    to the data.  The modules below put the mutexes and the pin counts back:
    [LockedPage], [LockedPageCtl] and [LockedDataManager] hold the methods
    whose lock or pin handling decides how a call ends, as their callers
    meet them. *)

(** How a call ends.  [Blocks]: the goroutine waits for a mutex that it
    holds itself, so that no one will release it; nothing after that point
    runs, no deferred call either, and the caller gets neither a value nor
    a panic. *)
Inductive outcome (A : Type) : Type :=
  | Returns (a : A)
  | Panics (p : panic)
  | Blocks.
Arguments Returns {A} a.
Arguments Panics {A} p.
Arguments Blocks {A}.

(** A procedure on a state [S]: the state it leaves behind and how it ends.
    The state is kept in every case: what a call has written before it
    panics or blocks stays written. *)
Definition proc (S A : Type) : Type := S → S * outcome A.

#[global] Instance proc_ret {S} : MRet (proc S) := λ A a s, (s, Returns a).
#[global] Instance proc_bind {S} : MBind (proc S) := λ A B k c s,
  match c s with
  | (s1, Returns a) => k a s1
  | (s1, Panics p) => (s1, Panics p)
  | (s1, Blocks) => (s1, Blocks)
  end.

(** [panic(p)] *)
Definition panics {S A} (p : panic) : proc S A := λ s, (s, Panics p).

(** [defer d] followed by [body]: [d] runs when [body] returns and when it
    panics, not when it blocks.  A panic of [body] goes on once [d] has
    returned; if [d] blocks, neither the value nor the panic of [body]
    reaches the caller. *)
Definition defer {S A} (d : proc S unit) (body : proc S A) : proc S A := λ s,
  match body s with
  | (s1, Returns a) =>
      match d s1 with
      | (s2, Returns _) => (s2, Returns a)
      | (s2, Panics q) => (s2, Panics q)
      | (s2, Blocks) => (s2, Blocks)
      end
  | (s1, Panics p) =>
      match d s1 with
      | (s2, Returns _) => (s2, Panics p)
      | (s2, Panics q) => (s2, Panics q)
      | (s2, Blocks) => (s2, Blocks)
      end
  | (s1, Blocks) => (s1, Blocks)
  end.

(** Statements that take no lock: a [result] computed from the state,
    together with the state they leave.  A panic leaves the state as it
    was. *)
Definition step {S A} (f : S → result (A * S)) : proc S A := λ s,
  match f s with
  | Ok (a, s1) => (s1, Returns a)
  | Panic p => (s, Panics p)
  end.

(** A procedure on one field of the state. *)
Definition zoom {S T A} (get : S → T) (set : T → S → S) (c : proc T A)
  : proc S A := λ s,
  let '(t, o) := c (get s) in (set t s, o).

(** *** Mutexes ([sync]) *)

(** A mutex as the goroutine that runs the call meets it.  [Lock] on a held
    mutex waits for an [Unlock]; the calls below only ever wait for a mutex
    that they hold themselves or that an earlier call of the same goroutine
    left held, so the wait does not end. *)
Module Sync.

Module Mutex.
Inductive t : Type := Free | Held.

Definition Lock : proc t unit := λ m,
  match m with
  | Free => (Held, Returns ())
  | Held => (Held, Blocks)
  end.

Definition Unlock : proc t unit := λ m,
  match m with
  | Held => (Free, Returns ())
  | Free => (Free, Panics (PanicMsg "sync: unlock of unlocked mutex"))
  end.
End Mutex.

Module RWMutex.
(** [Readers n]: [n + 1] read locks are held; [Writer]: the write lock is
    held. *)
Inductive t : Type := Free | Readers (n : nat) | Writer.

Definition Lock : proc t unit := λ m,
  match m with
  | Free => (Writer, Returns ())
  | _ => (m, Blocks)
  end.

Definition Unlock : proc t unit := λ m,
  match m with
  | Writer => (Free, Returns ())
  | _ => (m, Panics (PanicMsg "sync: Unlock of unlocked RWMutex"))
  end.

Definition RLock : proc t unit := λ m,
  match m with
  | Free => (Readers 0, Returns ())
  | Readers n => (Readers (S n), Returns ())
  | Writer => (Writer, Blocks)
  end.

Definition RUnlock : proc t unit := λ m,
  match m with
  | Readers O => (Free, Returns ())
  | Readers (S n) => (Readers n, Returns ())
  | _ => (m, Panics (PanicMsg "sync: RUnlock of unlocked RWMutex"))
  end.
End RWMutex.

End Sync.

(** *** Page methods with the page's mutex *)

Module LockedPage.

(** [PageImpl] with its [lock] field; [page] holds the other fields. *)
Record PageImpl : Type := withLock {
  lock : Sync.RWMutex.t;
  page : Page.PageImpl
}.

Definition onLock {A} (c : proc Sync.RWMutex.t A) : proc PageImpl A :=
  zoom lock (λ m p, withLock m (page p)) c.

(** Statements that read the fields. *)
Definition reads {A} (f : Page.PageImpl → result A) : proc PageImpl A :=
  step (λ p, a ← f (page p); mret (a, p)).

(** Statements that write the fields. *)
Definition writes (f : Page.PageImpl → result Page.PageImpl) : proc PageImpl unit :=
  step (λ p, q ← f (page p); mret ((), withLock (lock p) q)).

Definition Lock : proc PageImpl unit := onLock Sync.RWMutex.Lock.

Definition Unlock : proc PageImpl unit := onLock Sync.RWMutex.Unlock.

Definition SetDirty (dirty : bool) : proc PageImpl unit :=
  _ ← onLock Sync.RWMutex.Lock;
  defer (onLock Sync.RWMutex.Unlock)
    (writes (λ p, Ok (Page.SetDirty p dirty))).

Definition GetUsed : proc PageImpl Z :=
  _ ← onLock Sync.RWMutex.RLock;
  defer (onLock Sync.RWMutex.RUnlock)
    (reads Page.GetUsed).

Definition SetUsed (used : Z) : proc PageImpl unit :=
  _ ← onLock Sync.RWMutex.Lock;
  defer (onLock Sync.RWMutex.Unlock)
    (writes (λ p, Page.SetUsed p used)).

Definition GetFree : proc PageImpl Z :=
  _ ← onLock Sync.RWMutex.RLock;
  defer (onLock Sync.RWMutex.RUnlock)
    (used ← GetUsed;
     mret (Page.PageSize - used)).

Definition Append (toAdd : list byte) : proc PageImpl (option Page.error) :=
  _ ← Lock;
  defer Unlock
    (used ← GetUsed;
     let length := len toAdd in
     if decide (Int.int64 (length + used) > Page.PageSize)
     then mret (Some Page.ErrorPageOverFlow)
     else
       _ ← writes (λ p,
             d ← copy_slice (Page.GetData p) used (Int.int64 (used + length)) toAdd;
             mret (Page.SetData p d));
       _ ← SetUsed (Int.int32 (Int.int64 (used + length)));
       _ ← SetDirty true;
       mret None).

Definition Update (toUp : list byte) (offset : Z)
  : proc PageImpl (option Page.error) :=
  _ ← Lock;
  defer Unlock
    (let length := len toUp in
     if decide (Int.int64 (length + offset) > Page.PageSize)
     then mret (Some Page.ErrorPageOverFlow)
     else
       _ ← writes (λ p,
             d ← copy_slice (Page.GetData p) offset (Int.int64 (offset + length)) toUp;
             mret (Page.SetData p d));
       currentLength ← GetUsed;
       _ ← (if decide (Int.int64 (length + offset) > currentLength)
            then SetUsed (Int.int32 (Int.int64 (length + offset)))
            else mret ());
       _ ← SetDirty true;
       mret None).

End LockedPage.

(** *** The free-space index with its mutex *)

Module LockedPageCtl.

(** [PageCtlImpl] with its [lock] field; [ctl] holds the containers. *)
Record PageCtlImpl : Type := withLock {
  lock : Sync.Mutex.t;
  ctl : PageCtl.PageCtlImpl
}.

Definition onLock {A} (c : proc Sync.Mutex.t A) : proc PageCtlImpl A :=
  zoom lock (λ m pi, withLock m (ctl pi)) c.

(** [Select]: [pi.lock.Lock()], then [defer pi.lock.Lock()], then the
    statements of [PageCtl.Select].  The deferred call is a second [Lock],
    not an [Unlock]. *)
Definition Select (need : Z) : proc PageCtlImpl (option PageCtl.PageInfo) :=
  _ ← onLock Sync.Mutex.Lock;
  defer (onLock Sync.Mutex.Lock)
    (step (λ pi,
       '(r, c) ← (PageCtl.Select (ctl pi) need).2;
       mret (r, withLock (lock pi) c))).

(** [AddPageInfo]: the test against [OMITTED] comes before the lock. *)
Definition AddPageInfo (pageId available : Z) : proc PageCtlImpl unit :=
  if decide (available < PageCtl.OMITTED) then mret ()
  else
    _ ← onLock Sync.Mutex.Lock;
    defer (onLock Sync.Mutex.Unlock)
      (step (λ pi,
         c ← PageCtl.AddPageInfo (ctl pi) pageId available;
         mret ((), withLock (lock pi) c))).

End LockedPageCtl.

(** *** The page cache with its pin counts *)

(** Modelled from the spec: section 4.2 of the specification makes the
    cache "reference-counted": [get_page] "pins and returns the page",
    [release_page] "unpins"; section 5 asks that "every [get_page] must be
    paired with exactly one [release_page]" and makes a double release
    fatal.  A release of a page that is not pinned is the error that every
    caller in the sources turns into a panic. *)
Module PinnedCache.

(** Modelled from the spec: the cache with the pin count of each page; a
    page without a binding is not pinned. *)
Record PageCache : Type := withPins {
  pins : gmap Z nat;
  cache : PageCache.PageCache
}.

Inductive error : Type :=
  | ErrNoSuchPage (id : Z)
  | ErrNotPinned (id : Z).

Definition pinCount (pc : PageCache) (id : Z) : nat :=
  default 0%nat (pins pc !! id).

(** Modelled from the spec: [get_page(id)] "pins and returns the page". *)
Definition GetPage (id : Z) (pc : PageCache)
  : PageCache * (Page.PageImpl + error) :=
  match PageCache.pages (cache pc) !! id with
  | Some p => (withPins (<[id := S (pinCount pc id)]> (pins pc)) (cache pc), inl p)
  | None => (pc, inr (ErrNoSuchPage id))
  end.

(** Modelled from the spec: [release_page(page)] "unpins"; "double-release
    ... [is] fatal". *)
Definition ReleasePage (id : Z) (pc : PageCache) : PageCache * option error :=
  match pinCount pc id with
  | O => (pc, Some (ErrNotPinned id))
  | S n => (withPins (<[id := n]> (pins pc)) (cache pc), None)
  end.

(** Modelled from the spec: [new_page(type)] allocates a page and "returns
    the new id"; the caller pins it with [get_page]. *)
Definition NewPage (t : Page.PageType) (pc : PageCache) : Z * PageCache :=
  let '(id, c) := PageCache.NewPage (cache pc) t in
  (id, withPins (pins pc) c).

End PinnedCache.

(** *** The data manager with locks and pins *)

Module LockedDataManager.

Record DmImpl : Type := mkDm {
  pageCache : PinnedCache.PageCache;
  pageCtl : LockedPageCtl.PageCtlImpl;
  redo : Redo.Log
}.


Definition setCache (pc : PinnedCache.PageCache) (dm : DmImpl) : DmImpl :=
  mkDm pc (pageCtl dm) (redo dm).

Definition pagesOf (dm : DmImpl) : gmap Z Page.PageImpl :=
  PageCache.pages (PinnedCache.cache (pageCache dm)).

(** A mutation through a page pointer, seen by every holder of the page. *)
Definition putPage (p : Page.PageImpl) (dm : DmImpl) : DmImpl :=
  setCache (PinnedCache.withPins (PinnedCache.pins (pageCache dm))
              (PageCache.put_page (PinnedCache.cache (pageCache dm)) p)) dm.

(** [dm.pageCtl.m(...)] *)
Definition onCtl {A} (c : proc LockedPageCtl.PageCtlImpl A) : proc DmImpl A :=
  zoom pageCtl (λ x dm, mkDm (pageCache dm) x (redo dm)) c.

(** [dm.pageCache.GetPage(id)] *)
Definition GetPage (id : Z) : proc DmImpl (Page.PageImpl + PinnedCache.error) :=
  λ dm, let '(pc, r) := PinnedCache.GetPage id (pageCache dm) in
        (setCache pc dm, Returns r).

(** [dm.pageCache.ReleasePage(page)] *)
Definition ReleasePage (id : Z) : proc DmImpl (option PinnedCache.error) :=
  λ dm, let '(pc, r) := PinnedCache.ReleasePage id (pageCache dm) in
        (setCache pc dm, Returns r).

(** [dm.pageCache.NewPage(t)] *)
Definition NewPage (t : Page.PageType) : proc DmImpl Z :=
  λ dm, let '(id, pc) := PinnedCache.NewPage t (pageCache dm) in
        (setCache pc dm, Returns id).

(** A method of the page with id [id], called through a pointer to the
    cached page.  The page's mutex is free at the call: every page method
    that has returned has released it. *)
Definition onPage {A} (id : Z) (c : proc LockedPage.PageImpl A) : proc DmImpl A :=
  λ dm,
  match pagesOf dm !! id with
  | None => (dm, Panics NilDereference)
  | Some p =>
      let '(lp, o) := c (LockedPage.withLock Sync.RWMutex.Free p) in
      (putPage (LockedPage.page lp) dm, o)
  end.

(** A method of a data item that reads the bytes it is a view of. *)
Definition viewOf {A} (di : DataItem.DataItem)
    (f : Page.PageImpl → result A) : proc DmImpl A :=
  step (λ dm,
    match pagesOf dm !! DataItem.page di with
    | None => Panic NilDereference
    | Some p => a ← f p; mret (a, dm)
    end).

(** A method of a data item that writes the bytes it is a view of. *)
Definition writeView (di : DataItem.DataItem)
    (f : Page.PageImpl → result Page.PageImpl) : proc DmImpl unit :=
  step (λ dm,
    match pagesOf dm !! DataItem.page di with
    | None => Panic NilDereference
    | Some p => q ← f p; mret ((), putPage q dm)
    end).

(** Modelled from the spec: [insert_log] and [update_log] append to the
    log. *)
Definition log (r : Redo.record) : proc DmImpl unit :=
  λ dm, (mkDm (pageCache dm) (pageCtl dm) (redo dm ++ [r]), Returns ()).

(** The panic of [Release]: [panic(err)] with the error of the cache. *)
Definition releaseFailed : panic := PanicMsg "release".

Definition Release (di : DataItem.DataItem) : proc DmImpl unit :=
  err ← ReleasePage (DataItem.page di);
  match err with
  | Some _ => panics releaseFailed
  | None => mret ()
  end.

Definition Read (uid : Z) : proc DmImpl (option DataItem.DataItem) :=
  let '(pageId, offset) := DataManager.uidTrans uid in
  r ← GetPage pageId;
  match r with
  | inr _ => panics (PanicMsg "Error occurs when getting pages")
  | inl p =>
      item ← step (λ dm, i ← DataManager.getDataItem p offset; mret (i, dm));
      valid ← step (λ dm, v ← DataItem.IsValid item p; mret (v, dm));
      _ ← Release item;
      mret (if valid : bool then Some item else None)
  end.

Definition Insert (xid : Z) (data : list byte) : proc DmImpl Z :=
  let raw := DataItem.WrapDataItemRaw data in
  let length := len raw in
  if decide (length > Page.MaxFreeSize) then panics DataManager.tooLarge
  else
    pi ← onCtl (LockedPageCtl.Select length);
    pageId ← match pi with
             | None => NewPage Page.DataPage
             | Some i => mret (PageCtl.PageId i)
             end;
    r ← GetPage pageId;
    match r with
    | inr _ => panics (PanicMsg "Error occurs when getting page")
    | inl pg =>
        offset ← onPage pageId LockedPage.GetUsed;
        _ ← log (Redo.InsertLog xid (DataManager.getUid (Page.GetId pg) offset) raw);
        err ← onPage pageId (LockedPage.Append raw);
        match err with
        | Some _ => panics (PanicMsg "Error occurs when updating page")
        | None =>
            avail ← onPage pageId LockedPage.GetFree;
            _ ← onCtl (LockedPageCtl.AddPageInfo (Page.GetId pg) avail);
            e ← ReleasePage (Page.GetId pg);
            match e with
            | Some _ => panics (PanicMsg "Error occurs when releasing page")
            | None => mret (DataManager.getUid (Page.GetId pg) offset)
            end
        end
    end.

Definition Delete (xid uid : Z) : proc DmImpl unit :=
  di ← Read uid;
  match di with
  | Some item =>
      oldRaw ← viewOf item (DataItem.GetRaw item);
      let newRaw := DataItem.SetRawInvalid oldRaw in
      _ ← log (Redo.UpdateLog uid xid oldRaw newRaw);
      _ ← writeView item (DataItem.SetInvalid item);
      Release item
  | None =>
      (* [di.Release()] on the nil interface value *)
      panics NilDereference
  end.

Definition Update (xid uid : Z) (data : list byte) : proc DmImpl Z :=
  di ← Read uid;
  match di with
  | None =>
      panics (PanicMsg "Error occurs when updating data item, this data item is invalid")
  | Some item =>
      oldRaw ← viewOf item (DataItem.GetRaw item);
      let newRaw := DataItem.WrapDataItemRaw data in
      ret ← (if decide (len oldRaw >= len newRaw) then
               _ ← log (Redo.UpdateLog uid xid oldRaw newRaw);
               _ ← writeView item (λ p, DataItem.Update item p newRaw);
               mret uid
             else
               _ ← Delete xid uid;
               Insert xid data);
      _ ← Release item;
      mret ret
  end.

End LockedDataManager.

(** ** Concrete states *)

Module Examples.
Import Page PageCtl DataManager.

Definition metaPage : PageImpl := PageCache.freshPage 1 DbMetaPage.

Definition rnd : list byte := [x3a; x91; x07; xc4; x5e; x10; xfb; x62].

Definition dataPage : PageImpl := PageCache.freshPage 2 DataPage.


(** The index after [AddPageInfo(pageId, available)]. *)
Definition added (pi : PageCtlImpl) (pageId available : Z) : PageCtlImpl :=
  match AddPageInfo pi pageId available with
  | Ok pi' => pi'
  | Panic _ => pi
  end.


(** Page 7 with 200 free bytes, page 8 with 300. *)
Definition twoCtl : PageCtlImpl := added (added NewPageCtl 7 200) 8 300.

(** [twoCtl] after [Select(100)] has taken page 7 out of bucket 1. *)
Definition twoCtlSelected : PageCtlImpl := set_free twoCtl 1 [].

(** The calls that build [twoCtl]. *)
Definition twoOps : list op := [OpAddPageInfo 7 200; OpAddPageInfo 8 300].

(** A store of four pages: the meta page and one page of each data kind. *)
Definition kinds : PageCache.PageCache :=
  PageCache.mkCache
    (<[1 := metaPage]>
       (<[2 := PageCache.freshPage 2 DataPage]>
          (<[3 := PageCache.freshPage 3 RecordPage]>
             (<[4 := PageCache.freshPage 4 IndexPage]> ∅))))
    4.

(** The page the statements of [Append(bs)] leave. *)
Definition appended (p : PageImpl) (bs : list byte) : PageImpl :=
  match Append p bs with
  | Ok (p', _) => p'
  | Panic _ => p
  end.

(** Page 2 holding one live record with payload "A" at offset 8. *)
Definition recordPage : PageImpl :=
  appended dataPage (DataItem.WrapDataItemRaw [x41]).

Definition U : Z := getUid 2 8.

(** A store with that page, opened: [Init] has left the index empty. *)
Definition dmOne : DmImpl :=
  mkDm (PageCache.mkCache (<[1 := metaPage]> (<[2 := recordPage]> ∅)) 2)
       NewPageCtl [].

(** A store with the meta page only. *)
Definition dmFresh : DmImpl :=
  mkDm (PageCache.mkCache (<[1 := metaPage]> ∅) 1) NewPageCtl [].

(** The largest payload [Insert] does not refuse, and one byte more. *)
Definition maxPayload : list byte := replicate (Z.to_nat (MaxFreeSize - 9)) x00.
Definition overPayload : list byte := x00 :: maxPayload.


(** A recovery that leaves the pages as they are. *)
Definition noRecover (pc : PageCache.PageCache) (log : Redo.Log)
  : PageCache.PageCache := pc.



(** The meta page after [InitVersion] has written [rnd]. *)
Definition startedMeta : PageImpl :=
  match InitVersion metaPage rnd with
  | Ok p => p
  | Panic _ => metaPage
  end.

(** The store of [dmOne] as [OpenDataManager] leaves it: started, not
    closed. *)
Definition opened : DmImpl :=
  mkDm (PageCache.put_page (pageCache dmOne) startedMeta) NewPageCtl [].

(** [dmOne] after [Delete(1, U)]. *)
Definition dmDeleted : DmImpl :=
  match Delete dmOne 1 U with
  | Ok dm => dm
  | Panic _ => dmOne
  end.

(** [dmOne] after [Update(1, U, "B")]. *)
Definition dmUpdated : DmImpl :=
  match Update dmOne 1 U [x42] with
  | Ok (_, dm) => dm
  | Panic _ => dmOne
  end.

End Examples.

(** * Properties *)

Import Page PageCtl DataManager.

(** ** Integers and bytes *)

Lemma byte_to_Z_range (b : byte) : 0 ≤ byte_to_Z b < 256.
Proof.
  unfold byte_to_Z. pose proof (Byte.to_N_bounded b). lia.
Qed.

Lemma byte_to_of_Z (z : Z) : byte_to_Z (byte_of_Z z) = z `mod` 256.
Proof.
  unfold byte_to_Z, byte_of_Z.
  assert (Hr : 0 ≤ z `mod` 256 < 256) by (apply Z.mod_pos_bound; lia).
  destruct (Byte.of_N (Z.to_N (z `mod` 256))) as [b|] eqn:E; simpl.
  - apply Byte.to_of_N in E. rewrite E. lia.
  - apply Byte.of_N_None_iff in E. lia.
Qed.

Lemma length_le_encode (n : nat) (z : Z) : length (le_encode n z) = n.
Proof. revert z. induction n as [|n IH]; intros z; simpl; [done | by rewrite IH]. Qed.

Lemma le_decode_encode (n : nat) (z : Z) :
  le_decode (le_encode n z) = z `mod` 256 ^ Z.of_nat n.
Proof.
  revert z. induction n as [|n IH]; intros z.
  - simpl. by rewrite Z.mod_1_r.
  - cbn [le_encode le_decode]. rewrite IH, byte_to_of_Z.
    rewrite Nat2Z.inj_succ, Z.pow_succ_r by lia.
    rewrite Z.rem_mul_r by lia. lia.
Qed.

Lemma le_decode_range (bs : list byte) : 0 ≤ le_decode bs < 256 ^ len bs.
Proof.
  unfold len. induction bs as [|b bs IH].
  - simpl. lia.
  - cbn [le_decode length]. rewrite Nat2Z.inj_succ, Z.pow_succ_r by lia.
    pose proof (byte_to_Z_range b). lia.
Qed.

(** ** Uid packing *)

Lemma lor_high_low (q o : Z) :
  0 ≤ o < 2 ^ 32 → Z.lor (q * 2 ^ 32) o = q * 2 ^ 32 + o.
Proof.
  intros Ho.
  assert (Hland : Z.land (q * 2 ^ 32) o = 0).
  { apply Z.bits_inj'. intros n Hn.
    rewrite Z.land_spec, Z.bits_0, <- Z.shiftl_mul_pow2 by lia.
    destruct (decide (n < 32)) as [Hlt|Hge].
    - rewrite Z.shiftl_spec_low by lia. done.
    - destruct (decide (o = 0)) as [->|Hne].
      + rewrite Z.bits_0. apply andb_false_r.
      + rewrite (Z.bits_above_log2 o n); [apply andb_false_r | lia |].
        assert (Z.log2 o < 32) by (apply Z.log2_lt_pow2; lia). lia. }
  rewrite Z.add_nocarry_lxor by done. symmetry. by apply Z.lxor_lor.
Qed.

Lemma getUid_arith (p o : Z) :
  0 ≤ p < 2 ^ 32 → 0 ≤ o < 2 ^ 32 →
  getUid p o = (if decide (p < 2 ^ 31) then p else p - 2 ^ 32) * 2 ^ 32 + o.
Proof.
  intros Hp Ho. unfold getUid, Int.int64.
  rewrite Z.shiftl_mul_pow2 by lia.
  rewrite <- (lor_high_low _ o) by done. f_equal.
  case_decide.
  - rewrite Z.mod_small by lia. lia.
  - replace (p * 2 ^ 32 + 2 ^ 63) with (p * 2 ^ 32 - 2 ^ 63 + 1 * 2 ^ 64) by lia.
    rewrite Z.mod_add by lia. rewrite Z.mod_small by lia. lia.
Qed.

(** C9.  For page ids and offsets below [2^32], splitting the packed uid
    gives back the page id and the offset; the uid stays a 64-bit signed
    value and is negative exactly when the page id is [2^31] or more. *)
Theorem uidTrans_getUid (p o : Z) :
  0 ≤ p < 2 ^ 32 → 0 ≤ o < 2 ^ 32 →
  uidTrans (getUid p o) = (p, o)
  ∧ - 2 ^ 63 ≤ getUid p o < 2 ^ 63
  ∧ (getUid p o < 0 ↔ 2 ^ 31 ≤ p).
Proof.
  intros Hp Ho. rewrite getUid_arith by done.
  set (q := if decide (p < 2 ^ 31) then p else p - 2 ^ 32).
  assert (Hq : q `mod` 2 ^ 32 = p).
  { unfold q. case_decide.
    - apply Z.mod_small. lia.
    - replace (p - 2 ^ 32) with (p + (-1) * 2 ^ 32) by lia.
      rewrite Z.mod_add by lia. apply Z.mod_small. lia. }
  assert (Hm : mask32 = Z.ones 32) by done.
  split; [|split].
  - unfold uidTrans. rewrite Hm, !Z.land_ones, Z.shiftr_div_pow2 by lia.
    rewrite Z.add_comm, Z.mod_add, Z.div_add by lia.
    rewrite (Z.mod_small o), (Z.div_small o) by lia.
    by rewrite Z.add_0_l, Hq.
  - unfold q. case_decide; lia.
  - unfold q. case_decide; lia.
Qed.

(** At page id [2^31 + 5] the uid is negative and still splits back. *)
Lemma uidTrans_getUid_witness :
  uidTrans (getUid (2 ^ 31 + 5) 4000) = (2 ^ 31 + 5, 4000)
  ∧ - 2 ^ 63 ≤ getUid (2 ^ 31 + 5) 4000 < 2 ^ 63
  ∧ (getUid (2 ^ 31 + 5) 4000 < 0 ↔ 2 ^ 31 ≤ 2 ^ 31 + 5).
Proof. apply uidTrans_getUid; lia. Defined.

(** ** Buffers: what a slice reads and what a copy writes *)

Lemma slice_Ok (buf : list byte) (lo hi : Z) :
  in_bounds buf lo hi →
  slice buf lo hi = Ok (take (Z.to_nat (hi - lo)) (drop (Z.to_nat lo) buf)).
Proof. intros H. unfold slice. by rewrite decide_True. Qed.

Lemma slice_inv (buf : list byte) (lo hi : Z) (bs : list byte) :
  slice buf lo hi = Ok bs →
  in_bounds buf lo hi ∧ bs = take (Z.to_nat (hi - lo)) (drop (Z.to_nat lo) buf).
Proof. unfold slice. case_decide; [|done]. by intros [= <-]. Qed.

Lemma len_slice (buf : list byte) (lo hi : Z) (bs : list byte) :
  slice buf lo hi = Ok bs → len bs = hi - lo.
Proof.
  intros [(? & ? & Hhi) ->]%slice_inv. unfold len in *.
  rewrite length_take, length_drop. lia.
Qed.

Lemma lookup_slice (buf : list byte) (lo hi : Z) (bs : list byte) (i : nat) :
  slice buf lo hi = Ok bs → Z.of_nat i < hi - lo →
  bs !! i = buf !! (Z.to_nat lo + i)%nat.
Proof.
  intros [_ ->]%slice_inv Hi.
  rewrite lookup_take_lt by lia. apply lookup_drop.
Qed.

Lemma copy_slice_Ok (buf : list byte) (lo hi : Z) (src : list byte) :
  in_bounds buf lo hi → ∃ buf', copy_slice buf lo hi src = Ok buf'.
Proof. intros H. unfold copy_slice. rewrite decide_True by done. eauto. Qed.

Lemma copy_slice_inv (buf : list byte) (lo hi : Z) (src buf' : list byte) :
  copy_slice buf lo hi src = Ok buf' →
  in_bounds buf lo hi
  ∧ length buf' = length buf
  ∧ ∀ i : nat,
      buf' !! i =
        if decide (lo ≤ Z.of_nat i < lo + Z.min (hi - lo) (len src))
        then src !! (i - Z.to_nat lo)%nat
        else buf !! i.
Proof.
  unfold copy_slice. case_decide as Hb; [|done]. intros [= <-].
  destruct Hb as (Hlo & Hlh & Hhi). unfold len in *.
  split; [done|]. split.
  - rewrite !length_app, !length_take, length_drop. lia.
  - intros i. set (n := Nat.min (Z.to_nat (hi - lo)) (length src)).
    case_decide as Hi.
    + rewrite lookup_app_r by (rewrite length_take; lia).
      rewrite length_take, Nat.min_l by lia.
      rewrite lookup_app_l by (rewrite length_take; lia).
      apply lookup_take_lt. lia.
    + destruct (decide (Z.of_nat i < lo)) as [Hlt|Hge].
      * rewrite lookup_app_l by (rewrite length_take; lia).
        apply lookup_take_lt. lia.
      * rewrite lookup_app_r by (rewrite length_take; lia).
        rewrite length_take, Nat.min_l by lia.
        rewrite lookup_app_r by (rewrite length_take; lia).
        rewrite length_take, Nat.min_l by lia.
        rewrite lookup_drop. f_equal. lia.
Qed.

Lemma slice_ext (buf buf' : list byte) (lo hi : Z) :
  length buf' = length buf →
  (∀ i : nat, lo ≤ Z.of_nat i < hi → buf' !! i = buf !! i) →
  slice buf' lo hi = slice buf lo hi.
Proof.
  intros Hlen Hagree. unfold slice.
  destruct (decide (in_bounds buf' lo hi)) as [Hb'|Hb'];
    destruct (decide (in_bounds buf lo hi)) as [Hb|Hb];
    unfold in_bounds, len in *; try (exfalso; lia).
  - f_equal. apply list_eq. intros i. rewrite !lookup_take, !lookup_drop.
    case_decide; [|done]. apply Hagree. lia.
  - by rewrite Hlen.
Qed.

(** Reading back the bytes a copy has written. *)
Lemma slice_copy_slice_same (buf : list byte) (lo hi : Z) (src buf' : list byte) :
  copy_slice buf lo hi src = Ok buf' →
  let n := Z.min (hi - lo) (len src) in
  slice buf' lo (lo + n) = Ok (take (Z.to_nat n) src).
Proof.
  intros (Hb & Hlen & Hlk)%copy_slice_inv n.
  destruct Hb as (Hlo & Hlh & Hhi). unfold len in *.
  rewrite slice_Ok by (unfold in_bounds, len; lia). f_equal.
  apply list_eq. intros i. rewrite !lookup_take, lookup_drop.
  replace (lo + n - lo) with n by lia.
  case_decide; [|done]. rewrite Hlk, decide_True by (fold n; lia).
  f_equal. lia.
Qed.

(** A copy leaves every slice it does not overlap as it was. *)
Lemma slice_copy_slice_other (buf : list byte) (lo hi : Z) (src buf' : list byte) (a b : Z) :
  copy_slice buf lo hi src = Ok buf' →
  b ≤ lo ∨ lo + Z.min (hi - lo) (len src) ≤ a →
  slice buf' a b = slice buf a b.
Proof.
  intros (Hb & Hlen & Hlk)%copy_slice_inv Hdisj.
  apply slice_ext; [done|]. intros i Hi.
  rewrite Hlk, decide_False by lia. done.
Qed.

(** ** The page header *)

Lemma GetUsed_copy_slice (p : PageImpl) (lo hi : Z) (src d : list byte) :
  copy_slice (data p) lo hi src = Ok d → SzPgUsed ≤ lo →
  GetUsed (SetData p d) = GetUsed p.
Proof.
  intros Hc Hlo. unfold GetUsed, GetData, SetData; simpl.
  by rewrite (slice_copy_slice_other _ _ _ _ _ _ _ Hc) by (left; done).
Qed.

Lemma GetPageType_copy_slice (p : PageImpl) (lo hi : Z) (src d : list byte) :
  copy_slice (data p) lo hi src = Ok d →
  hi ≤ SzPgUsed ∨ SzPgUsed + SzPageType ≤ lo →
  GetPageType (SetData p d) = GetPageType p.
Proof.
  intros Hc Hlo. unfold GetPageType, GetData, SetData; simpl.
  rewrite (slice_copy_slice_other _ _ _ _ _ _ _ Hc); [done|].
  pose proof (copy_slice_inv _ _ _ _ _ Hc) as ((? & ? & ?) & _).
  unfold SzPgUsed, SzPageType in *. lia.
Qed.

Lemma GetUsed_SetUsed (p p' : PageImpl) (used : Z) :
  SetUsed p used = Ok p' → GetUsed p' = Ok (used `mod` 2 ^ 32).
Proof.
  unfold SetUsed, GetUsed, GetData. intros H.
  destruct (copy_slice (data p) 0 SzPgUsed (le_encode 4 used)) as [d|] eqn:Hc;
    [|done].
  injection H as <-. simpl.
  pose proof (slice_copy_slice_same _ _ _ _ _ Hc) as Hs. cbv zeta in Hs.
  unfold len in Hs. rewrite length_le_encode in Hs.
  change (0 + Z.min (SzPgUsed - 0) (Z.of_nat 4)) with SzPgUsed in Hs.
  change (Z.to_nat (Z.min (SzPgUsed - 0) (Z.of_nat 4))) with 4%nat in Hs.
  rewrite Hs. cbn [mbind result_bind mret result_ret].
  rewrite take_ge by (rewrite length_le_encode; lia).
  by rewrite le_decode_encode.
Qed.

Ltac step_bind := cbn [mbind result_bind mret result_ret].

(** ** The version marker of the database meta page *)

Lemma CheckInitVersion_Ok (p : PageImpl) :
  VcOff + VcOffset ≤ len (data p) → GetPageType p = Ok DbMetaPage →
  CheckInitVersion p =
    Ok (bool_decide (take 8 (drop 100 (data p)) = take 8 (drop 108 (data p)))).
Proof.
  intros Hlen Ht. unfold CheckInitVersion, GetData. rewrite Ht. step_bind.
  rewrite decide_False by (intros ?; done).
  unfold VcOff, VcOn, VcOffset in *.
  rewrite !slice_Ok by (unfold in_bounds; lia). step_bind. done.
Qed.

(** C8.  On a database meta page [CheckInitVersion] returns, and returns
    true exactly when the eight bytes at offset 100 equal the eight bytes at
    offset 108; whatever the page held before, [InitVersion] followed by
    [UpdateVersion] makes [CheckInitVersion] return true. *)
Theorem CheckInitVersion_spec (p : PageImpl) (rnd : list byte) :
  len (data p) = PageSize → GetPageType p = Ok DbMetaPage → VcOffset ≤ len rnd →
  (∃ b, CheckInitVersion p = Ok b
        ∧ (b = true ↔ take 8 (drop 100 (data p)) = take 8 (drop 108 (data p))))
  ∧ (∃ p1 p2, InitVersion p rnd = Ok p1
              ∧ UpdateVersion p1 = Ok p2
              ∧ CheckInitVersion p2 = Ok true).
Proof.
  intros Hlen Ht Hrnd. split.
  { eexists. split.
    - apply CheckInitVersion_Ok; [|done]. rewrite Hlen. done.
    - apply bool_decide_eq_true. }
  assert (Hb1 : in_bounds (data p) VcOn (VcOn + VcOffset))
    by (unfold in_bounds; rewrite Hlen; done).
  destruct (copy_slice_Ok _ _ _ rnd Hb1) as [d1 Hd1].
  pose proof (copy_slice_inv _ _ _ _ _ Hd1) as (_ & Hlen1 & _).
  assert (Hsrc : slice d1 VcOn (VcOn + VcOffset) = Ok (take 8 rnd)).
  { pose proof (slice_copy_slice_same _ _ _ _ _ Hd1) as Hs. cbv zeta in Hs.
    replace (Z.min (VcOn + VcOffset - VcOn) (len rnd)) with VcOffset in Hs
      by (unfold VcOn, VcOffset in *; lia).
    exact Hs. }
  assert (Hsrclen : length (take 8 rnd) = 8%nat).
  { rewrite length_take. unfold len, VcOffset in Hrnd. lia. }
  assert (Hb2 : in_bounds d1 VcOff (VcOff + VcOffset)).
  { unfold in_bounds, len in *. rewrite Hlen1, Hlen. done. }
  destruct (copy_slice_Ok _ _ _ (take 8 rnd) Hb2) as [d2 Hd2].
  pose proof (copy_slice_inv _ _ _ _ _ Hd2) as (_ & Hlen2 & _).
  assert (Ht1 : GetPageType (SetData p d1) = Ok DbMetaPage).
  { rewrite (GetPageType_copy_slice p _ _ _ _ Hd1); [done|]. right. done. }
  assert (Ht2 : GetPageType (SetData (SetData p d1) d2) = Ok DbMetaPage).
  { rewrite (GetPageType_copy_slice (SetData p d1) _ _ _ _ Hd2); [done|].
    right. done. }
  exists (SetData p d1), (SetData (SetData p d1) d2). split; [|split].
  - unfold InitVersion, GetData. rewrite Ht. step_bind.
    rewrite decide_False by (intros ?; done).
    rewrite slice_Ok by done. step_bind.
    rewrite decide_False by lia. rewrite Hd1. done.
  - unfold UpdateVersion, GetData. rewrite Ht1. step_bind.
    rewrite decide_False by (intros ?; done).
    cbn [SetData data]. rewrite Hsrc. step_bind. rewrite Hd2. done.
  - rewrite CheckInitVersion_Ok;
      [|cbn [SetData data]; unfold len in *; rewrite Hlen2, Hlen1, Hlen; done|done].
    f_equal. apply bool_decide_eq_true. cbn [SetData data].
    assert (Hv1 : slice d2 VcOn (VcOn + VcOffset) = Ok (take 8 rnd)).
    { rewrite (slice_copy_slice_other _ _ _ _ _ VcOn (VcOn + VcOffset) Hd2);
        [done|]. left. done. }
    assert (Hv2 : slice d2 VcOff (VcOff + VcOffset) = Ok (take 8 rnd)).
    { pose proof (slice_copy_slice_same _ _ _ _ _ Hd2) as Hs. cbv zeta in Hs.
      unfold len in Hs. rewrite Hsrclen in Hs.
      change (Z.min (VcOff + VcOffset - VcOff) (Z.of_nat 8)) with VcOffset in Hs.
      rewrite Hs. f_equal. apply take_ge. rewrite Hsrclen. done. }
    apply slice_inv in Hv1 as [_ Hv1]. apply slice_inv in Hv2 as [_ Hv2].
    change (Z.to_nat (VcOn + VcOffset - VcOn)) with 8%nat in Hv1.
    change (Z.to_nat (VcOff + VcOffset - VcOff)) with 8%nat in Hv2.
    change (Z.to_nat VcOn) with 100%nat in Hv1.
    change (Z.to_nat VcOff) with 108%nat in Hv2.
    congruence.
Qed.

(** ** Appending to a page *)

Lemma GetUsed_Ok (p : PageImpl) :
  SzPgUsed ≤ len (data p) →
  GetUsed p = Ok (le_decode (take 4 (data p))) ∧ 0 ≤ le_decode (take 4 (data p)).
Proof.
  intros Hlen. split; [|apply le_decode_range].
  unfold GetUsed, GetData. rewrite slice_Ok by (unfold in_bounds, SzPgUsed in *; lia).
  done.
Qed.

Lemma int32_small (z : Z) : 0 ≤ z ≤ PageSize → Int.int32 z = z.
Proof.
  intros Hz. unfold Int.int32, PageSize in *. rewrite Z.mod_small by lia. lia.
Qed.

(** What the statements of [Append] do on their own, the mutex set aside:
    they report [ErrorPageOverFlow] exactly when [used] plus the length of
    [toAdd] exceeds [PageSize], and then leave the page as it was; otherwise
    [used] advances by the length of [toAdd], the page is dirty, and past
    the [used] header the buffer holds [toAdd] from the old [used] on and is
    unchanged elsewhere.  The call does not get that far: see
    [Append_blocks]. *)
Lemma Append_statements (p : PageImpl) (toAdd : list byte) :
  len (data p) = PageSize →
  ∃ used, GetUsed p = Ok used
    ∧ ((∃ p', Append p toAdd = Ok (p', Some ErrorPageOverFlow))
         ↔ used + len toAdd > PageSize)
    ∧ (used + len toAdd > PageSize →
         Append p toAdd = Ok (p, Some ErrorPageOverFlow))
    ∧ (used + len toAdd ≤ PageSize →
         ∃ p', Append p toAdd = Ok (p', None)
           ∧ GetUsed p' = Ok (used + len toAdd)
           ∧ dirty p' = true
           ∧ pageId p' = pageId p
           ∧ len (data p') = PageSize
           ∧ (∀ i : nat, SzPgUsed ≤ Z.of_nat i →
                data p' !! i =
                  if decide (used ≤ Z.of_nat i < used + len toAdd)
                  then toAdd !! (i - Z.to_nat used)%nat
                  else data p !! i)
           ∧ (SzPgUsed ≤ used →
                slice (data p') used (used + len toAdd) = Ok toAdd)).
Proof.
  intros Hlen.
  destruct (GetUsed_Ok p) as [Hu Hu0]; [rewrite Hlen; done|].
  set (used := le_decode (take 4 (data p))) in *.
  assert (Hover : used + len toAdd > PageSize →
                  Append p toAdd = Ok (p, Some ErrorPageOverFlow)).
  { intros Hgt. unfold Append. rewrite Hu. step_bind.
    rewrite decide_True by lia. done. }
  assert (Hfit : used + len toAdd ≤ PageSize →
    ∃ d1 d2,
      copy_slice (data p) used (used + len toAdd) toAdd = Ok d1
      ∧ copy_slice d1 0 SzPgUsed (le_encode 4 (used + len toAdd)) = Ok d2
      ∧ Append p toAdd = Ok (SetDirty (SetData (SetData p d1) d2) true, None)).
  { intros Hle.
    assert (Hlt : 0 ≤ len toAdd) by (unfold len; lia).
    destruct (copy_slice_Ok (data p) used (used + len toAdd) toAdd) as [d1 Hd1];
      [unfold in_bounds; lia|].
    pose proof (copy_slice_inv _ _ _ _ _ Hd1) as (_ & Hlen1 & _).
    destruct (copy_slice_Ok d1 0 SzPgUsed (le_encode 4 (used + len toAdd)))
      as [d2 Hd2];
      [unfold in_bounds, len in *; rewrite Hlen1, Hlen; done|].
    exists d1, d2. split; [done|]. split; [done|].
    unfold Append. rewrite Hu. step_bind. rewrite decide_False by lia.
    unfold GetData. rewrite Hd1. step_bind.
    rewrite int32_small by lia. unfold SetUsed, GetData. cbn [SetData data].
    rewrite Hd2. done. }
  exists used. split; [done|]. split; [|split; [done|]].
  - split.
    + intros [p' Hp']. destruct (decide (used + len toAdd > PageSize)); [done|].
      destruct Hfit as (d1 & d2 & _ & _ & Ha); [lia|]. congruence.
    + intros Hgt. exists p. by apply Hover.
  - intros Hle. destruct (Hfit Hle) as (d1 & d2 & Hd1 & Hd2 & Ha).
    pose proof (copy_slice_inv _ _ _ _ _ Hd1) as (_ & Hlen1 & Hlk1).
    pose proof (copy_slice_inv _ _ _ _ _ Hd2) as (_ & Hlen2 & Hlk2).
    assert (Hmin : Z.min (used + len toAdd - used) (len toAdd) = len toAdd) by lia.
    eexists. split; [exact Ha|].
    split; [|cbn [SetDirty SetData data dirty pageId];
             split; [done|split; [done|split; [|split]]]].
    + change (GetUsed (SetData (SetData p d1) d2) = Ok (used + len toAdd)).
      rewrite (GetUsed_SetUsed (SetData p d1) (SetData (SetData p d1) d2)
                 (used + len toAdd)).
      * f_equal. apply Z.mod_small. unfold PageSize, len in *. lia.
      * unfold SetUsed, GetData. cbn [SetData data]. rewrite Hd2. done.
    + unfold len in *. rewrite Hlen2, Hlen1. done.
    + intros i Hi. rewrite Hlk2.
      rewrite decide_False
        by (unfold len, SzPgUsed in *; rewrite length_le_encode; lia).
      rewrite Hlk1, Hmin. done.
    + intros Hused.
      rewrite (slice_copy_slice_other _ _ _ _ _ used (used + len toAdd) Hd2).
      * pose proof (slice_copy_slice_same _ _ _ _ _ Hd1) as Hs. cbv zeta in Hs.
        rewrite Hmin in Hs. rewrite Hs. f_equal. apply take_ge.
        unfold len. lia.
      * right. unfold len, SzPgUsed in *. rewrite length_le_encode. lia.
Qed.

(** A fresh meta page, marked and then closed cleanly. *)
Lemma CheckInitVersion_spec_witness :
  (∃ b, CheckInitVersion Examples.metaPage = Ok b
        ∧ (b = true ↔ take 8 (drop 100 (data Examples.metaPage))
                       = take 8 (drop 108 (data Examples.metaPage))))
  ∧ (∃ p1 p2, InitVersion Examples.metaPage Examples.rnd = Ok p1
              ∧ UpdateVersion p1 = Ok p2
              ∧ CheckInitVersion p2 = Ok true).
Proof.
  apply CheckInitVersion_spec.
  - vm_compute. reflexivity.
  - vm_compute. reflexivity.
  - vm_compute. discriminate.
Defined.

(** ** Containers *)

Section ContainerFacts.
Context {A : Type} (cmp : A → A → Z).

Lemma FindGtAndRemove_None (l l' : list A) (t : A) :
  DataStructure.FindGtAndRemove cmp l t = (None, l') →
  l' = l ∧ ∀ x, x ∈ l → cmp x t < 0.
Proof.
  revert l'. induction l as [|y r IH]; intros l'; simpl.
  - intros [= <-]. split; [done|]. intros x Hx. by apply elem_of_nil in Hx.
  - case_decide as Hy; [done|].
    destruct (DataStructure.FindGtAndRemove cmp r t) as [o r'] eqn:E.
    intros [= -> <-]. destruct (IH r' eq_refl) as [-> Hall].
    split; [done|]. intros x [->|Hx]%elem_of_cons; [lia | by apply Hall].
Qed.

Lemma FindGtAndRemove_Some (l l' : list A) (t x : A) :
  DataStructure.FindGtAndRemove cmp l t = (Some x, l') →
  0 ≤ cmp x t
  ∧ ∃ l1 l2, l = l1 ++ x :: l2 ∧ l' = l1 ++ l2 ∧ ∀ y, y ∈ l1 → cmp y t < 0.
Proof.
  revert l'. induction l as [|y r IH]; intros l'; simpl; [done|].
  case_decide as Hy.
  - intros [= -> <-]. split; [done|]. exists [], r. split; [done|].
    split; [done|]. intros z Hz. by apply elem_of_nil in Hz.
  - destruct (DataStructure.FindGtAndRemove cmp r t) as [o r'] eqn:E.
    intros [= -> <-]. destruct (IH r' eq_refl) as (Hx & l1 & l2 & -> & -> & Hall).
    split; [done|]. exists (y :: l1), l2. split; [done|]. split; [done|].
    intros z [->|Hz]%elem_of_cons; [lia | by apply Hall].
Qed.

Lemma BinarySearch_Some (l : list A) (t x : A) :
  DataStructure.BinarySearch cmp l t = Some x → x ∈ l ∧ 0 ≤ cmp x t.
Proof.
  induction l as [|y r IH]; simpl; [done|].
  case_decide as Hy.
  - intros [= ->]. split; [apply elem_of_cons; by left | done].
  - intros [Hx Hc]%IH. split; [apply elem_of_cons; by right | done].
Qed.

Lemma elem_of_Add (l : list A) (x y : A) :
  y ∈ DataStructure.Add cmp l x ↔ y = x ∨ y ∈ l.
Proof.
  induction l as [|z r IH]; simpl.
  - rewrite elem_of_cons, elem_of_nil. tauto.
  - case_decide.
    + rewrite !elem_of_cons. tauto.
    + rewrite !elem_of_cons, IH. tauto.
Qed.

End ContainerFacts.

Lemma f_nonneg (x t : PageInfo) : 0 ≤ f x t ↔ Available t ≤ Available x.
Proof. unfold f. repeat case_decide; lia. Qed.

(** ** The free-space index *)

Lemma INTERVALS_eq : INTERVALS = 64.
Proof. reflexivity. Qed.

Lemma free_at_Ok (pi : PageCtlImpl) (i : Z) (l : list PageInfo) :
  free_at pi i = Ok l → 0 ≤ i < INTERVALS ∧ l = bucket pi i.
Proof. unfold free_at. case_decide; [|done]. by intros [= <-]. Qed.

Lemma bucket_set_free (pi : PageCtlImpl) (i j : Z) (l : list PageInfo) :
  bucket (set_free pi i l) j = if decide (i = j) then l else bucket pi j.
Proof.
  unfold bucket, set_free. cbn [free]. rewrite lookup_insert.
  by case_decide.
Qed.

(** The indices a scan reads are consecutive from its start. *)
Lemma scan_trace (fuel : nat) (pi : PageCtlImpl) (t : PageInfo) (i : Z) tr r :
  scan fuel pi t i = (tr, r) → tr = seqZ i (len tr).
Proof.
  revert i tr r. induction fuel as [|k IH]; intros i tr r; simpl.
  - intros [= <- <-]. done.
  - case_decide; [|by intros [= <- <-]].
    destruct (free_at pi i) as [l|e]; [|by intros [= <- <-]].
    destruct (DataStructure.FindGtAndRemove f l t) as [[x|] l'];
      [by intros [= <- <-]|].
    destruct (scan k pi t (i + 1)) as [tr' r'] eqn:E. intros [= <- <-].
    apply IH in E. unfold len in *. cbn [length].
    rewrite seqZ_cons by lia. f_equal.
    replace (Z.pred (Z.of_nat (S (length tr')))) with (Z.of_nat (length tr')) by lia.
    exact E.
Qed.

(** An entry a scan returns was the first fitting entry of a bucket inside
    the array, and it is taken out of that bucket. *)
Lemma scan_found (fuel : nat) (pi : PageCtlImpl) (t : PageInfo) (i : Z) tr e pi' :
  scan fuel pi t i = (tr, Ok (Some e, pi')) →
  ∃ j l', i ≤ j ∧ 0 ≤ j < INTERVALS
    ∧ last tr = Some j
    ∧ DataStructure.FindGtAndRemove f (bucket pi j) t = (Some e, l')
    ∧ pi' = set_free pi j l'.
Proof.
  revert i tr. induction fuel as [|k IH]; intros i tr; simpl; [done|].
  case_decide; [|done].
  destruct (free_at pi i) as [l|err] eqn:Hl; [|done].
  apply free_at_Ok in Hl as [Hi ->].
  destruct (DataStructure.FindGtAndRemove f (bucket pi i) t) as [[x|] l'] eqn:Hf.
  - intros [= <- -> <-]. exists i, l'. repeat split; (done || lia).
  - destruct (scan k pi t (i + 1)) as [tr' r'] eqn:E. intros [= <- ->].
    destruct (IH _ _ E) as (j & l2 & ? & ? & Hlast & ? & ?).
    exists j, l2. split; [lia|]. split; [done|]. split; [|done].
    destruct tr'; [done|]. done.
Qed.

(** A scan that starts inside the loop bound never falls out of the loop:
    it returns an entry or panics. *)
Lemma scan_not_none (fuel : nat) (pi : PageCtlImpl) (t : PageInfo) (i : Z) tr pi' :
  i ≤ INTERVALS → scan fuel pi t i ≠ (tr, Ok (None, pi')).
Proof.
  revert i tr. induction fuel as [|k IH]; intros i tr Hi; simpl; [done|].
  rewrite decide_True by done. unfold free_at.
  case_decide as Hin; [|done].
  destruct (DataStructure.FindGtAndRemove f (bucket pi i) t) as [[x|] l']; [done|].
  destruct (scan k pi t (i + 1)) as [tr' r'] eqn:E. intros [= <- ->].
  by apply (IH (i + 1) tr'); [lia|].
Qed.

Lemma scan_fuel (fuel : nat) (pi : PageCtlImpl) (t : PageInfo) (i : Z) :
  i ≤ INTERVALS + 1 → INTERVALS + 1 - i < Z.of_nat fuel →
  (scan fuel pi t i).2 ≠ Panic OutOfFuel.
Proof.
  revert i. induction fuel as [|k IH]; intros i Hi Hf; simpl; [lia|].
  case_decide; [|done]. unfold free_at. case_decide; [|done].
  destruct (DataStructure.FindGtAndRemove f (bucket pi i) t) as [[x|] l']; [done|].
  specialize (IH (i + 1)). destruct (scan k pi t (i + 1)) as [tr' r'].
  apply IH; lia.
Qed.

(** A scan that finds nothing reads the slot past the end of the array. *)
Lemma scan_reaches_INTERVALS (fuel : nat) (pi : PageCtlImpl) (t : PageInfo) (i : Z) :
  0 ≤ i ≤ INTERVALS → INTERVALS + 1 - i < Z.of_nat fuel →
  (∀ j x, i ≤ j < INTERVALS → x ∈ bucket pi j → f x t < 0) →
  scan fuel pi t i
    = (seqZ i (INTERVALS + 1 - i), Panic (IndexOutOfRange INTERVALS INTERVALS)).
Proof.
  revert i. induction fuel as [|k IH]; intros i Hi Hf Hnone; simpl; [lia|].
  rewrite decide_True by lia. unfold free_at.
  case_decide as Hin.
  - destruct (DataStructure.FindGtAndRemove f (bucket pi i) t) as [[x|] l'] eqn:Hx.
    + apply FindGtAndRemove_Some in Hx as (Hc & l1 & l2 & Hl & _).
      assert (Hx : x ∈ bucket pi i).
      { rewrite Hl. apply elem_of_app. right. apply elem_of_cons. by left. }
      pose proof (Hnone i x ltac:(lia) Hx). lia.
    + rewrite IH; [|lia|lia|intros j x ? ?; apply (Hnone j); [lia|done]].
      rewrite (seqZ_cons i) by lia.
      replace (Z.succ i) with (i + 1) by lia.
      by replace (Z.pred (INTERVALS + 1 - i)) with (INTERVALS + 1 - (i + 1)) by lia.
  - assert (i = INTERVALS) as -> by lia.
    by replace (INTERVALS + 1 - INTERVALS) with 1 by lia.
Qed.

Lemma scanFrom_start (pi : PageCtlImpl) (need i0 j : Z) :
  head (scanFrom pi need i0).1 = Some j →
  j = if decide (i0 ≠ INTERVALS) then i0 + 1 else i0.
Proof.
  unfold scanFrom.
  set (i := if decide (i0 ≠ INTERVALS) then i0 + 1 else i0).
  destruct (scan _ pi _ i) as [tr r] eqn:E. apply scan_trace in E.
  cbn [fst]. destruct tr as [|x tr']; [done|].
  unfold len in E. rewrite seqZ_cons in E by (cbn [length]; lia).
  intros [= <-]. congruence.
Qed.

Lemma scanFrom_found (pi : PageCtlImpl) (need i0 : Z) tr e pi' :
  0 ≤ i0 → scanFrom pi need i0 = (tr, Ok (Some e, pi')) →
  need ≤ Available e
  ∧ ∃ j l', 1 ≤ j < INTERVALS ∧ i0 ≤ j ∧ last tr = Some j
      ∧ DataStructure.FindGtAndRemove f (bucket pi j) (mkInfo (-1) need) = (Some e, l')
      ∧ pi' = set_free pi j l'.
Proof.
  intros Hi0 (j & l' & Hj & Hin & Hlast & Hf & ->)%scan_found.
  pose proof (FindGtAndRemove_Some _ _ _ _ _ Hf) as [Hc%f_nonneg _].
  split; [done|]. exists j, l'.
  split; [|split; [|done]]; case_decide; lia.
Qed.

Lemma scanFrom_fuel (pi : PageCtlImpl) (need i0 : Z) :
  i0 ≤ INTERVALS → (scanFrom pi need i0).2 ≠ Panic OutOfFuel.
Proof.
  intros Hi0. unfold scanFrom. apply scan_fuel; case_decide; lia.
Qed.

Lemma scanFrom_not_none (pi : PageCtlImpl) (need i0 : Z) tr pi' :
  i0 ≤ INTERVALS → scanFrom pi need i0 ≠ (tr, Ok (None, pi')).
Proof.
  intros Hi0. unfold scanFrom. apply scan_not_none. case_decide; lia.
Qed.

Lemma quot_THRESHOLD (a : Z) : 0 ≤ a → a `quot` THRESHOLD = a `div` THRESHOLD.
Proof. intros Ha. by apply Z.quot_div_nonneg. Qed.

Lemma div_THRESHOLD_bounds (a : Z) :
  0 ≤ a →
  THRESHOLD * (a `div` THRESHOLD) ≤ a < THRESHOLD * (a `div` THRESHOLD) + THRESHOLD.
Proof.
  intros Ha. unfold THRESHOLD.
  pose proof (Z.div_mod a 128 ltac:(lia)).
  pose proof (Z.mod_pos_bound a 128 ltac:(lia)). lia.
Qed.

(** What [Select] hands out: a tiny entry, left where it is, or the first
    fitting entry of a bucket from 1 to [INTERVALS - 1], taken out of it. *)
Lemma Select_found (pi : PageCtlImpl) (need : Z) tr e pi' :
  Select pi need = (tr, Ok (Some e, pi')) →
  0 < need ≤ PageSize ∧ need ≤ Available e
  ∧ ((need < TinyTHRESHOLD ∧ tr = [] ∧ pi' = pi ∧ e ∈ tiny pi)
     ∨ ∃ j l', 1 ≤ j < INTERVALS ∧ last tr = Some j
         ∧ DataStructure.FindGtAndRemove f (bucket pi j) (mkInfo (-1) need) = (Some e, l')
         ∧ pi' = set_free pi j l').
Proof.
  unfold Select. case_decide as H0; [done|]. case_decide as H1; [done|].
  split; [lia|]. revert H. case_decide as Ht.
  - destruct (selectTinyFast pi need) as [r|] eqn:Hr.
    + intros [= <- -> <-]. unfold selectTinyFast in Hr.
      rewrite decide_True in Hr by done.
      apply BinarySearch_Some in Hr as [Hin Hc%f_nonneg].
      split; [done|]. left. done.
    + intros (Hfit & j & l' & ? & ? & ? & ? & ?)%scanFrom_found; [|lia].
      split; [done|]. right. by exists j, l'.
  - intros (Hfit & j & l' & ? & ? & ? & ? & ?)%scanFrom_found.
    + split; [done|]. right. by exists j, l'.
    + rewrite quot_THRESHOLD by lia. apply Z.div_pos; unfold THRESHOLD; lia.
Qed.

Lemma Select_start_index (pi : PageCtlImpl) (need j : Z) :
  0 < need ≤ PageSize → head (Select pi need).1 = Some j →
  j = if decide (need = PageSize) then INTERVALS else need `div` THRESHOLD + 1.
Proof.
  intros Hn. unfold Select.
  rewrite decide_False, decide_False by lia.
  pose proof (div_THRESHOLD_bounds need ltac:(lia)) as Hd.
  unfold TinyTHRESHOLD, THRESHOLD, PageSize in *. rewrite INTERVALS_eq.
  change (128 `quot` 4) with 32.
  case_decide as Ht.
  - destruct (selectTinyFast pi need); [done|].
    intros ->%scanFrom_start. rewrite INTERVALS_eq.
    rewrite decide_True by lia. rewrite decide_False by lia.
    rewrite Z.div_small by lia. done.
  - intros ->%scanFrom_start. rewrite INTERVALS_eq.
    rewrite Z.quot_div_nonneg by lia.
    repeat case_decide; lia.
Qed.

(** [Select] never answers "nothing fits": it returns an entry or panics. *)
Lemma Select_not_none (pi : PageCtlImpl) (need : Z) pi' :
  (Select pi need).2 ≠ Ok (None, pi').
Proof.
  unfold Select. case_decide; [done|]. case_decide as Hn; [done|].
  assert (Hq : need `quot` THRESHOLD ≤ INTERVALS).
  { rewrite quot_THRESHOLD by lia.
    pose proof (div_THRESHOLD_bounds need ltac:(lia)).
    unfold THRESHOLD, PageSize in *. rewrite INTERVALS_eq. lia. }
  case_decide.
  - destruct (selectTinyFast pi need); [done|].
    destruct (scanFrom pi need 0) as [tr r] eqn:E. cbn [snd]. intros ->.
    by apply scanFrom_not_none in E; [|rewrite INTERVALS_eq].
  - destruct (scanFrom pi need _) as [tr r] eqn:E. cbn [snd]. intros ->.
    by apply scanFrom_not_none in E.
Qed.

(** C3, as amended.  For a request between 1 and [PageSize] the scan of
    [Select] is finite, an entry it returns has [Available] at least the
    request, and the first bucket it reads is [need / THRESHOLD + 1]
    ([INTERVALS] for a request of [PageSize]): that is
    [ceil(need / THRESHOLD)] unless the request is a multiple of
    [THRESHOLD] below [PageSize], where it is one bucket further. *)
Theorem Select_spec (pi : PageCtlImpl) (need : Z) :
  0 < need ≤ PageSize →
  (Select pi need).2 ≠ Panic OutOfFuel
  ∧ (∀ e pi', (Select pi need).2 = Ok (Some e, pi') → need ≤ Available e)
  ∧ (∀ j, head (Select pi need).1 = Some j →
       j = (if decide (need = PageSize) then INTERVALS else need `div` THRESHOLD + 1)
       ∧ (need `mod` THRESHOLD ≠ 0 ∨ need = PageSize → j = ceilThreshold need)
       ∧ (need `mod` THRESHOLD = 0 ∧ need < PageSize → j = ceilThreshold need + 1)).
Proof.
  intros Hn. split; [|split].
  - unfold Select. rewrite decide_False, decide_False by lia.
    assert (Hq : need `quot` THRESHOLD ≤ INTERVALS).
    { rewrite quot_THRESHOLD by lia.
      pose proof (div_THRESHOLD_bounds need ltac:(lia)).
      unfold THRESHOLD, PageSize in *. rewrite INTERVALS_eq. lia. }
    case_decide.
    + destruct (selectTinyFast pi need); [done|].
      apply scanFrom_fuel. by rewrite INTERVALS_eq.
    + by apply scanFrom_fuel.
  - intros e pi' He. destruct (Select pi need) as [tr r] eqn:E.
    cbn [snd] in He. subst r. by apply Select_found in E as (_ & ? & _).
  - intros j Hj. apply Select_start_index in Hj; [|done]. split; [done|].
    pose proof (Z.div_mod need 128 ltac:(lia)) as Hdm.
    pose proof (Z.mod_pos_bound need 128 ltac:(lia)) as Hm.
    unfold ceilThreshold, THRESHOLD, PageSize in *. rewrite INTERVALS_eq in Hj.
    split.
    + intros Hcase. case_decide as Hp.
      * subst. reflexivity.
      * destruct Hcase as [Hne|]; [|done]. subst j.
        apply (Z.div_unique _ _ _ (need `mod` 128 - 1)); lia.
    + intros [Hz Hlt]. rewrite decide_False in Hj by lia. subst j. f_equal.
      apply (Z.div_unique _ _ _ 127); lia.
Qed.

(** A request of 100 bytes against the index holding page 7 (200 free)
    and page 8 (300 free). *)
Lemma Select_spec_witness :
  (Select Examples.twoCtl 100).2 ≠ Panic OutOfFuel
  ∧ (∀ e pi', (Select Examples.twoCtl 100).2 = Ok (Some e, pi') → 100 ≤ Available e)
  ∧ (∀ j, head (Select Examples.twoCtl 100).1 = Some j →
       j = (if decide (100 = PageSize) then INTERVALS else 100 `div` THRESHOLD + 1)
       ∧ (100 `mod` THRESHOLD ≠ 0 ∨ 100 = PageSize → j = ceilThreshold 100)
       ∧ (100 `mod` THRESHOLD = 0 ∧ 100 < PageSize → j = ceilThreshold 100 + 1)).
Proof. apply (Select_spec Examples.twoCtl 100). unfold PageSize. lia. Defined.

(** C3, counterexample.  Page 7 has 200 free bytes (bucket 1) and page 8
    has 300 (bucket 2).  A request of 128 bytes has [ceil(128 / 128) = 1],
    but the scan reads bucket 2 first and returns page 8. *)
Lemma Select_counterexample :
  0 < 128 ≤ PageSize
  ∧ ceilThreshold 128 = 1
  ∧ bucket Examples.twoCtl 1 = [mkInfo 7 200]
  ∧ (Select Examples.twoCtl 128).1 = [2]
  ∧ (∃ pi', (Select Examples.twoCtl 128).2 = Ok (Some (mkInfo 8 300), pi'))
  ∧ ¬ SelectAsSpecified Examples.twoCtl 128.
Proof.
  split; [done|]. split; [done|]. split; [done|].
  split; [by vm_compute|]. split; [eexists; by vm_compute|].
  intros (_ & Hceil & _). specialize (Hceil 2 ltac:(by vm_compute)). done.
Qed.

(** On an index where nothing fits, [Select] reads [pi.free[INTERVALS]]. *)
Lemma Select_reads_past_array (pi : PageCtlImpl) (need : Z) :
  0 < need ≤ PageSize →
  selectTinyFast pi need = None →
  (∀ j x, 1 ≤ j < INTERVALS → x ∈ bucket pi j → Available x < need) →
  (Select pi need).2 = Panic (IndexOutOfRange INTERVALS INTERVALS).
Proof.
  intros Hn Htiny Hnone. unfold Select.
  rewrite decide_False, decide_False by lia.
  assert (Hscan : ∀ i0, 0 ≤ i0 ≤ INTERVALS →
            (scanFrom pi need i0).2 = Panic (IndexOutOfRange INTERVALS INTERVALS)).
  { intros i0 Hi0. unfold scanFrom. rewrite scan_reaches_INTERVALS; [done|..].
    - case_decide; lia.
    - case_decide; lia.
    - intros j x Hj Hx.
      assert (Hlt : Available x < need) by (apply (Hnone j); [case_decide; lia|done]).
      destruct (decide (0 ≤ f x (mkInfo (-1) need))) as [Hc%f_nonneg|]; [|lia].
      cbn [Available] in Hc. lia. }
  case_decide.
  - rewrite Htiny. apply Hscan. rewrite INTERVALS_eq. lia.
  - apply Hscan. rewrite quot_THRESHOLD by lia.
    pose proof (div_THRESHOLD_bounds need ltac:(lia)).
    unfold THRESHOLD, PageSize in *. rewrite INTERVALS_eq.
    split; [apply Z.div_pos|]; lia.
Qed.


(** A hit in a bucket takes the entry out of the bucket. *)
Lemma Select_bucket_hit (pi : PageCtlImpl) (need : Z) tr e pi' :
  Select pi need = (tr, Ok (Some e, pi')) → tr ≠ [] →
  ∃ j l1 l2, last tr = Some j
    ∧ bucket pi j = l1 ++ e :: l2
    ∧ bucket pi' j = l1 ++ l2
    ∧ tiny pi' = tiny pi.
Proof.
  intros (_ & _ & [(_ & -> & _)|(j & l' & Hj & Hlast & Hf & ->)])%Select_found Htr;
    [done|].
  apply FindGtAndRemove_Some in Hf as (_ & l1 & l2 & Hl & -> & _).
  exists j, l1, l2. rewrite bucket_set_free, decide_True by done. done.
Qed.


(** ** Entries filed in bucket 0 *)

Lemma scanFrom_trace_ge (pi : PageCtlImpl) (need i0 j : Z) :
  0 ≤ i0 → j ∈ (scanFrom pi need i0).1 → 1 ≤ j.
Proof.
  intros Hi0. unfold scanFrom.
  set (i := if decide (i0 ≠ INTERVALS) then i0 + 1 else i0).
  assert (1 ≤ i) by (unfold i; rewrite INTERVALS_eq; case_decide; lia).
  destruct (scan _ pi _ i) as [tr r] eqn:E. apply scan_trace in E.
  cbn [fst]. rewrite E. intros Hj%elem_of_seqZ. lia.
Qed.

Lemma Select_trace_ge (pi : PageCtlImpl) (need j : Z) :
  j ∈ (Select pi need).1 → 1 ≤ j.
Proof.
  unfold Select. case_decide; [by intros ?%elem_of_nil|].
  case_decide; [by intros ?%elem_of_nil|]. case_decide.
  - destruct (selectTinyFast pi need); [by intros ?%elem_of_nil|].
    by apply scanFrom_trace_ge.
  - apply scanFrom_trace_ge. rewrite quot_THRESHOLD by lia.
    apply Z.div_pos; unfold THRESHOLD; lia.
Qed.

Lemma wellPlaced_AddPageInfo (pi pi' : PageCtlImpl) (pageId available : Z) :
  wellPlaced pi → AddPageInfo pi pageId available = Ok pi' →
  wellPlaced pi' ∧ ∀ e, e ∈ bucket pi 0 → e ∈ bucket pi' 0.
Proof.
  intros [Hb Ht]. unfold AddPageInfo.
  case_decide as H1; [by intros [= <-]|].
  case_decide as H2.
  - intros [= <-]. split; [|done]. split; [done|]. cbn [tiny].
    intros e [->|He]%elem_of_Add; [cbn [Available]; lia | by apply Ht].
  - destruct (free_at pi _) as [l|] eqn:Hl; [|done].
    apply free_at_Ok in Hl as [Hi ->]. step_bind. intros [= <-].
    split; [split|].
    + intros j e. rewrite bucket_set_free. case_decide as Hj; [|by apply Hb].
      unfold DataStructure.AddLast.
      intros [He|He%list_elem_of_singleton]%elem_of_app.
      * rewrite <- Hj. by apply Hb.
      * subst e. cbn [Available]. split; [lia|done].
    + done.
    + intros e He. rewrite bucket_set_free. case_decide as Hj; [|done].
      unfold DataStructure.AddLast. apply elem_of_app. left. by rewrite Hj.
Qed.

Lemma wellPlaced_Select (pi pi' : PageCtlImpl) (need : Z) tr o :
  wellPlaced pi → Select pi need = (tr, Ok (o, pi')) →
  wellPlaced pi'
  ∧ bucket pi' 0 = bucket pi 0
  ∧ ∀ e, o = Some e → ¬ (TinyTHRESHOLD ≤ Available e < THRESHOLD).
Proof.
  intros [Hb Ht] Hs. destruct o as [e|].
  - apply Select_found in Hs
      as (_ & _ & [(_ & _ & -> & He)|(j & l' & Hj & _ & Hf & ->)]).
    + split; [done|]. split; [done|]. intros ? [= <-]. apply Ht in He. lia.
    + apply FindGtAndRemove_Some in Hf as (_ & l1 & l2 & Hl & -> & _).
      split; [split|split].
      * intros k x. rewrite bucket_set_free. case_decide as Hk; [|by apply Hb].
        intros Hx. subst k. apply Hb. rewrite Hl.
        apply elem_of_app in Hx as [?|?]; apply elem_of_app; [by left|].
        right. apply elem_of_cons. by right.
      * done.
      * rewrite bucket_set_free. by rewrite decide_False by lia.
      * intros ? [= <-].
        assert (He : e ∈ bucket pi j).
        { rewrite Hl. apply elem_of_app. right. apply elem_of_cons. by left. }
        apply Hb in He as [Hlo Hq]. unfold TinyTHRESHOLD, THRESHOLD in *.
        change (128 `quot` 4) with 32 in *.
        rewrite Z.quot_div_nonneg in Hq by lia.
        pose proof (Z.div_small (Available e) 128). lia.
  - exfalso. eapply (Select_not_none pi need pi'). by rewrite Hs.
Qed.

(** C10.  In an index whose entries are where [AddPageInfo] files them, a
    page registered with [TinyTHRESHOLD ≤ available < THRESHOLD] goes to
    bucket 0; after any further calls of [Select] and [AddPageInfo] it is
    still in bucket 0, no [Select] has read bucket 0, and no [Select] has
    returned it (nor any entry with that much free space). *)
Theorem bucket0_never_selected (pi : PageCtlImpl) (pageId available : Z) :
  wellPlaced pi → TinyTHRESHOLD ≤ available < THRESHOLD →
  ∃ pi1, AddPageInfo pi pageId available = Ok pi1
    ∧ mkInfo pageId available ∈ bucket pi1 0
    ∧ ∀ ops outs pi2, run ops pi1 = Ok (outs, pi2) →
        mkInfo pageId available ∈ bucket pi2 0
        ∧ ∀ tr o, (tr, o) ∈ outs →
            (0 ∉ tr)
            ∧ o ≠ Some (mkInfo pageId available)
            ∧ ∀ e, o = Some e → ¬ (TinyTHRESHOLD ≤ Available e < THRESHOLD).
Proof.
  intros Hwp Ha.
  assert (Hadd : AddPageInfo pi pageId available
                 = Ok (set_free pi 0 (bucket pi 0 ++ [mkInfo pageId available]))).
  { unfold AddPageInfo, TinyTHRESHOLD, THRESHOLD, OMITTED in *.
    change (128 `quot` 4) with 32 in *.
    rewrite decide_False, decide_False by lia.
    rewrite Z.quot_small by lia. unfold free_at.
    rewrite decide_True by (rewrite INTERVALS_eq; lia). done. }
  eexists. split; [exact Hadd|].
  pose proof (wellPlaced_AddPageInfo _ _ _ _ Hwp Hadd) as [Hwp1 _].
  assert (Hin1 : mkInfo pageId available
                 ∈ bucket (set_free pi 0 (bucket pi 0 ++ [mkInfo pageId available])) 0).
  { rewrite bucket_set_free, decide_True by done.
    apply elem_of_app. right. by apply list_elem_of_singleton. }
  split; [done|].
  set (pi1 := set_free pi 0 (bucket pi 0 ++ [mkInfo pageId available])) in *.
  clearbody pi1. clear Hadd Hwp pi. intros ops.
  revert pi1 Hwp1 Hin1. induction ops as [|[need|pid av] ops IH];
    intros pi1 Hwp1 Hin1 outs pi2; cbn [run].
  - intros [= <- <-]. split; [done|]. intros tr o Hx. by apply elem_of_nil in Hx.
  - destruct (Select pi1 need) as [tr r] eqn:Hs.
    destruct r as [[o pi1']|]; [|done]. step_bind.
    destruct (run ops pi1') as [[outs' pi2']|] eqn:Hr; [|done]. step_bind.
    intros [= <- <-].
    destruct (wellPlaced_Select _ _ _ _ _ Hwp1 Hs) as (Hwp' & Hb0 & Ho).
    destruct (IH pi1' Hwp' ltac:(by rewrite Hb0) _ _ Hr) as [Hin2 Houts].
    split; [done|]. intros tr' o' [[= -> ->]|Hx]%elem_of_cons; [|by apply Houts].
    split; [|split; [|done]].
    + intros H0. assert (Htr : 0 ∈ (Select pi1 need).1) by (by rewrite Hs).
      apply Select_trace_ge in Htr. lia.
    + intros ->. by apply (Ho _ eq_refl).
  - destruct (AddPageInfo pi1 pid av) as [pi1'|] eqn:Hadd; [|done]. step_bind.
    destruct (wellPlaced_AddPageInfo _ _ _ _ Hwp1 Hadd) as [Hwp' Hmono].
    intros Hr. exact (IH pi1' Hwp' (Hmono _ Hin1) _ _ Hr).
Qed.

Lemma bucket_NewPageCtl (j : Z) : bucket NewPageCtl j = [].
Proof.
  unfold bucket, NewPageCtl. cbn [free].
  destruct (list_to_map _ !! j) as [l|] eqn:E; [|done].
  apply elem_of_list_to_map_2 in E.
  apply list_elem_of_fmap in E as (i & [= _ ->] & _). done.
Qed.

Lemma wellPlaced_NewPageCtl : wellPlaced NewPageCtl.
Proof.
  split.
  - intros j e. rewrite bucket_NewPageCtl. by intros ?%elem_of_nil.
  - intros e. by intros ?%elem_of_nil.
Qed.

(** Every index built from [NewPageCtl] by [Select] and [AddPageInfo] has
    its entries where [AddPageInfo] files them. *)
Lemma wellPlaced_run (ops : list op) (pi pi' : PageCtlImpl) outs :
  wellPlaced pi → run ops pi = Ok (outs, pi') → wellPlaced pi'.
Proof.
  revert pi outs. induction ops as [|[need|pid av] ops IH]; intros pi outs Hwp;
    cbn [run].
  - by intros [= _ <-].
  - destruct (Select pi need) as [tr r] eqn:Hs.
    destruct r as [[o pi1]|]; [|done]. step_bind.
    destruct (run ops pi1) as [[outs' pi2]|] eqn:Hr; [|done]. step_bind.
    intros [= _ <-].
    destruct (wellPlaced_Select _ _ _ _ _ Hwp Hs) as (Hwp' & _).
    by apply (IH pi1 outs').
  - destruct (AddPageInfo pi pid av) as [pi1|] eqn:Hadd; [|done]. step_bind.
    destruct (wellPlaced_AddPageInfo _ _ _ _ Hwp Hadd) as [Hwp' _].
    by apply IH.
Qed.

(** Page 5, with 100 free bytes, registered in the index that already
    holds pages 7 and 8. *)
Lemma bucket0_never_selected_witness :
  ∃ pi1, AddPageInfo Examples.twoCtl 5 100 = Ok pi1
    ∧ mkInfo 5 100 ∈ bucket pi1 0
    ∧ ∀ ops outs pi2, run ops pi1 = Ok (outs, pi2) →
        mkInfo 5 100 ∈ bucket pi2 0
        ∧ ∀ tr o, (tr, o) ∈ outs →
            (0 ∉ tr)
            ∧ o ≠ Some (mkInfo 5 100)
            ∧ ∀ e, o = Some e → ¬ (TinyTHRESHOLD ≤ Available e < THRESHOLD).
Proof.
  apply bucket0_never_selected.
  - apply (wellPlaced_run [OpAddPageInfo 7 200; OpAddPageInfo 8 300] NewPageCtl _ []).
    + apply wellPlaced_NewPageCtl.
    + vm_compute. reflexivity.
  - split; [vm_compute; discriminate | reflexivity].
Defined.

(** ** Rebuilding the index at start-up *)

Lemma land_bit1_ne_1 (t : Z) : Z.land t (Z.shiftl 1 1) ≠ 1.
Proof.
  intros H. apply (f_equal (λ z, Z.testbit z 0)) in H.
  rewrite Z.land_spec in H. cbn in H. by rewrite andb_false_r in H.
Qed.

(** [IsDataPage] compares [pageType & 2] with 1: it never answers true. *)
Lemma IsDataPage_false (p : PageImpl) (b : bool) :
  IsDataPage p = Ok b → b = false.
Proof.
  unfold IsDataPage. destruct (GetPageType p) as [t|]; [|done]. step_bind.
  intros [= <-]. apply bool_decide_eq_false, land_bit1_ne_1.
Qed.



(** C1 at its failing input.  In a store whose pages 2, 3 and 4 have the
    types [DataPage], [RecordPage] and [IndexPage] (bit 1 set in each),
    [IsDataPage] answers false for all three, and [Init] pins and releases
    each of them without one call of [AddPageInfo]: the index stays empty
    although page 2 has 8184 free bytes. *)
Theorem Init_skips_data_pages :
  Z.testbit DataPage 1 = true
  ∧ Z.testbit RecordPage 1 = true
  ∧ Z.testbit IndexPage 1 = true
  ∧ IsDataPage (PageCache.freshPage 2 DataPage) = Ok false
  ∧ IsDataPage (PageCache.freshPage 3 RecordPage) = Ok false
  ∧ IsDataPage (PageCache.freshPage 4 IndexPage) = Ok false
  ∧ GetFree (PageCache.freshPage 2 DataPage) = Ok 8184
  ∧ Init NewPageCtl Examples.kinds
      = Ok ([CallGetPage 2; CallReleasePage 2;
             CallGetPage 3; CallReleasePage 3;
             CallGetPage 4; CallReleasePage 4], NewPageCtl).
Proof. repeat split; vm_compute; reflexivity. Qed.

(** ** Inserting a record *)

Lemma len_WrapDataItemRaw (payload : list byte) :
  len (DataItem.WrapDataItemRaw payload) = 9 + len payload.
Proof.
  unfold DataItem.WrapDataItemRaw, be_encode, len. cbn [length].
  rewrite length_app, length_reverse, length_le_encode. lia.
Qed.

(** A request of [63 * THRESHOLD] bytes or more makes [Select] read
    [pi.free[INTERVALS]] at once, whatever the index holds. *)
Lemma Select_large (pi : PageCtlImpl) (need : Z) :
  63 * THRESHOLD ≤ need ≤ PageSize →
  Select pi need = ([INTERVALS], Panic (IndexOutOfRange INTERVALS INTERVALS)).
Proof.
  intros Hn. unfold Select, TinyTHRESHOLD, THRESHOLD, PageSize in *.
  change (128 `quot` 4) with 32.
  rewrite decide_False, decide_False, decide_False by lia.
  unfold scanFrom. rewrite Z.quot_div_nonneg by lia.
  assert (Hq : need `div` 128 = 63 ∨ need `div` 128 = 64).
  { pose proof (Z.div_mod need 128 ltac:(lia)).
    pose proof (Z.mod_pos_bound need 128 ltac:(lia)). lia. }
  destruct Hq as [-> | ->]; reflexivity.
Qed.

Lemma scan_panic (fuel : nat) (pi : PageCtlImpl) (t : PageInfo) (i : Z) (e : panic) :
  (scan fuel pi t i).2 = Panic e →
  e = OutOfFuel ∨ ∃ a b, e = IndexOutOfRange a b.
Proof.
  revert i. induction fuel as [|k IH]; intros i; simpl.
  - intros [= <-]. by left.
  - case_decide; [|done]. unfold free_at. case_decide.
    + destruct (DataStructure.FindGtAndRemove f (bucket pi i) t) as [[x|] l'];
        [done|].
      specialize (IH (i + 1)). by destruct (scan k pi t (i + 1)).
    + intros [= <-]. right. eauto.
Qed.

(** [Insert] never gets to allocate a page: when no indexed page fits the
    framed record, [Select] panics before [NewPage] is reached. *)
Lemma Insert_nothing_fits (dm : DmImpl) (xid : Z) (payload : list byte) :
  9 + len payload ≤ MaxFreeSize →
  selectTinyFast (pageCtl dm) (9 + len payload) = None →
  (∀ j x, 1 ≤ j < INTERVALS → x ∈ bucket (pageCtl dm) j →
          Available x < 9 + len payload) →
  Insert dm xid payload = Panic (IndexOutOfRange INTERVALS INTERVALS).
Proof.
  intros Hle Htiny Hnone. unfold Insert. rewrite len_WrapDataItemRaw.
  rewrite decide_False by lia.
  rewrite Select_reads_past_array; [done| |done|done].
  unfold MaxFreeSize, PageSize, SzPgUsed, SzPageType, len in *. lia.
Qed.

Lemma Insert_max_payload (dm : DmImpl) (xid : Z) (payload : list byte) :
  len payload = MaxFreeSize - 9 →
  Insert dm xid payload = Panic (IndexOutOfRange INTERVALS INTERVALS).
Proof.
  intros Hlen. unfold Insert. rewrite len_WrapDataItemRaw, Hlen.
  rewrite decide_False by lia. by rewrite Select_large.
Qed.

Lemma Insert_too_large (dm : DmImpl) (xid : Z) (payload : list byte) :
  9 + len payload > MaxFreeSize → Insert dm xid payload = Panic tooLarge.
Proof.
  intros Hlen. unfold Insert. rewrite len_WrapDataItemRaw.
  by rewrite decide_True.
Qed.

(** C7 at its failing input.  On a store that holds the meta page only,
    a payload of [MaxFreeSize - 9] bytes is not refused as too large, and a
    fresh data page takes its frame without overflow, but [Insert]
    panics in [Select] on [pi.free[INTERVALS]] and never allocates the
    page.  One byte more is refused as too large. *)
Theorem Insert_max_payload_panics :
  len Examples.maxPayload = MaxFreeSize - 9
  ∧ Append Examples.dataPage (DataItem.WrapDataItemRaw Examples.maxPayload)
      = Ok (Examples.appended Examples.dataPage
              (DataItem.WrapDataItemRaw Examples.maxPayload), None)
  ∧ Insert Examples.dmFresh 1 Examples.maxPayload
      = Panic (IndexOutOfRange INTERVALS INTERVALS)
  ∧ Insert Examples.dmFresh 1 Examples.overPayload = Panic tooLarge.
Proof.
  assert (Hlen : len Examples.maxPayload = MaxFreeSize - 9).
  { unfold Examples.maxPayload, len. rewrite length_replicate. done. }
  split; [done|]. split; [|split].
  - vm_compute. reflexivity.
  - by apply Insert_max_payload.
  - apply Insert_too_large. unfold Examples.overPayload, len in *.
    cbn [length]. lia.
Qed.

(** ** Deleting and updating a record *)

Lemma Delete_absent (dm : DmImpl) (xid uid : Z) :
  Read dm uid = Ok None → Delete dm xid uid = Panic NilDereference.
Proof. intros H. unfold Delete. by rewrite H. Qed.

(** C6 at its failing input.  The record at [U] is live in
    [Examples.dmOne]; [Delete] tombstones it, after which [Read] yields
    none.  A second [Delete] of [U] does not return: it calls [Release] on
    the nil item. *)
Theorem Delete_absent_panics :
  readData Examples.dmOne Examples.U = Ok (Some [x41])
  ∧ Delete Examples.dmOne 1 Examples.U = Ok Examples.dmDeleted
  ∧ Read Examples.dmDeleted Examples.U = Ok None
  ∧ Delete Examples.dmDeleted 1 Examples.U = Panic NilDereference.
Proof.
  assert (H : Read Examples.dmDeleted Examples.U = Ok None)
    by (vm_compute; reflexivity).
  split; [vm_compute; reflexivity|].
  split; [vm_compute; reflexivity|].
  split; [exact H|]. apply Delete_absent. exact H.
Qed.

(** C5 at its failing input.  The record at [U] holds the one-byte payload
    "A".  An update with one byte is done in place and reads back; an update
    with two bytes tombstones the record and then panics in the [Select] of
    [Insert], on [pi.free[INTERVALS]]: no uid is returned. *)
Theorem Update_longer_panics :
  readData Examples.dmOne Examples.U = Ok (Some [x41])
  ∧ Update Examples.dmOne 1 Examples.U [x42] = Ok (Examples.U, Examples.dmUpdated)
  ∧ readData Examples.dmUpdated Examples.U = Ok (Some [x42])
  ∧ Update Examples.dmOne 1 Examples.U [x42; x42]
      = Panic (IndexOutOfRange INTERVALS INTERVALS).
Proof.
  repeat split; vm_compute; reflexivity.
Qed.

(** ** Records read, deleted and updated in place *)

Lemma be_decode_encode (n : nat) (z : Z) :
  be_decode (be_encode n z) = z `mod` 256 ^ Z.of_nat n.
Proof. unfold be_decode, be_encode. by rewrite reverse_involutive, le_decode_encode. Qed.

Lemma slice_sub (buf bs : list byte) (a b a' b' : Z) :
  slice buf a b = Ok bs → a ≤ a' → a' ≤ b' → b' ≤ b →
  slice buf a' b' = Ok (take (Z.to_nat (b' - a')) (drop (Z.to_nat (a' - a)) bs)).
Proof.
  intros [(Ha & Hab & Hb) ->]%slice_inv Ha' Hab' Hb'.
  rewrite slice_Ok by (unfold in_bounds; lia). f_equal.
  apply list_eq. intros i. rewrite !lookup_take, !lookup_drop.
  case_decide; [|done]. rewrite lookup_take_lt by lia. rewrite lookup_drop.
  f_equal. lia.
Qed.

Lemma uidTrans_offset_range (uid : Z) : 0 ≤ (uidTrans uid).2 < 2 ^ 32.
Proof.
  unfold uidTrans. cbn [snd]. change mask32 with (Z.ones 32).
  rewrite Z.land_ones by lia. apply Z.mod_pos_bound. lia.
Qed.

Lemma Read_eq (dm : DmImpl) (uid : Z) :
  Read dm uid =
    match PageCache.GetPage (pageCache dm) (uidTrans uid).1 with
    | inr _ => Panic (PanicMsg "Error occurs when getting pages")
    | inl p =>
        item ← getDataItem p (uidTrans uid).2;
        valid ← DataItem.IsValid item p;
        _ ← Release dm item;
        mret (if valid : bool then Some item else None)
    end.
Proof. unfold Read. by destruct (uidTrans uid). Qed.

(** What [Read] has checked when it returns an item. *)
Lemma Read_Some_inv (dm : DmImpl) (uid : Z) (item : DataItem.DataItem) :
  Read dm uid = Ok (Some item) →
  ∃ p raw,
    PageCache.GetPage (pageCache dm) (uidTrans uid).1 = inl p
    ∧ item = DataItem.mkItem (GetId p) (uidTrans uid).2 (len raw)
               (getUid (GetId p) (uidTrans uid).2)
    ∧ DataItem.GetRaw item p = Ok raw
    ∧ raw !! 0%nat = Some x01.
Proof.
  unfold Read. destruct (uidTrans uid) as [pid off]. cbn [fst snd].
  destruct (PageCache.GetPage (pageCache dm) pid) as [p|]; [|done].
  unfold getDataItem.
  destruct (slice (GetData p) (off + DataItem.SzDIValid) _) as [szb|]; [|done].
  step_bind.
  destruct (slice (GetData p) off _) as [raw|] eqn:Hraw; [|done]. step_bind.
  pose proof (len_slice _ _ _ _ Hraw) as Hlen.
  assert (Hget : DataItem.GetRaw
                   (DataItem.mkItem (GetId p) off (len raw) (getUid (GetId p) off)) p
                 = Ok raw).
  { unfold DataItem.GetRaw. cbn [DataItem.offset DataItem.rawLen].
    rewrite <- Hraw. f_equal. lia. }
  unfold DataItem.IsValid. rewrite Hget. step_bind.
  destruct (raw !! 0%nat) as [b|] eqn:Hb; [|done]. step_bind.
  unfold Release. cbn [PageCache.ReleasePage]. step_bind.
  case_bool_decide as Hv; [|done]. intros [= <-].
  exists p, raw. by subst b.
Qed.

(** Deleting a record that is present clears its validity byte and nothing
    else: the rest of the page, the other pages and the free-space index are
    as before, and the log has one more entry. *)
Lemma Delete_present (dm : DmImpl) (xid uid : Z) (item : DataItem.DataItem) :
  PageCache.consistent (pageCache dm) → Read dm uid = Ok (Some item) →
  ∃ p d' raw,
    PageCache.pages (pageCache dm) !! DataItem.page item = Some p
    ∧ Delete dm xid uid
        = Ok (mkDm (PageCache.put_page (pageCache dm) (SetData p d'))
                   (pageCtl dm)
                   (redo dm ++ [Redo.UpdateLog uid xid raw (DataItem.SetRawInvalid raw)]))
    ∧ length d' = length (data p)
    ∧ (∀ i : nat,
         d' !! i = if decide (Z.of_nat i = DataItem.offset item)
                   then Some x00 else data p !! i)
    ∧ DataItem.GetRaw item p = Ok raw.
Proof.
  intros Hcons Hread. unfold Delete. rewrite Hread. step_bind.
  apply Read_Some_inv in Hread as (p & raw & Hp & -> & Hraw & Hv).
  set (off := (uidTrans uid).2) in *.
  unfold PageCache.GetPage in Hp.
  destruct (PageCache.pages (pageCache dm) !! (uidTrans uid).1) as [p0|] eqn:Hlk;
    [|done].
  injection Hp as ->. pose proof (Hcons _ _ Hlk) as Hid.
  rewrite Hid in Hraw. pose proof Hraw as Hraw0.
  unfold pageOf, PageCache.GetPage. cbn [DataItem.page]. rewrite Hid, Hlk.
  step_bind. rewrite Hraw. step_bind.
  assert (Hlen : 0 < len raw).
  { unfold len. destruct raw; [done|]. cbn [length]. lia. }
  unfold DataItem.SetInvalid. cbn [DataItem.rawLen DataItem.offset].
  rewrite decide_False by lia.
  apply slice_inv in Hraw as [Hb _]. cbn [DataItem.rawLen DataItem.offset] in Hb.
  destruct (copy_slice_Ok (data p) off (off + len raw) [x00] Hb) as [d' Hd'].
  unfold Page.GetData. rewrite Hd'. step_bind.
  unfold Release. cbn [PageCache.ReleasePage]. step_bind.
  exists p, d', raw. split; [done|]. split; [done|].
  apply copy_slice_inv in Hd' as (_ & Hlen' & Hlk').
  split; [done|]. split; [|exact Hraw0]. intros i. rewrite Hlk'.
  replace (Z.min (off + len raw - off) (len [x00])) with 1
    by (unfold len in *; cbn [length]; lia).
  destruct (decide (Z.of_nat i = off)) as [Hi|Hi].
  - rewrite decide_True by lia.
    replace (i - Z.to_nat off)%nat with 0%nat by lia. done.
  - rewrite decide_False by lia. done.
Qed.

Lemma WrapDataItemRaw_parts (payload : list byte) :
  DataItem.WrapDataItemRaw payload !! 0%nat = Some x01
  ∧ take 8 (drop 1 (DataItem.WrapDataItemRaw payload)) = be_encode 8 (len payload)
  ∧ drop 9 (DataItem.WrapDataItemRaw payload) = payload.
Proof.
  unfold DataItem.WrapDataItemRaw.
  assert (Hl : length (be_encode 8 (len payload)) = 8%nat).
  { unfold be_encode. by rewrite length_reverse, length_le_encode. }
  split; [done|]. split.
  - change (take 8 (be_encode 8 (len payload) ++ payload)
            = be_encode 8 (len payload)).
    by rewrite take_app_length'.
  - change (drop 8 (be_encode 8 (len payload) ++ payload) = payload).
    by rewrite drop_app_length'.
Qed.

Lemma int64_small (z : Z) : 0 ≤ z < 2 ^ 63 → Int.int64 z = z.
Proof. intros Hz. unfold Int.int64. rewrite Z.mod_small by lia. lia. Qed.

(** Reading a frame that [WrapDataItemRaw] produced, where it was written. *)
Lemma getDataItem_wrapped (p : PageImpl) (off : Z) (payload : list byte) :
  0 ≤ off < 2 ^ 32 → len payload ≤ MaxFreeSize →
  slice (data p) off (off + len (DataItem.WrapDataItemRaw payload))
    = Ok (DataItem.WrapDataItemRaw payload) →
  getDataItem p off
    = Ok (DataItem.mkItem (GetId p) off (len (DataItem.WrapDataItemRaw payload))
            (getUid (GetId p) off)).
Proof.
  intros Hoff Hsmall Hs. pose proof (WrapDataItemRaw_parts payload) as (_ & Hsz & _).
  assert (Hp0 : 0 ≤ len payload) by (unfold len; lia).
  pose proof (len_WrapDataItemRaw payload) as Hlen.
  unfold getDataItem, GetData, DataItem.SzDIValid, DataItem.SzDIDataSize.
  rewrite (slice_sub _ _ _ _ (off + 1) (off + 1 + 8) Hs) by lia.
  replace (Z.to_nat (off + 1 + 8 - (off + 1))) with 8%nat by lia.
  replace (Z.to_nat (off + 1 - off)) with 1%nat by lia.
  rewrite Hsz. step_bind. rewrite be_decode_encode.
  unfold MaxFreeSize, PageSize, SzPgUsed, SzPageType in Hsmall.
  rewrite Z.mod_small by lia. rewrite (int64_small (len payload)) by lia.
  rewrite int64_small by lia.
  replace (off + 1 + 8 + len payload)
    with (off + len (DataItem.WrapDataItemRaw payload)) by lia.
  rewrite Hs. done.
Qed.

(** An update whose frame is no longer than the old one is done in place:
    the same uid comes back, it reads back the new payload, and the
    free-space index is untouched. *)
Lemma Update_in_place (dm : DmImpl) (xid uid : Z) (item : DataItem.DataItem)
    (payload : list byte) :
  PageCache.consistent (pageCache dm) → Read dm uid = Ok (Some item) →
  len (DataItem.WrapDataItemRaw payload) ≤ DataItem.rawLen item →
  len payload ≤ MaxFreeSize →
  ∃ dm', Update dm xid uid payload = Ok (uid, dm')
    ∧ pageCtl dm' = pageCtl dm
    ∧ readData dm' uid = Ok (Some payload).
Proof.
  intros Hcons Hread Hfit Hsmall. unfold Update. rewrite Hread. step_bind.
  apply Read_Some_inv in Hread as (p & raw & Hp & -> & Hraw & Hv).
  pose proof (uidTrans_offset_range uid) as Hoff.
  set (off := (uidTrans uid).2) in *. set (pid := (uidTrans uid).1) in *.
  set (newRaw := DataItem.WrapDataItemRaw payload) in *.
  unfold PageCache.GetPage in Hp.
  destruct (PageCache.pages (pageCache dm) !! pid) as [p0|] eqn:Hlk; [|done].
  injection Hp as ->. pose proof (Hcons _ _ Hlk) as Hid.
  rewrite Hid in Hraw. cbn [DataItem.rawLen] in Hfit.
  unfold pageOf at 1. unfold PageCache.GetPage. cbn [DataItem.page].
  rewrite Hid, Hlk. step_bind. rewrite Hraw. step_bind.
  rewrite decide_True by lia.
  apply slice_inv in Hraw as [Hb _]. cbn [DataItem.rawLen DataItem.offset] in Hb.
  destruct (copy_slice_Ok (data p) off (off + len raw) newRaw Hb) as [d1 Hd1].
  unfold DataItem.Update, Page.GetData. cbn [DataItem.rawLen DataItem.offset].
  rewrite Hd1. step_bind. unfold Release. cbn [PageCache.ReleasePage]. step_bind.
  eexists. split; [reflexivity|]. split; [done|].
  (* reading back *)
  pose proof (slice_copy_slice_same _ _ _ _ _ Hd1) as Hs. cbv zeta in Hs.
  replace (Z.min (off + len raw - off) (len newRaw)) with (len newRaw) in Hs by lia.
  rewrite take_ge in Hs by (unfold len; lia).
  set (p1 := SetData p d1).
  assert (Hid1 : GetId p1 = pid) by done.
  assert (Hget : PageCache.GetPage (PageCache.put_page (pageCache dm) p1) pid = inl p1).
  { unfold PageCache.GetPage, PageCache.put_page. cbn [PageCache.pages].
    by rewrite Hid1, lookup_insert_eq. }
  assert (Hitem : getDataItem p1 off
                  = Ok (DataItem.mkItem pid off (len newRaw) (getUid pid off))).
  { rewrite <- Hid1. by apply getDataItem_wrapped. }
  pose proof (WrapDataItemRaw_parts payload) as (Hvalid & _ & Hpayload).
  unfold readData. rewrite Read_eq. fold pid off. cbn [pageCache].
  rewrite Hget, Hitem.
  step_bind. unfold DataItem.IsValid, DataItem.GetRaw.
  cbn [DataItem.rawLen DataItem.offset]. change (Page.GetData p1) with d1.
  rewrite Hs. step_bind. fold newRaw in Hvalid. rewrite Hvalid.
  rewrite bool_decide_eq_true_2 by done. step_bind.
  unfold Release. cbn [PageCache.ReleasePage]. step_bind.
  unfold pageOf. cbn [pageCache DataItem.page]. rewrite Hget. step_bind.
  unfold DataItem.GetData, DataItem.GetRaw.
  cbn [DataItem.rawLen DataItem.offset]. change (Page.GetData p1) with d1.
  rewrite Hs. step_bind.
  change (Z.to_nat (DataItem.SzDIValid + DataItem.SzDIDataSize)) with 9%nat.
  unfold newRaw. by rewrite Hpayload.
Qed.

(** An update whose frame is longer than the old one goes through
    [Delete] and [Insert]; when no indexed page fits the new frame it ends
    in the panic of [Select] and returns no uid. *)
Lemma Update_longer_nothing_fits (dm : DmImpl) (xid uid : Z)
    (item : DataItem.DataItem) (payload : list byte) :
  PageCache.consistent (pageCache dm) → Read dm uid = Ok (Some item) →
  DataItem.rawLen item < len (DataItem.WrapDataItemRaw payload) →
  9 + len payload ≤ MaxFreeSize →
  selectTinyFast (pageCtl dm) (9 + len payload) = None →
  (∀ j x, 1 ≤ j < INTERVALS → x ∈ bucket (pageCtl dm) j →
          Available x < 9 + len payload) →
  Update dm xid uid payload = Panic (IndexOutOfRange INTERVALS INTERVALS).
Proof.
  intros Hcons Hread Hlonger Hle Htiny Hnone.
  destruct (Delete_present dm xid uid item Hcons Hread)
    as (p & d' & raw0 & Hlk & Hdel & _).
  unfold Update. rewrite Hread. step_bind.
  apply Read_Some_inv in Hread as (p1 & raw & Hp & -> & Hraw & Hv).
  cbn [DataItem.page DataItem.rawLen] in *.
  unfold pageOf, PageCache.GetPage. cbn [DataItem.page]. rewrite Hlk.
  step_bind.
  assert (p1 = p) as ->.
  { unfold PageCache.GetPage in Hp.
    destruct (PageCache.pages (pageCache dm) !! (uidTrans uid).1) as [p0|] eqn:E;
      [|done].
    injection Hp as ->. rewrite <- (Hcons _ _ E) in E. congruence. }
  rewrite Hraw. step_bind. rewrite decide_False by lia.
  rewrite Hdel. step_bind. by rewrite Insert_nothing_fits.
Qed.

(** * Further properties of the page layer *)

(** ** The [used] header *)

Lemma SetUsed_Ok (p : PageImpl) (used : Z) :
  SzPgUsed ≤ len (data p) →
  ∃ p', SetUsed p used = Ok p'
    ∧ GetUsed p' = Ok (used `mod` 2 ^ 32)
    ∧ dirty p' = dirty p
    ∧ pageId p' = pageId p
    ∧ length (data p') = length (data p)
    ∧ ∀ i : nat, SzPgUsed ≤ Z.of_nat i → data p' !! i = data p !! i.
Proof.
  intros Hlen.
  destruct (copy_slice_Ok (data p) 0 SzPgUsed (le_encode 4 used)) as [d Hd];
    [unfold in_bounds, SzPgUsed in *; lia|].
  assert (Hs : SetUsed p used = Ok (SetData p d)).
  { unfold SetUsed, GetData. by rewrite Hd. }
  exists (SetData p d). split; [done|]. split; [by eapply GetUsed_SetUsed|].
  apply copy_slice_inv in Hd as (_ & Hl & Hlk).
  split; [done|]. split; [done|]. split; [done|].
  intros i Hi. cbn [SetData data]. rewrite Hlk.
  rewrite decide_False; [done|].
  unfold len, SzPgUsed in *. rewrite length_le_encode. lia.
Qed.

(** X1.  On a buffer of at least four bytes [SetUsed] succeeds, [GetUsed]
    then reads the value back as an unsigned 32-bit number (a negative
    [int32] comes back increased by [2^32]), and nothing but the four
    header bytes changes; the dirty flag is not touched. *)
Theorem SetUsed_then_GetUsed (p : PageImpl) (used : Z) :
  SzPgUsed ≤ len (data p) →
  ∃ p', SetUsed p used = Ok p'
    ∧ GetUsed p' = Ok (used `mod` 2 ^ 32)
    ∧ dirty p' = dirty p
    ∧ pageId p' = pageId p
    ∧ length (data p') = length (data p)
    ∧ ∀ i : nat, SzPgUsed ≤ Z.of_nat i → data p' !! i = data p !! i.
Proof. apply SetUsed_Ok. Qed.

Lemma SetUsed_then_GetUsed_witness :
  ∃ p', SetUsed Examples.dataPage (-1) = Ok p'
    ∧ GetUsed p' = Ok ((-1) `mod` 2 ^ 32)
    ∧ dirty p' = dirty Examples.dataPage
    ∧ pageId p' = pageId Examples.dataPage
    ∧ length (data p') = length (data Examples.dataPage)
    ∧ ∀ i : nat, SzPgUsed ≤ Z.of_nat i → data p' !! i = data Examples.dataPage !! i.
Proof. apply SetUsed_then_GetUsed. vm_compute. discriminate. Defined.

Lemma GetPageType_Ok (p : PageImpl) :
  SzPgUsed + SzPageType ≤ len (data p) →
  GetPageType p = Ok (Int.int32 (le_decode (take 4 (drop 4 (data p))))).
Proof.
  intros Hlen. unfold GetPageType, GetData.
  rewrite slice_Ok by (unfold in_bounds, SzPgUsed, SzPageType in *; lia). done.
Qed.

(** X2.  [IsMetaPage] answers whether bit 0 of the page type is set,
    whatever the other bits are. *)
Theorem IsMetaPage_bit0 (p : PageImpl) :
  SzPgUsed + SzPageType ≤ len (data p) →
  ∃ t, GetPageType p = Ok t ∧ IsMetaPage p = Ok (Z.testbit t 0).
Proof.
  intros Hlen. eexists. split; [by apply GetPageType_Ok|].
  unfold IsMetaPage. rewrite GetPageType_Ok by done. step_bind. f_equal.
  set (t := Int.int32 _).
  change (Z.shiftl 1 0) with (Z.ones 1). rewrite Z.land_ones by lia.
  pose proof (Z.bit0_mod t) as Hb. change (2 ^ 1) with 2.
  destruct (Z.testbit t 0); cbn [Z.b2z] in Hb.
  - apply bool_decide_eq_true. lia.
  - apply bool_decide_eq_false. lia.
Qed.

Lemma IsMetaPage_bit0_witness :
  ∃ t, GetPageType Examples.metaPage = Ok t
       ∧ IsMetaPage Examples.metaPage = Ok (Z.testbit t 0).
Proof. apply IsMetaPage_bit0. vm_compute. discriminate. Defined.

(** ** Pages as records *)

Lemma PageImpl_eq (p q : PageImpl) :
  data p = data q → dirty p = dirty q → pageId p = pageId q → p = q.
Proof. destruct p, q. cbn. by intros -> -> ->. Qed.

(** ** The two version markers, one operation at a time *)

Lemma take_drop_slice (buf bs : list byte) (lo hi : Z) :
  slice buf lo hi = Ok bs →
  take (Z.to_nat (hi - lo)) (drop (Z.to_nat lo) buf) = bs.
Proof. by intros [_ ->]%slice_inv. Qed.

Lemma InitVersion_aux (p : PageImpl) (rnd : list byte) :
  len (data p) = PageSize → GetPageType p = Ok DbMetaPage → VcOffset ≤ len rnd →
  ∃ p1, InitVersion p rnd = Ok p1
    ∧ take 8 (drop 100 (data p1)) = take 8 rnd
    ∧ (∀ i : nat, ¬ (VcOn ≤ Z.of_nat i < VcOn + VcOffset) →
         data p1 !! i = data p !! i)
    ∧ dirty p1 = dirty p
    ∧ CheckInitVersion p1
        = Ok (bool_decide (take 8 rnd = take 8 (drop 108 (data p)))).
Proof.
  intros Hlen Ht Hrnd.
  assert (Hb1 : in_bounds (data p) VcOn (VcOn + VcOffset))
    by (unfold in_bounds; rewrite Hlen; done).
  destruct (copy_slice_Ok _ _ _ rnd Hb1) as [d1 Hd1].
  pose proof (copy_slice_inv _ _ _ _ _ Hd1) as (_ & Hlen1 & Hlk1).
  assert (Hmin : Z.min (VcOn + VcOffset - VcOn) (len rnd) = VcOffset)
    by (unfold VcOn, VcOffset in *; lia).
  assert (Hlive : slice d1 VcOn (VcOn + VcOffset) = Ok (take 8 rnd)).
  { pose proof (slice_copy_slice_same _ _ _ _ _ Hd1) as Hs. cbv zeta in Hs.
    by rewrite Hmin in Hs. }
  assert (Hshadow : slice d1 VcOff (VcOff + VcOffset)
                    = slice (data p) VcOff (VcOff + VcOffset)).
  { apply (slice_copy_slice_other _ _ _ _ _ _ _ Hd1). right. rewrite Hmin. done. }
  exists (SetData p d1). split.
  { unfold InitVersion, GetData. rewrite Ht. step_bind.
    rewrite decide_False by (intros ?; done).
    rewrite slice_Ok by done. step_bind.
    rewrite decide_False by lia. by rewrite Hd1. }
  assert (Hl8 : take 8 (drop 100 d1) = take 8 rnd)
    by exact (take_drop_slice _ _ _ _ Hlive).
  assert (Hs8 : take 8 (drop 108 d1) = take 8 (drop 108 (data p))).
  { rewrite slice_Ok in Hshadow
      by (unfold in_bounds, len in *; rewrite Hlen1, Hlen; done).
    rewrite slice_Ok in Hshadow by (unfold in_bounds; rewrite Hlen; done).
    by injection Hshadow. }
  cbn [SetData data dirty]. split; [done|].
  split; [|split; [done|]].
  { intros i Hi. rewrite Hlk1, Hmin. by rewrite decide_False. }
  rewrite CheckInitVersion_Ok.
  - cbn [SetData data]. by rewrite Hl8, Hs8.
  - cbn [SetData data]. unfold len in *. rewrite Hlen1, Hlen. done.
  - rewrite (GetPageType_copy_slice p _ _ _ _ Hd1); [done|]. by right.
Qed.

(** X5.  [InitVersion] on a database meta page writes the eight random
    bytes at offset 100 and changes no other byte, nor the dirty flag;
    afterwards [CheckInitVersion] is true only if the random bytes happen
    to equal the eight bytes at offset 108. *)
Theorem InitVersion_spec (p : PageImpl) (rnd : list byte) :
  len (data p) = PageSize → GetPageType p = Ok DbMetaPage → VcOffset ≤ len rnd →
  ∃ p1, InitVersion p rnd = Ok p1
    ∧ take 8 (drop 100 (data p1)) = take 8 rnd
    ∧ (∀ i : nat, ¬ (VcOn ≤ Z.of_nat i < VcOn + VcOffset) →
         data p1 !! i = data p !! i)
    ∧ dirty p1 = dirty p
    ∧ CheckInitVersion p1
        = Ok (bool_decide (take 8 rnd = take 8 (drop 108 (data p)))).
Proof. apply InitVersion_aux. Qed.

Lemma InitVersion_spec_witness :
  ∃ p1, InitVersion Examples.metaPage Examples.rnd = Ok p1
    ∧ take 8 (drop 100 (data p1)) = take 8 Examples.rnd
    ∧ (∀ i : nat, ¬ (VcOn ≤ Z.of_nat i < VcOn + VcOffset) →
         data p1 !! i = data Examples.metaPage !! i)
    ∧ dirty p1 = dirty Examples.metaPage
    ∧ CheckInitVersion p1
        = Ok (bool_decide (take 8 Examples.rnd
                           = take 8 (drop 108 (data Examples.metaPage)))).
Proof.
  apply InitVersion_spec.
  - vm_compute. reflexivity.
  - vm_compute. reflexivity.
  - vm_compute. discriminate.
Defined.

Lemma UpdateVersion_aux (p : PageImpl) :
  len (data p) = PageSize → GetPageType p = Ok DbMetaPage →
  ∃ p1, UpdateVersion p = Ok p1
    ∧ take 8 (drop 108 (data p1)) = take 8 (drop 100 (data p))
    ∧ (∀ i : nat, ¬ (VcOff ≤ Z.of_nat i < VcOff + VcOffset) →
         data p1 !! i = data p !! i)
    ∧ CheckInitVersion p1 = Ok true
    ∧ UpdateVersion p1 = Ok p1.
Proof.
  intros Hlen Ht.
  assert (Hb1 : in_bounds (data p) VcOn (VcOn + VcOffset))
    by (unfold in_bounds; rewrite Hlen; done).
  assert (Hb2 : in_bounds (data p) VcOff (VcOff + VcOffset))
    by (unfold in_bounds; rewrite Hlen; done).
  set (live := take 8 (drop 100 (data p))).
  assert (Hlive : slice (data p) VcOn (VcOn + VcOffset) = Ok live)
    by (by rewrite slice_Ok).
  assert (Hll : len live = VcOffset) by (by apply len_slice in Hlive).
  destruct (copy_slice_Ok _ _ _ live Hb2) as [d1 Hd1].
  pose proof (copy_slice_inv _ _ _ _ _ Hd1) as (_ & Hlen1 & Hlk1).
  assert (Hmin : Z.min (VcOff + VcOffset - VcOff) (len live) = VcOffset)
    by (rewrite Hll; unfold VcOff, VcOn, VcOffset; lia).
  assert (Hshadow1 : slice d1 VcOff (VcOff + VcOffset) = Ok live).
  { pose proof (slice_copy_slice_same _ _ _ _ _ Hd1) as Hs. cbv zeta in Hs.
    rewrite Hmin in Hs. rewrite Hs. f_equal. apply take_ge.
    unfold len, VcOffset in *. lia. }
  assert (Hlive1 : slice d1 VcOn (VcOn + VcOffset) = Ok live).
  { rewrite (slice_copy_slice_other _ _ _ _ _ _ _ Hd1); [done|]. by left. }
  assert (Ht1 : GetPageType (SetData p d1) = Ok DbMetaPage).
  { rewrite (GetPageType_copy_slice p _ _ _ _ Hd1); [done|]. by right. }
  assert (Hup : UpdateVersion p = Ok (SetData p d1)).
  { unfold UpdateVersion, GetData. rewrite Ht. step_bind.
    rewrite decide_False by (intros ?; done). rewrite Hlive. step_bind.
    by rewrite Hd1. }
  assert (Hs8 : take 8 (drop 108 d1) = live)
    by exact (take_drop_slice _ _ _ _ Hshadow1).
  assert (Hl8 : take 8 (drop 100 d1) = live)
    by exact (take_drop_slice _ _ _ _ Hlive1).
  exists (SetData p d1). split; [done|]. cbn [SetData data].
  split; [done|]. split; [|split].
  - intros i Hi. rewrite Hlk1, Hmin. by rewrite decide_False.
  - rewrite CheckInitVersion_Ok;
      [|cbn [SetData data]; unfold len in *; rewrite Hlen1, Hlen; done|done].
    cbn [SetData data]. f_equal. apply bool_decide_eq_true. congruence.
  - unfold UpdateVersion, GetData. rewrite Ht1. step_bind.
    rewrite decide_False by (intros ?; done). cbn [SetData data].
    rewrite Hlive1. step_bind. unfold copy_slice.
    rewrite decide_True by (unfold in_bounds, len in *; rewrite Hlen1, Hlen; done).
    step_bind. f_equal. apply PageImpl_eq; [|done|done]. cbn [SetData data].
    apply list_eq. intros i.
    pose proof (copy_slice_inv d1 VcOff (VcOff + VcOffset) live) as Hinv.
    unfold copy_slice in Hinv.
    rewrite decide_True in Hinv
      by (unfold in_bounds, len in *; rewrite Hlen1, Hlen; done).
    destruct (Hinv _ eq_refl) as (_ & _ & Hlk2). rewrite Hlk2, Hmin.
    case_decide as Hi; [|done].
    rewrite (lookup_slice _ _ _ _ (i - Z.to_nat VcOff)%nat Hshadow1)
      by (unfold VcOff, VcOn, VcOffset in *; lia).
    f_equal. unfold VcOff, VcOn, VcOffset in *. lia.
Qed.

(** X6.  [UpdateVersion] on a database meta page copies the eight bytes at
    offset 100 to offset 108 and changes no other byte; afterwards
    [CheckInitVersion] is true, and a second [UpdateVersion] changes
    nothing. *)
Theorem UpdateVersion_spec (p : PageImpl) :
  len (data p) = PageSize → GetPageType p = Ok DbMetaPage →
  ∃ p1, UpdateVersion p = Ok p1
    ∧ take 8 (drop 108 (data p1)) = take 8 (drop 100 (data p))
    ∧ (∀ i : nat, ¬ (VcOff ≤ Z.of_nat i < VcOff + VcOffset) →
         data p1 !! i = data p !! i)
    ∧ CheckInitVersion p1 = Ok true
    ∧ UpdateVersion p1 = Ok p1.
Proof. apply UpdateVersion_aux. Qed.

Lemma UpdateVersion_spec_witness :
  ∃ p1, UpdateVersion Examples.metaPage = Ok p1
    ∧ take 8 (drop 108 (data p1)) = take 8 (drop 100 (data Examples.metaPage))
    ∧ (∀ i : nat, ¬ (VcOff ≤ Z.of_nat i < VcOff + VcOffset) →
         data p1 !! i = data Examples.metaPage !! i)
    ∧ CheckInitVersion p1 = Ok true
    ∧ UpdateVersion p1 = Ok p1.
Proof.
  apply UpdateVersion_spec.
  - vm_compute. reflexivity.
  - vm_compute. reflexivity.
Defined.

(** * Further properties of uids *)

Lemma int64_shiftl32 (q : Z) :
  - 2 ^ 31 ≤ q < 2 ^ 31 → Int.int64 (Z.shiftl (q `mod` 2 ^ 32) 32) = q * 2 ^ 32.
Proof.
  intros Hq. unfold Int.int64. rewrite Z.shiftl_mul_pow2 by lia.
  destruct (decide (0 ≤ q)).
  - rewrite (Z.mod_small q) by lia. rewrite Z.mod_small by lia. lia.
  - replace (q `mod` 2 ^ 32) with (q + 2 ^ 32).
    + replace ((q + 2 ^ 32) * 2 ^ 32 + 2 ^ 63)
        with (q * 2 ^ 32 + 2 ^ 63 + 1 * 2 ^ 64) by lia.
      rewrite Z.mod_add by lia. rewrite Z.mod_small by lia. lia.
    + symmetry. replace q with (q + 2 ^ 32 + (-1) * 2 ^ 32) at 1 by lia.
      rewrite Z.mod_add by lia. apply Z.mod_small. lia.
Qed.

(** X7.  Every 64-bit uid, negative ones included, splits into a page id
    and an offset below [2^32] from which [getUid] rebuilds it. *)
Theorem getUid_uidTrans (uid : Z) :
  - 2 ^ 63 ≤ uid < 2 ^ 63 →
  0 ≤ (uidTrans uid).1 < 2 ^ 32
  ∧ 0 ≤ (uidTrans uid).2 < 2 ^ 32
  ∧ getUid (uidTrans uid).1 (uidTrans uid).2 = uid.
Proof.
  intros Hu. unfold uidTrans. cbn [fst snd]. change mask32 with (Z.ones 32).
  rewrite !Z.land_ones, Z.shiftr_div_pow2 by lia.
  pose proof (Z.mod_pos_bound (uid `div` 2 ^ 32) (2 ^ 32) ltac:(lia)).
  pose proof (Z.mod_pos_bound uid (2 ^ 32) ltac:(lia)).
  split; [done|]. split; [done|].
  pose proof (Z.div_mod uid (2 ^ 32) ltac:(lia)) as Hdm.
  assert (Hq : - 2 ^ 31 ≤ uid `div` 2 ^ 32 < 2 ^ 31) by lia.
  unfold getUid. rewrite int64_shiftl32 by done.
  rewrite lor_high_low by done. lia.
Qed.

Lemma getUid_uidTrans_witness :
  0 ≤ (uidTrans (-5)).1 < 2 ^ 32
  ∧ 0 ≤ (uidTrans (-5)).2 < 2 ^ 32
  ∧ getUid (uidTrans (-5)).1 (uidTrans (-5)).2 = -5.
Proof. apply getUid_uidTrans. lia. Defined.

(** X8.  [getUid] keeps the low 32 bits of the page id only: page ids that
    differ by [2^32] get the same uid. *)
Theorem getUid_wraps (pageId offset : Z) :
  getUid (pageId + 2 ^ 32) offset = getUid pageId offset.
Proof.
  unfold getUid, Int.int64. rewrite !Z.shiftl_mul_pow2 by lia. do 2 f_equal.
  replace ((pageId + 2 ^ 32) * 2 ^ 32 + 2 ^ 63)
    with (pageId * 2 ^ 32 + 2 ^ 63 + 1 * 2 ^ 64) by lia.
  by rewrite Z.mod_add by lia.
Qed.

(** * Further properties of the free-space index *)

(** A [Select] that misses the tiny container is the scan from
    [scanStart]. *)
Lemma Select_as_scan (pi : PageCtlImpl) (need : Z) :
  0 < need ≤ PageSize → selectTinyFast pi need = None →
  1 ≤ scanStart need ≤ INTERVALS
  ∧ ∃ fuel, INTERVALS + 1 - scanStart need < Z.of_nat fuel
      ∧ Select pi need = scan fuel pi (mkInfo (-1) need) (scanStart need).
Proof.
  intros Hn Htiny.
  pose proof (div_THRESHOLD_bounds need ltac:(lia)) as Hd.
  assert (Hst : 1 ≤ scanStart need ≤ INTERVALS).
  { unfold scanStart, THRESHOLD, PageSize in *. rewrite INTERVALS_eq.
    case_decide; [lia|]. split; [|lia].
    pose proof (Z.div_pos need 128). lia. }
  split; [done|].
  exists (Z.to_nat (INTERVALS + 2 - scanStart need)). split; [lia|].
  unfold Select. rewrite decide_False, decide_False by lia. rewrite Htiny.
  assert (Hgo : ∀ i0, (if decide (i0 ≠ INTERVALS) then i0 + 1 else i0)
                      = scanStart need → scanFrom pi need i0
                = scan (Z.to_nat (INTERVALS + 2 - scanStart need)) pi
                       (mkInfo (-1) need) (scanStart need)).
  { intros i0 Hi0. unfold scanFrom. by rewrite Hi0. }
  destruct (decide (need < TinyTHRESHOLD)) as [Ht|Ht]; apply Hgo;
    unfold scanStart, TinyTHRESHOLD, THRESHOLD, PageSize in *;
    rewrite INTERVALS_eq in *; change (128 `quot` 4) with 32 in *.
  - rewrite decide_True by lia. rewrite decide_False by lia.
    rewrite Z.div_small by lia. done.
  - rewrite Z.quot_div_nonneg by lia. repeat case_decide; lia.
Qed.


(** Buckets a successful scan has passed hold no fitting entry. *)
Lemma scan_skipped (fuel : nat) (pi : PageCtlImpl) (t : PageInfo) (i : Z) tr e pi' :
  scan fuel pi t i = (tr, Ok (Some e, pi')) →
  ∀ k, k ∈ tr → last tr ≠ Some k → ∀ x, x ∈ bucket pi k → f x t < 0.
Proof.
  revert i tr. induction fuel as [|n IH]; intros i tr; simpl; [done|].
  case_decide; [|done].
  destruct (free_at pi i) as [l|err] eqn:Hl; [|done].
  apply free_at_Ok in Hl as [Hi ->].
  destruct (DataStructure.FindGtAndRemove f (bucket pi i) t) as [[x|] l'] eqn:Hf.
  - intros [= <- -> <-] k Hk Hlast. apply list_elem_of_singleton in Hk. by subst.
  - destruct (scan n pi t (i + 1)) as [tr' r'] eqn:E. intros [= <- ->].
    apply FindGtAndRemove_None in Hf as [_ Hall].
    intros k Hk Hlast y Hy.
    destruct (decide (k ∈ tr')) as [Hin|Hnin].
    + apply (IH _ _ E k Hin); [|done]. destruct tr'; [by apply elem_of_nil in Hin|].
      done.
    + apply elem_of_cons in Hk as [->|?]; [by apply Hall|done].
Qed.

(** In a well-placed index every entry of a bucket from [scanStart] on
    fits the request. *)
Lemma wellPlaced_fits (pi : PageCtlImpl) (need k : Z) (x : PageInfo) :
  wellPlaced pi → 0 < need ≤ PageSize → scanStart need ≤ k →
  x ∈ bucket pi k → 0 ≤ f x (mkInfo (-1) need).
Proof.
  intros [Hb _] Hn Hk Hx. apply f_nonneg. cbn [Available].
  apply Hb in Hx as [Hlo Hq].
  unfold scanStart, TinyTHRESHOLD, THRESHOLD, PageSize in *.
  rewrite INTERVALS_eq in *. change (128 `quot` 4) with 32 in *.
  rewrite Z.quot_div_nonneg in Hq by lia.
  pose proof (Z.div_mod (Available x) 128 ltac:(lia)).
  pose proof (Z.mod_pos_bound (Available x) 128 ltac:(lia)).
  pose proof (Z.div_mod need 128 ltac:(lia)).
  pose proof (Z.mod_pos_bound need 128 ltac:(lia)).
  case_decide; lia.
Qed.

Lemma scan_finds (fuel : nat) (pi : PageCtlImpl) (t : PageInfo) (i : Z) :
  0 ≤ i → INTERVALS + 1 - i < Z.of_nat fuel →
  (∀ k x, i ≤ k → x ∈ bucket pi k → 0 ≤ f x t) →
  (∃ j x, i ≤ j < INTERVALS ∧ x ∈ bucket pi j) →
  ∃ tr e pi', scan fuel pi t i = (tr, Ok (Some e, pi')).
Proof.
  revert i. induction fuel as [|n IH]; intros i Hi Hfuel Hfit (j & x & Hj & Hx);
    simpl; [lia|].
  rewrite decide_True by lia. unfold free_at. rewrite decide_True by lia.
  destruct (bucket pi i) as [|y r] eqn:Hb.
  - cbn. destruct (decide (j = i)) as [->|Hne].
    { rewrite Hb in Hx. by apply elem_of_nil in Hx. }
    destruct (IH (i + 1)) as (tr & e & pi' & Hs);
      [lia|lia|intros k z ? ?; apply (Hfit k); [lia|done]
      |exists j, x; split; [lia|done]|].
    rewrite Hs. eauto.
  - cbn. rewrite decide_True; [eauto|].
    apply (Hfit i); [lia|]. rewrite Hb. apply elem_of_cons. by left.
Qed.


Lemma wellPlaced_twoCtl : wellPlaced Examples.twoCtl.
Proof.
  apply (wellPlaced_run Examples.twoOps NewPageCtl _ []).
  - apply wellPlaced_NewPageCtl.
  - vm_compute. reflexivity.
Qed.

Lemma AddPageInfo_placement (pi : PageCtlImpl) (pageId available : Z) :
  OMITTED ≤ available < PageSize →
  ∃ pi', AddPageInfo pi pageId available = Ok pi'
    ∧ (if decide (available < TinyTHRESHOLD)
       then (∀ e, e ∈ tiny pi' ↔ e = mkInfo pageId available ∨ e ∈ tiny pi)
            ∧ ∀ j, bucket pi' j = bucket pi j
       else tiny pi' = tiny pi
            ∧ ∀ j, bucket pi' j
                   = if decide (j = available `div` THRESHOLD)
                     then bucket pi j ++ [mkInfo pageId available]
                     else bucket pi j).
Proof.
  intros Ha. unfold AddPageInfo. rewrite decide_False by lia.
  destruct (decide (available < TinyTHRESHOLD)) as [Ht|Ht].
  - eexists. split; [reflexivity|]. cbn [tiny]. split; [|done].
    intros e. apply elem_of_Add.
  - assert (Hq : available `quot` THRESHOLD = available `div` THRESHOLD).
    { apply quot_THRESHOLD. unfold OMITTED in *. lia. }
    rewrite Hq. unfold free_at.
    pose proof (div_THRESHOLD_bounds available) as Hd.
    rewrite decide_True.
    + step_bind. eexists. split; [reflexivity|]. split; [done|].
      intros j. rewrite bucket_set_free. unfold DataStructure.AddLast.
      destruct (decide (available `div` THRESHOLD = j)) as [->|Hj].
      * by rewrite decide_True.
      * by rewrite decide_False by congruence.
    + unfold OMITTED, THRESHOLD, PageSize in *. rewrite INTERVALS_eq.
      split; [apply Z.div_pos; lia|]. lia.
Qed.

(** X10.  [AddPageInfo] with at least [OMITTED] and less than [PageSize]
    free bytes succeeds and files the entry in exactly one place: in the
    tiny container below [TinyTHRESHOLD], otherwise at the end of bucket
    [available / THRESHOLD]; every other container is left as it was. *)
Theorem AddPageInfo_spec (pi : PageCtlImpl) (pageId available : Z) :
  OMITTED ≤ available < PageSize →
  ∃ pi', AddPageInfo pi pageId available = Ok pi'
    ∧ (if decide (available < TinyTHRESHOLD)
       then (∀ e, e ∈ tiny pi' ↔ e = mkInfo pageId available ∨ e ∈ tiny pi)
            ∧ ∀ j, bucket pi' j = bucket pi j
       else tiny pi' = tiny pi
            ∧ ∀ j, bucket pi' j
                   = if decide (j = available `div` THRESHOLD)
                     then bucket pi j ++ [mkInfo pageId available]
                     else bucket pi j).
Proof. apply AddPageInfo_placement. Qed.

Lemma AddPageInfo_spec_witness :
  ∃ pi', AddPageInfo Examples.twoCtl 9 210 = Ok pi'
    ∧ (if decide (210 < TinyTHRESHOLD)
       then (∀ e, e ∈ tiny pi' ↔ e = mkInfo 9 210 ∨ e ∈ tiny Examples.twoCtl)
            ∧ ∀ j, bucket pi' j = bucket Examples.twoCtl j
       else tiny pi' = tiny Examples.twoCtl
            ∧ ∀ j, bucket pi' j
                   = if decide (j = 210 `div` THRESHOLD)
                     then bucket Examples.twoCtl j ++ [mkInfo 9 210]
                     else bucket Examples.twoCtl j).
Proof. apply AddPageInfo_spec. split; [vm_compute; discriminate | reflexivity]. Defined.

(** X11.  [AddPageInfo] with [PageSize] free bytes or more (a page whose
    [used] header is 0) indexes [pi.free] at [INTERVALS] or beyond and
    panics. *)
Theorem AddPageInfo_full_page (pi : PageCtlImpl) (pageId available : Z) :
  PageSize ≤ available →
  AddPageInfo pi pageId available
    = Panic (IndexOutOfRange (available `quot` THRESHOLD) INTERVALS).
Proof.
  intros Ha. unfold AddPageInfo, OMITTED, TinyTHRESHOLD, THRESHOLD, PageSize in *.
  change (128 `quot` 4) with 32.
  rewrite decide_False, decide_False by lia. unfold free_at.
  rewrite decide_False; [done|]. rewrite INTERVALS_eq.
  rewrite Z.quot_div_nonneg by lia.
  pose proof (Z.div_le_mono 8192 available 128 ltac:(lia) ltac:(lia)) as Hd.
  change (8192 `div` 128) with 64 in Hd. lia.
Qed.

Lemma AddPageInfo_full_page_witness :
  AddPageInfo NewPageCtl 2 8192
    = Panic (IndexOutOfRange (8192 `quot` THRESHOLD) INTERVALS).
Proof. apply AddPageInfo_full_page. vm_compute. discriminate. Defined.

Lemma Select_tiny_miss (pi : PageCtlImpl) (need : Z) tr r :
  Select pi need = (tr, r) → tr ≠ [] → selectTinyFast pi need = None.
Proof.
  unfold Select. case_decide; [by intros [= <- _]|].
  case_decide; [by intros [= <- _]|]. case_decide as Ht.
  - destruct (selectTinyFast pi need); [by intros [= <- _]|done].
  - intros _ _. unfold selectTinyFast. by rewrite decide_False.
Qed.

Lemma Select_oldest_first_aux (pi : PageCtlImpl) (need : Z) tr e pi' :
  wellPlaced pi → Select pi need = (tr, Ok (Some e, pi')) → tr ≠ [] →
  ∃ j l, last tr = Some j
    ∧ scanStart need ≤ j < INTERVALS
    ∧ bucket pi j = e :: l
    ∧ bucket pi' j = l
    ∧ (∀ k, k ∈ tr → k ≠ j → bucket pi k = [])
    ∧ (∀ k, k ≠ j → bucket pi' k = bucket pi k)
    ∧ tiny pi' = tiny pi.
Proof.
  intros Hwp Hs Htr.
  pose proof (Select_found _ _ _ _ _ Hs) as (Hn & _).
  pose proof (Select_tiny_miss _ _ _ _ Hs Htr) as Htiny.
  destruct (Select_as_scan pi need Hn Htiny) as (Hst & fuel & Hfuel & Hsc).
  rewrite Hsc in Hs.
  pose proof (scan_found _ _ _ _ _ _ _ Hs) as (j & l' & Hij & Hj & Hlast & Hf & ->).
  pose proof (scan_trace _ _ _ _ _ _ Hs) as Htrace.
  pose proof (scan_skipped _ _ _ _ _ _ _ Hs) as Hskip.
  apply FindGtAndRemove_Some in Hf as (_ & l1 & l2 & Hl & -> & Hl1).
  assert (l1 = []) as ->.
  { destruct l1 as [|y l1]; [done|]. exfalso.
    assert (Hy : y ∈ bucket pi j) by (rewrite Hl; apply elem_of_cons; by left).
    pose proof (wellPlaced_fits pi need j y Hwp Hn Hij Hy).
    specialize (Hl1 y ltac:(apply elem_of_cons; by left)). lia. }
  exists j, l2. split; [done|]. split; [lia|]. split; [done|].
  split; [by rewrite bucket_set_free, decide_True|]. split; [|split; [|done]].
  - intros k Hk Hne. destruct (bucket pi k) as [|y r] eqn:Hb; [done|]. exfalso.
    assert (Hy : y ∈ bucket pi k) by (rewrite Hb; apply elem_of_cons; by left).
    assert (Hk' : scanStart need ≤ k).
    { rewrite Htrace in Hk. apply elem_of_seqZ in Hk. lia. }
    pose proof (wellPlaced_fits pi need k y Hwp Hn Hk' Hy).
    specialize (Hskip k Hk ltac:(congruence) y Hy). lia.
  - intros k Hne. rewrite bucket_set_free. by rewrite decide_False.
Qed.

(** X12.  In an index whose entries are where [AddPageInfo] files them, a
    [Select] that takes an entry from a bucket takes the oldest entry of
    the first non-empty bucket from [scanStart] on: the buckets it passed
    are empty, the entry was at the head of its bucket, and nothing else
    in the index changes. *)
Theorem Select_oldest_first (pi : PageCtlImpl) (need : Z) tr e pi' :
  wellPlaced pi → Select pi need = (tr, Ok (Some e, pi')) → tr ≠ [] →
  ∃ j l, last tr = Some j
    ∧ scanStart need ≤ j < INTERVALS
    ∧ bucket pi j = e :: l
    ∧ bucket pi' j = l
    ∧ (∀ k, k ∈ tr → k ≠ j → bucket pi k = [])
    ∧ (∀ k, k ≠ j → bucket pi' k = bucket pi k)
    ∧ tiny pi' = tiny pi.
Proof. apply Select_oldest_first_aux. Qed.

Lemma Select_oldest_first_witness :
  ∃ j l, last [1] = Some j
    ∧ scanStart 100 ≤ j < INTERVALS
    ∧ bucket Examples.twoCtl j = mkInfo 7 200 :: l
    ∧ bucket Examples.twoCtlSelected j = l
    ∧ (∀ k, k ∈ [1] → k ≠ j → bucket Examples.twoCtl k = [])
    ∧ (∀ k, k ≠ j → bucket Examples.twoCtlSelected k = bucket Examples.twoCtl k)
    ∧ tiny Examples.twoCtlSelected = tiny Examples.twoCtl.
Proof.
  apply (Select_oldest_first Examples.twoCtl 100).
  - apply wellPlaced_twoCtl.
  - vm_compute. reflexivity.
  - discriminate.
Defined.

Lemma Select_succeeds_iff_aux (pi : PageCtlImpl) (need : Z) :
  wellPlaced pi → 0 < need ≤ PageSize → selectTinyFast pi need = None →
  (∃ j x, scanStart need ≤ j < INTERVALS ∧ x ∈ bucket pi j)
  ↔ (∃ e pi', (Select pi need).2 = Ok (Some e, pi')).
Proof.
  intros Hwp Hn Htiny.
  destruct (Select_as_scan pi need Hn Htiny) as (Hst & fuel & Hfuel & Hsc).
  rewrite Hsc. split.
  - intros Hex.
    destruct (scan_finds fuel pi (mkInfo (-1) need) (scanStart need))
      as (tr & e & pi' & Hs); [lia|done| |done|].
    + intros k x Hk Hx. by apply (wellPlaced_fits pi need k).
    + exists e, pi'. by rewrite Hs.
  - intros (e & pi' & Hs).
    destruct (scan fuel pi _ (scanStart need)) as [tr r] eqn:E.
    cbn [snd] in Hs. subst r.
    apply scan_found in E as (j & l' & Hij & Hj & _ & Hf & _).
    apply FindGtAndRemove_Some in Hf as (_ & l1 & l2 & Hl & _).
    exists j, e. split; [lia|]. rewrite Hl. apply elem_of_app. right.
    apply elem_of_cons. by left.
Qed.

Lemma AddPageInfo_then_Select_aux (pi : PageCtlImpl) (pageId available need : Z) :
  (∀ j, bucket pi j = []) → tiny pi = [] →
  THRESHOLD ≤ available < PageSize → 0 < need →
  need `div` THRESHOLD < available `div` THRESHOLD →
  ∃ pi1 pi2 tr,
    AddPageInfo pi pageId available = Ok pi1
    ∧ Select pi1 need = (tr, Ok (Some (mkInfo pageId available), pi2))
    ∧ last tr = Some (available `div` THRESHOLD)
    ∧ (∀ j, bucket pi2 j = []) ∧ tiny pi2 = [].
Proof.
  intros Hempty Htiny Ha Hn Hlt.
  assert (Hwp : wellPlaced pi).
  { split; [intros j e; rewrite Hempty|intros e; rewrite Htiny];
      by intros ?%elem_of_nil. }
  destruct (AddPageInfo_placement pi pageId available) as (pi1 & Hadd & Hpl);
    [unfold OMITTED, THRESHOLD in *; lia|].
  rewrite decide_False in Hpl by (unfold TinyTHRESHOLD, THRESHOLD in *;
                                   change (128 `quot` 4) with 32; lia).
  destruct Hpl as [Ht1 Hb1].
  pose proof (wellPlaced_AddPageInfo _ _ _ _ Hwp Hadd) as [Hwp1 _].
  pose proof (div_THRESHOLD_bounds available ltac:(unfold THRESHOLD in *; lia)) as Hda.
  pose proof (div_THRESHOLD_bounds need ltac:(lia)) as Hdn.
  assert (Hnp : 0 < need ≤ PageSize) by (unfold THRESHOLD, PageSize in *; lia).
  assert (Hst : scanStart need ≤ available `div` THRESHOLD < INTERVALS).
  { unfold scanStart, THRESHOLD, PageSize in *. rewrite INTERVALS_eq.
    rewrite decide_False by lia. lia. }
  assert (Htm : selectTinyFast pi1 need = None).
  { unfold selectTinyFast. rewrite Ht1, Htiny. by case_decide. }
  assert (Hin : mkInfo pageId available ∈ bucket pi1 (available `div` THRESHOLD)).
  { rewrite Hb1, decide_True, Hempty by done. by apply list_elem_of_singleton. }
  destruct (proj1 (Select_succeeds_iff_aux pi1 need Hwp1 Hnp Htm)) as (e & pi2 & Hs).
  { eauto. }
  destruct (Select pi1 need) as [tr r] eqn:Hsel. cbn [snd] in Hs. subst r.
  assert (Htr : tr ≠ []).
  { intros ->. apply Select_found in Hsel as (_ & _ & [(_ & _ & _ & He)|Hx]).
    - rewrite Ht1, Htiny in He. by apply elem_of_nil in He.
    - by destruct Hx as (? & ? & _ & ? & _). }
  destruct (Select_oldest_first_aux _ _ _ _ _ Hwp1 Hsel Htr)
    as (j & l & Hlast & Hj & Hbj & Hbj' & _ & Hother & Ht2).
  assert (j = available `div` THRESHOLD ∧ e = mkInfo pageId available ∧ l = [])
    as (-> & -> & ->).
  { rewrite Hb1 in Hbj. case_decide as Hjj; [|by rewrite Hempty in Hbj].
    rewrite Hempty in Hbj. cbn in Hbj. by injection Hbj as <- <-. }
  exists pi1, pi2, tr. split; [done|]. split; [done|]. split; [done|].
  split; [|by rewrite Ht2, Ht1].
  intros k. destruct (decide (k = available `div` THRESHOLD)) as [->|Hk]; [done|].
  rewrite Hother by done. rewrite Hb1, decide_False by done. apply Hempty.
Qed.

Lemma AddPageInfo_indexed (pi pi' : PageCtlImpl) (pageId available : Z) (e : PageInfo) :
  AddPageInfo pi pageId available = Ok pi' → indexed pi' e →
  e = mkInfo pageId available ∨ indexed pi e.
Proof.
  unfold AddPageInfo. case_decide; [intros [= <-]; by right|].
  case_decide.
  - intros [= <-] [He|He]; [|right; by right].
    cbn [tiny] in He. apply elem_of_Add in He as [->|?]; [by left|].
    right. by left.
  - destruct (free_at pi _) as [l|] eqn:Hl; [|done].
    apply free_at_Ok in Hl as [_ ->]. step_bind. intros [= <-] [He|[j He]].
    + right. by left.
    + rewrite bucket_set_free in He. case_decide as Hj; [|right; right; eauto].
      unfold DataStructure.AddLast in He.
      apply elem_of_app in He as [He|He%list_elem_of_singleton]; [|by left].
      right. right. exists j. by rewrite <- Hj.
Qed.

Lemma Select_indexed (pi pi' : PageCtlImpl) (need : Z) tr o (e : PageInfo) :
  Select pi need = (tr, Ok (o, pi')) → indexed pi' e → indexed pi e.
Proof.
  intros Hs. destruct o as [x|].
  - apply Select_found in Hs as (_ & _ & [(_ & _ & -> & _)|(j & l' & _ & _ & Hf & ->)]);
      [done|].
    apply FindGtAndRemove_Some in Hf as (_ & l1 & l2 & Hl & -> & _).
    intros [He|[k He]]; [by left|]. right.
    rewrite bucket_set_free in He. case_decide as Hk; [|eauto].
    exists j. rewrite Hl. apply elem_of_app in He as [?|?]; apply elem_of_app;
      [by left|right; apply elem_of_cons; by right].
  - exfalso. eapply (Select_not_none pi need pi'). by rewrite Hs.
Qed.

Lemma run_returns_added_aux (ops : list op) (pi0 pi : PageCtlImpl)
    (base : list PageInfo) outs :
  wellPlaced pi0 → (∀ e, indexed pi0 e → e ∈ base) →
  run ops pi0 = Ok (outs, pi) →
  (∀ tr e, (tr, Some e) ∈ outs →
     e ∈ base ++ addedEntries ops ∧ OMITTED ≤ Available e < PageSize)
  ∧ (∀ e, indexed pi e → e ∈ base ++ addedEntries ops).
Proof.
  revert pi0 base outs. induction ops as [|[need|pid av] ops IH];
    intros pi0 base outs Hwp Hbase; cbn [run].
  - intros [= <- <-]. cbn. rewrite app_nil_r. split; [|done].
    intros tr e Hin. by apply elem_of_nil in Hin.
  - destruct (Select pi0 need) as [tr r] eqn:Hs.
    destruct r as [[o pi1]|]; [|done]. step_bind.
    destruct (run ops pi1) as [[outs' pi2]|] eqn:Hr; [|done]. step_bind.
    intros [= <- <-].
    destruct (wellPlaced_Select _ _ _ _ _ Hwp Hs) as (Hwp1 & _ & _).
    destruct (IH pi1 base outs' Hwp1) as [Houts Hidx]; [|done|].
    { intros e He. apply Hbase. by eapply Select_indexed. }
    change (addedEntries (OpSelect need :: ops)) with (addedEntries ops).
    split; [|done].
    intros tr' e [[= -> <-]|Hin]%elem_of_cons; [|by eapply Houts].
    pose proof (Select_found _ _ _ _ _ Hs) as (_ & _ & Hwhere).
    destruct Hwp as [Hb Ht]. split.
    + apply elem_of_app. left. apply Hbase.
      destruct Hwhere as [(_ & _ & _ & ?)|(j & l' & _ & _ & Hf & _)]; [by left|].
      right. exists j. apply FindGtAndRemove_Some in Hf as (_ & l1 & l2 & -> & _).
      apply elem_of_app. right. apply elem_of_cons. by left.
    + destruct Hwhere as [(_ & _ & _ & He)|(j & l' & Hj & _ & Hf & _)].
      * apply Ht in He. unfold TinyTHRESHOLD, THRESHOLD, PageSize in *.
        change (128 `quot` 4) with 32 in He. lia.
      * apply FindGtAndRemove_Some in Hf as (_ & l1 & l2 & Hl & _).
        assert (He : e ∈ bucket pi0 j).
        { rewrite Hl. apply elem_of_app. right. apply elem_of_cons. by left. }
        apply Hb in He as [Hlo Hq].
        unfold OMITTED, TinyTHRESHOLD, THRESHOLD, PageSize in *.
        rewrite INTERVALS_eq in Hj. change (128 `quot` 4) with 32 in Hlo.
        rewrite Z.quot_div_nonneg in Hq by lia.
        pose proof (Z.div_mod (Available e) 128 ltac:(lia)).
        pose proof (Z.mod_pos_bound (Available e) 128 ltac:(lia)). lia.
  - destruct (AddPageInfo pi0 pid av) as [pi1|] eqn:Hadd; [|done]. step_bind.
    intros Hr.
    destruct (wellPlaced_AddPageInfo _ _ _ _ Hwp Hadd) as [Hwp1 _].
    change (addedEntries (OpAddPageInfo pid av :: ops))
      with (mkInfo pid av :: addedEntries ops).
    replace (base ++ mkInfo pid av :: addedEntries ops)
      with ((base ++ [mkInfo pid av]) ++ addedEntries ops)
      by (by rewrite <- app_assoc).
    apply (IH pi1 (base ++ [mkInfo pid av]) outs Hwp1); [|done].
    intros e He. apply elem_of_app.
    destruct (AddPageInfo_indexed _ _ _ _ _ Hadd He) as [->|?];
      [right; by apply list_elem_of_singleton|left; by apply Hbase].
Qed.

(** X15.  Over any history of [AddPageInfo] and [Select] calls on a new
    index, every entry a [Select] returns, and every entry still in the
    index at the end, is one that an [AddPageInfo] of the history was
    given; a returned entry has at least [OMITTED] and less than
    [PageSize] free bytes. *)
Theorem run_returns_added (ops : list op) (pi : PageCtlImpl) outs :
  run ops NewPageCtl = Ok (outs, pi) →
  (∀ tr e, (tr, Some e) ∈ outs →
     e ∈ addedEntries ops ∧ OMITTED ≤ Available e < PageSize)
  ∧ (∀ e, indexed pi e → e ∈ addedEntries ops).
Proof.
  intros Hr.
  apply (run_returns_added_aux ops NewPageCtl pi [] outs); [| |done].
  - apply wellPlaced_NewPageCtl.
  - intros e [He|[j He]].
    + by apply elem_of_nil in He.
    + rewrite bucket_NewPageCtl in He. by apply elem_of_nil in He.
Qed.

Lemma run_returns_added_witness :
  (∀ tr e, (tr, Some e) ∈ [([1], Some (mkInfo 7 200))] →
     e ∈ addedEntries (Examples.twoOps ++ [OpSelect 100])
     ∧ OMITTED ≤ Available e < PageSize)
  ∧ (∀ e, indexed Examples.twoCtlSelected e →
          e ∈ addedEntries (Examples.twoOps ++ [OpSelect 100])).
Proof.
  apply (run_returns_added (Examples.twoOps ++ [OpSelect 100])).
  vm_compute. reflexivity.
Defined.

(** ** Rebuilding the index: the walk over the pages *)

Lemma foldl_initPage_Panic (pc : PageCache.PageCache) (l : list Z) (e : panic) :
  foldl (λ acc i, st ← acc; initPage pc i st) (Panic e) l = Panic e.
Proof. induction l as [|i l IH]; [done|]. cbn [foldl]. step_bind. apply IH. Qed.

Lemma initPage_present (pc : PageCache.PageCache) (i : Z) (p : PageImpl) tr pi :
  i ≠ PageNumberDbMeta → PageCache.pages pc !! i = Some p → GetId p = i →
  SzPgUsed + SzPageType ≤ len (data p) →
  initPage pc i (tr, pi) = Ok (tr ++ [CallGetPage i; CallReleasePage i], pi).
Proof.
  intros Hi Hp Hid Hlen. unfold initPage. rewrite decide_False by done.
  unfold PageCache.GetPage. rewrite Hp.
  destruct (IsDataPage p) as [b|] eqn:Hb.
  - apply IsDataPage_false in Hb as ->. step_bind.
    cbn [PageCache.ReleasePage]. rewrite Hid. by rewrite <- app_assoc.
  - unfold IsDataPage in Hb. rewrite GetPageType_Ok in Hb by done. done.
Qed.

Lemma Init_walk_aux (pi : PageCtlImpl) (pc : PageCache.PageCache) :
  PageCache.complete pc →
  Init pi pc
    = Ok (flat_map (λ i, [CallGetPage i; CallReleasePage i])
                   (seqZ 2 (PageCache.pageNumbers pc - 1)), pi).
Proof.
  intros Hc. unfold Init, PageCache.GetPageNumbers.
  set (n := PageCache.pageNumbers pc) in *.
  destruct (decide (n ≤ 0)) as [Hn|Hn].
  { rewrite !seqZ_nil by lia. done. }
  rewrite seqZ_cons by lia. cbn [foldl]. step_bind.
  unfold initPage at 2. rewrite decide_True by done.
  replace (Z.succ 1) with 2 by lia. replace (Z.pred n) with (n - 1) by lia.
  assert (Hgen : ∀ (m : nat) (start : Z) tr, 2 ≤ start →
            start + Z.of_nat m - 1 ≤ n →
            foldl (λ acc i, st ← acc; initPage pc i st) (Ok (tr, pi))
                  (seqZ start (Z.of_nat m))
            = Ok (tr ++ flat_map (λ i, [CallGetPage i; CallReleasePage i])
                                 (seqZ start (Z.of_nat m)), pi)).
  { induction m as [|m IH]; intros start tr Hs Hm.
    - cbn. by rewrite app_nil_r.
    - rewrite seqZ_cons by lia. cbn [foldl flat_map]. step_bind.
      destruct (Hc start) as (p & Hp & Hid & Hlen); [lia|].
      rewrite (initPage_present pc start p) by
        (try done; unfold PageNumberDbMeta, len, PageSize, SzPgUsed, SzPageType in *;
         lia).
      replace (Z.pred (Z.of_nat (S m))) with (Z.of_nat m) by lia.
      rewrite IH by lia. by rewrite <- app_assoc. }
  specialize (Hgen (Z.to_nat (n - 1)) 2 [] ltac:(lia) ltac:(lia)).
  rewrite Z2Nat.id in Hgen by lia. exact Hgen.
Qed.

(** X16.  On a cache that holds every page of the file, [Init] returns; it
    has pinned and released each of the pages 2 to n once, in order, page 1
    not at all, and the index is as it was before. *)
Theorem Init_walk (pi : PageCtlImpl) (pc : PageCache.PageCache) :
  PageCache.complete pc →
  Init pi pc
    = Ok (flat_map (λ i, [CallGetPage i; CallReleasePage i])
                   (seqZ 2 (PageCache.pageNumbers pc - 1)), pi).
Proof. apply Init_walk_aux. Qed.

Lemma complete_kinds : PageCache.complete Examples.kinds.
Proof.
  intros i Hi. change (PageCache.pageNumbers Examples.kinds) with 4 in Hi.
  assert (i = 1 ∨ i = 2 ∨ i = 3 ∨ i = 4) as [->|[->|[->| ->]]] by lia;
    eexists; (split; [reflexivity|]); split; vm_compute; reflexivity.
Qed.

Lemma Init_walk_witness :
  Init Examples.twoCtl Examples.kinds
    = Ok (flat_map (λ i, [CallGetPage i; CallReleasePage i])
                   (seqZ 2 (PageCache.pageNumbers Examples.kinds - 1)),
          Examples.twoCtl).
Proof. apply Init_walk. apply complete_kinds. Defined.

(** X17.  If a page between 2 and n cannot be had from the cache, while
    those the cache has can be read, [Init] panics and no index comes
    back. *)
Theorem Init_missing_page (pi : PageCtlImpl) (pc : PageCache.PageCache) (i : Z) :
  2 ≤ i ≤ PageCache.pageNumbers pc → PageCache.pages pc !! i = None →
  (∀ k p, PageCache.pages pc !! k = Some p →
          SzPgUsed + SzPageType ≤ len (data p)) →
  Init pi pc = Panic (PanicMsg "Error occurs when getting pages").
Proof.
  intros Hi Hmiss Hread. unfold Init, PageCache.GetPageNumbers.
  assert (Hin : i ∈ seqZ 1 (PageCache.pageNumbers pc)) by (apply elem_of_seqZ; lia).
  generalize dependent (seqZ 1 (PageCache.pageNumbers pc)). intros l.
  generalize (@nil call). revert pi.
  induction l as [|k l IH]; intros pi tr Hin; [by apply elem_of_nil in Hin|].
  cbn [foldl]. step_bind.
  assert (Hstep : initPage pc k (tr, pi)
                  = Panic (PanicMsg "Error occurs when getting pages")
                  ∨ ∃ tr', initPage pc k (tr, pi) = Ok (tr', pi)).
  { unfold initPage. case_decide; [right; eauto|].
    unfold PageCache.GetPage.
    destruct (PageCache.pages pc !! k) as [p|] eqn:Hp; [|by left]. right.
    destruct (IsDataPage p) as [b|] eqn:Hb.
    - apply IsDataPage_false in Hb as ->. step_bind. eauto.
    - unfold IsDataPage in Hb. rewrite GetPageType_Ok in Hb by (by eapply Hread).
      done. }
  destruct (decide (k = i)) as [->|Hne].
  - unfold initPage. rewrite decide_False by (unfold PageNumberDbMeta; lia).
    unfold PageCache.GetPage. rewrite Hmiss. apply foldl_initPage_Panic.
  - destruct Hstep as [-> | [tr' ->]]; [apply foldl_initPage_Panic|].
    apply IH. apply elem_of_cons in Hin as [?|?]; [congruence|done].
Qed.

Lemma Init_missing_page_witness :
  Init NewPageCtl (PageCache.mkCache (PageCache.pages Examples.kinds) 5)
    = Panic (PanicMsg "Error occurs when getting pages").
Proof.
  apply (Init_missing_page _ _ 5).
  - vm_compute. split; discriminate.
  - vm_compute. reflexivity.
  - intros k p Hp. cbn [PageCache.pages Examples.kinds] in Hp.
    repeat (apply lookup_insert_Some in Hp as [[_ <-]|[_ Hp]];
            [vm_compute; discriminate|]).
    by rewrite lookup_empty in Hp.
Defined.

(** * Reading a record *)





(** * Start-up and shutdown *)

Lemma InitVersion_inv (p : PageImpl) (rnd : list byte) (p1 : PageImpl) :
  InitVersion p rnd = Ok p1 →
  GetId p1 = GetId p ∧ length (data p1) = length (data p)
  ∧ GetPageType p1 = GetPageType p.
Proof.
  unfold InitVersion. destruct (GetPageType p) as [t|] eqn:Ht; [|done]. step_bind.
  case_decide; [done|].
  destruct (slice (GetData p) VcOn (VcOn + VcOffset)) as [v|]; [|done]. step_bind.
  case_decide; [done|].
  destruct (copy_slice (GetData p) VcOn (VcOn + VcOffset) rnd) as [d|] eqn:Hd;
    [|done].
  step_bind. intros [= <-]. split; [done|]. split.
  - by apply copy_slice_inv in Hd as (_ & ? & _).
  - rewrite <- Ht. apply (GetPageType_copy_slice p _ _ _ _ Hd). by right.
Qed.

Lemma complete_put_page (pc : PageCache.PageCache) (p : PageImpl) :
  PageCache.complete pc → len (data p) = PageSize →
  PageCache.complete (PageCache.put_page pc p).
Proof.
  intros Hc Hlen i Hi. unfold PageCache.put_page in *.
  cbn [PageCache.pages PageCache.pageNumbers] in *.
  destruct (decide (GetId p = i)) as [<-|Hne].
  - exists p. by rewrite lookup_insert_eq.
  - rewrite lookup_insert_ne by done. by apply Hc.
Qed.

(** What [init] does once it is known whether the meta page is clean:
    [pc1] is the cache after the recovery, if any. *)
Lemma init_from (CrashRecover : PageCache.PageCache → Redo.Log → PageCache.PageCache)
    (dm : DmImpl) (rnd : list byte) (p q : PageImpl) (clean : bool) :
  PageCache.pages (pageCache dm) !! PageNumberDbMeta = Some p →
  CheckInitVersion p = Ok clean →
  let pc1 := if clean then pageCache dm
             else CrashRecover (pageCache dm) (redo dm) in
  PageCache.pages pc1 !! PageNumberDbMeta = Some q →
  len (data q) = PageSize → GetPageType q = Ok DbMetaPage →
  PageCache.complete pc1 → VcOffset ≤ len rnd →
  ∃ q', InitVersion q rnd = Ok q'
    ∧ init CrashRecover dm rnd
        = Ok (negb clean, mkDm (PageCache.put_page pc1 q') (pageCtl dm) []).
Proof.
  intros Hp Hcheck pc1 Hq Hlen Ht Hc Hrnd.
  destruct (InitVersion_aux q rnd Hlen Ht Hrnd) as (q' & Hinit & _).
  pose proof (InitVersion_inv _ _ _ Hinit) as (Hid & Hlen' & _).
  exists q'. split; [done|].
  unfold init, metaPage, PageCache.GetPage. rewrite Hp, Hcheck. step_bind.
  cbn [pageCache]. fold pc1. rewrite Hq. step_bind. rewrite Hinit. step_bind.
  rewrite Init_walk_aux; [done|].
  apply complete_put_page; [done|]. unfold len in *. by rewrite Hlen'.
Qed.

(** X25.  Started on a store whose meta page is clean (the eight bytes at
    offset 100 equal those at offset 108) [init] does not call
    [CrashRecover]: it writes the random marker into the meta page, empties
    the log and returns with the free-space index it was given. *)
Theorem init_clean (CrashRecover : PageCache.PageCache → Redo.Log → PageCache.PageCache)
    (dm : DmImpl) (rnd : list byte) (p : PageImpl) :
  PageCache.pages (pageCache dm) !! PageNumberDbMeta = Some p →
  len (data p) = PageSize → GetPageType p = Ok DbMetaPage →
  take 8 (drop 100 (data p)) = take 8 (drop 108 (data p)) →
  PageCache.complete (pageCache dm) → VcOffset ≤ len rnd →
  ∃ p', InitVersion p rnd = Ok p'
    ∧ init CrashRecover dm rnd
        = Ok (false, mkDm (PageCache.put_page (pageCache dm) p') (pageCtl dm) []).
Proof.
  intros Hp Hlen Ht Hclean Hc Hrnd.
  apply (init_from CrashRecover dm rnd p p true); try done.
  rewrite CheckInitVersion_Ok; [|by rewrite Hlen|done].
  by rewrite bool_decide_eq_true_2.
Qed.

Lemma init_clean_witness :
  ∃ p', InitVersion Examples.metaPage Examples.rnd = Ok p'
    ∧ init Examples.noRecover (mkDm Examples.kinds Examples.twoCtl []) Examples.rnd
        = Ok (false,
              mkDm (PageCache.put_page
                      (pageCache (mkDm Examples.kinds Examples.twoCtl [])) p')
                   (pageCtl (mkDm Examples.kinds Examples.twoCtl [])) []).
Proof.
  apply (init_clean Examples.noRecover (mkDm Examples.kinds Examples.twoCtl [])
           Examples.rnd Examples.metaPage).
  - reflexivity.
  - vm_compute. reflexivity.
  - vm_compute. reflexivity.
  - vm_compute. reflexivity.
  - apply complete_kinds.
  - vm_compute. discriminate.
Defined.

(** X26.  Started on a store whose meta page is not clean, [init] calls
    [CrashRecover] with the cache and the log; when the recovered cache is
    complete, [init] goes on with its meta page: it writes the random
    marker, empties the log and returns with the free-space index it was
    given. *)
Theorem init_recovers (CrashRecover : PageCache.PageCache → Redo.Log → PageCache.PageCache)
    (dm : DmImpl) (rnd : list byte) (p q : PageImpl) :
  PageCache.pages (pageCache dm) !! PageNumberDbMeta = Some p →
  len (data p) = PageSize → GetPageType p = Ok DbMetaPage →
  take 8 (drop 100 (data p)) ≠ take 8 (drop 108 (data p)) →
  PageCache.pages (CrashRecover (pageCache dm) (redo dm)) !! PageNumberDbMeta
    = Some q →
  len (data q) = PageSize → GetPageType q = Ok DbMetaPage →
  PageCache.complete (CrashRecover (pageCache dm) (redo dm)) →
  VcOffset ≤ len rnd →
  ∃ q', InitVersion q rnd = Ok q'
    ∧ init CrashRecover dm rnd
        = Ok (true,
              mkDm (PageCache.put_page (CrashRecover (pageCache dm) (redo dm)) q')
                   (pageCtl dm) []).
Proof.
  intros Hp Hlen Ht Hdirty Hq Hlenq Htq Hc Hrnd.
  apply (init_from CrashRecover dm rnd p q false); try done.
  rewrite CheckInitVersion_Ok; [|by rewrite Hlen|done].
  by rewrite bool_decide_eq_false_2.
Qed.

Lemma complete_opened : PageCache.complete (pageCache Examples.opened).
Proof.
  intros i Hi. change (PageCache.pageNumbers (pageCache Examples.opened)) with 2 in Hi.
  assert (i = 1 ∨ i = 2) as [->| ->] by lia.
  - exists Examples.startedMeta. split; [reflexivity|]. split; vm_compute; reflexivity.
  - exists Examples.recordPage. split; [reflexivity|]. split; vm_compute; reflexivity.
Qed.

Lemma init_recovers_witness :
  ∃ q', InitVersion Examples.startedMeta Examples.rnd = Ok q'
    ∧ init Examples.noRecover Examples.opened Examples.rnd
        = Ok (true,
              mkDm (PageCache.put_page
                      (Examples.noRecover (pageCache Examples.opened)
                         (redo Examples.opened)) q')
                   (pageCtl Examples.opened) []).
Proof.
  apply (init_recovers Examples.noRecover Examples.opened Examples.rnd
           Examples.startedMeta Examples.startedMeta).
  - reflexivity.
  - vm_compute. reflexivity.
  - vm_compute. reflexivity.
  - vm_compute. discriminate.
  - reflexivity.
  - vm_compute. reflexivity.
  - vm_compute. reflexivity.
  - apply complete_opened.
  - vm_compute. discriminate.
Defined.

Lemma init_without_Close_aux
    (CrashRecover : PageCache.PageCache → Redo.Log → PageCache.PageCache)
    (dm : DmImpl) (rnd : list byte) (p : PageImpl) :
  PageCache.pages (pageCache dm) !! PageNumberDbMeta = Some p →
  GetId p = PageNumberDbMeta →
  len (data p) = PageSize → GetPageType p = Ok DbMetaPage →
  take 8 (drop 100 (data p)) = take 8 (drop 108 (data p)) →
  PageCache.complete (pageCache dm) → VcOffset ≤ len rnd →
  take 8 rnd ≠ take 8 (drop 108 (data p)) →
  ∃ dm1, init CrashRecover dm rnd = Ok (false, dm1)
    ∧ redo dm1 = []
    ∧ ∀ (rnd' : list byte) (q : PageImpl),
        PageCache.pages (CrashRecover (pageCache dm1) []) !! PageNumberDbMeta
          = Some q →
        len (data q) = PageSize → GetPageType q = Ok DbMetaPage →
        PageCache.complete (CrashRecover (pageCache dm1) []) →
        VcOffset ≤ len rnd' →
        ∃ q', InitVersion q rnd' = Ok q'
          ∧ init CrashRecover dm1 rnd'
              = Ok (true,
                    mkDm (PageCache.put_page (CrashRecover (pageCache dm1) []) q')
                         (pageCtl dm) []).
Proof.
  intros Hp Hid Hlen Ht Hclean Hc Hrnd Hne.
  destruct (InitVersion_aux p rnd Hlen Ht Hrnd) as (p1 & Hinit & _ & _ & _ & Hchk).
  pose proof (InitVersion_inv _ _ _ Hinit) as (Hid1 & Hlen1 & Ht1).
  destruct (init_from CrashRecover dm rnd p p true) as (q1 & Hinit1 & Hrun);
    try done.
  { rewrite CheckInitVersion_Ok; [|by rewrite Hlen|done].
    by rewrite bool_decide_eq_true_2. }
  assert (q1 = p1) as -> by congruence.
  cbn [negb] in Hrun. eexists. split; [exact Hrun|]. split; [done|].
  intros rnd' q Hq Hlenq Htq Hcq Hrnd'.
  set (dm1 := mkDm (PageCache.put_page (pageCache dm) p1) (pageCtl dm) []) in *.
  destruct (init_from CrashRecover dm1 rnd' p1 q false) as (q' & Hq' & Hrun');
    try done.
  - cbn [dm1 pageCache PageCache.put_page PageCache.pages].
    rewrite Hid1, Hid. apply lookup_insert_eq.
  - rewrite Hchk. by rewrite bool_decide_eq_false_2.
  - exists q'. split; [done|]. exact Hrun'.
Qed.

(** X28.  A clean store that is started with a marker different from the
    shadow bytes of its meta page and then started again without a [Close]
    in between is recovered: the first [init] does not call [CrashRecover],
    the second one does, with the empty log the first one left, and goes on
    from the recovered cache when that cache is complete. *)
Theorem init_without_Close
    (CrashRecover : PageCache.PageCache → Redo.Log → PageCache.PageCache)
    (dm : DmImpl) (rnd : list byte) (p : PageImpl) :
  PageCache.pages (pageCache dm) !! PageNumberDbMeta = Some p →
  GetId p = PageNumberDbMeta →
  len (data p) = PageSize → GetPageType p = Ok DbMetaPage →
  take 8 (drop 100 (data p)) = take 8 (drop 108 (data p)) →
  PageCache.complete (pageCache dm) → VcOffset ≤ len rnd →
  take 8 rnd ≠ take 8 (drop 108 (data p)) →
  ∃ dm1, init CrashRecover dm rnd = Ok (false, dm1)
    ∧ redo dm1 = []
    ∧ ∀ (rnd' : list byte) (q : PageImpl),
        PageCache.pages (CrashRecover (pageCache dm1) []) !! PageNumberDbMeta
          = Some q →
        len (data q) = PageSize → GetPageType q = Ok DbMetaPage →
        PageCache.complete (CrashRecover (pageCache dm1) []) →
        VcOffset ≤ len rnd' →
        ∃ q', InitVersion q rnd' = Ok q'
          ∧ init CrashRecover dm1 rnd'
              = Ok (true,
                    mkDm (PageCache.put_page (CrashRecover (pageCache dm1) []) q')
                         (pageCtl dm) []).
Proof. apply init_without_Close_aux. Qed.

Lemma complete_dmOne : PageCache.complete (pageCache Examples.dmOne).
Proof.
  intros i Hi. change (PageCache.pageNumbers (pageCache Examples.dmOne)) with 2 in Hi.
  assert (i = 1 ∨ i = 2) as [->| ->] by lia.
  - exists Examples.metaPage. split; [reflexivity|]. split; vm_compute; reflexivity.
  - exists Examples.recordPage. split; [reflexivity|]. split; vm_compute; reflexivity.
Qed.

Lemma init_without_Close_witness :
  ∃ dm1, init Examples.noRecover Examples.dmOne Examples.rnd = Ok (false, dm1)
    ∧ redo dm1 = []
    ∧ ∀ (rnd' : list byte) (q : PageImpl),
        PageCache.pages (Examples.noRecover (pageCache dm1) []) !! PageNumberDbMeta
          = Some q →
        len (data q) = PageSize → GetPageType q = Ok DbMetaPage →
        PageCache.complete (Examples.noRecover (pageCache dm1) []) →
        VcOffset ≤ len rnd' →
        ∃ q', InitVersion q rnd' = Ok q'
          ∧ init Examples.noRecover dm1 rnd'
              = Ok (true,
                    mkDm (PageCache.put_page
                            (Examples.noRecover (pageCache dm1) []) q')
                         (pageCtl Examples.dmOne) []).
Proof.
  apply (init_without_Close Examples.noRecover Examples.dmOne Examples.rnd
           Examples.metaPage).
  - reflexivity.
  - reflexivity.
  - vm_compute. reflexivity.
  - vm_compute. reflexivity.
  - vm_compute. reflexivity.
  - apply complete_dmOne.
  - vm_compute. discriminate.
  - vm_compute. discriminate.
Defined.





(** * Locks and pins *)

Ltac run_proc :=
  unfold mbind, proc_bind, mret, proc_ret, defer, step, zoom, panics;
  cbn.

(** ** The page mutex *)

Lemma Append_blocks (m : Sync.RWMutex.t) (p : PageImpl) (toAdd : list byte) :
  LockedPage.Append toAdd (LockedPage.withLock m p)
  = (LockedPage.withLock
       (match m with Sync.RWMutex.Free => Sync.RWMutex.Writer | _ => m end) p,
     Blocks).
Proof.
  unfold LockedPage.Append, LockedPage.Lock, LockedPage.Unlock,
    LockedPage.GetUsed, LockedPage.onLock.
  destruct m; reflexivity.
Qed.

(** C4.  [Append] does not return.  It takes the write lock of the page
    and then calls [GetUsed], which asks for the read lock of the same
    mutex: whatever the page, the bytes and the state of the mutex, the
    call blocks, reports neither success nor [ErrorPageOverFlow], and
    leaves the fields of the page as they were. *)
Theorem Append_never_returns (m : Sync.RWMutex.t) (p : PageImpl)
    (toAdd : list byte) :
  LockedPage.Append toAdd (LockedPage.withLock m p)
  = (LockedPage.withLock
       (match m with Sync.RWMutex.Free => Sync.RWMutex.Writer | _ => m end) p,
     Blocks).
Proof. apply Append_blocks. Qed.

(** X3.  Once [Append] has been called on a page whose mutex was free, the
    write lock stays held: every later call of a method of that page that
    takes the lock blocks at its first statement and changes nothing. *)
Theorem Append_holds_lock (p : PageImpl) (toAdd : list byte) :
  let lp := (LockedPage.Append toAdd
               (LockedPage.withLock Sync.RWMutex.Free p)).1 in
  lp = LockedPage.withLock Sync.RWMutex.Writer p
  ∧ LockedPage.GetUsed lp = (lp, Blocks)
  ∧ LockedPage.GetFree lp = (lp, Blocks)
  ∧ (∀ used, LockedPage.SetUsed used lp = (lp, Blocks))
  ∧ (∀ d, LockedPage.SetDirty d lp = (lp, Blocks))
  ∧ (∀ bs, LockedPage.Append bs lp = (lp, Blocks))
  ∧ (∀ bs offset, LockedPage.Update bs offset lp = (lp, Blocks)).
Proof.
  cbv zeta. rewrite Append_blocks. cbn [fst].
  repeat split; reflexivity.
Qed.

(** X4.  [Update] of a page never reports success.  With the mutex free at
    the call: when the [int64] sum of the length and the offset exceeds
    [PageSize] it returns [ErrorPageOverFlow] and leaves the page alone;
    otherwise it panics on the slice expression, the page untouched and the
    lock given back, or, the slice in range, it copies the bytes and then
    blocks in [GetUsed], holding the write lock. *)
Theorem PageUpdate_never_succeeds (p : PageImpl) (toUp : list byte) (offset : Z) :
  LockedPage.Update toUp offset (LockedPage.withLock Sync.RWMutex.Free p)
  = if decide (Int.int64 (len toUp + offset) > PageSize)
    then (LockedPage.withLock Sync.RWMutex.Free p,
          Returns (Some ErrorPageOverFlow))
    else
      match copy_slice (data p) offset (Int.int64 (offset + len toUp)) toUp with
      | Ok d => (LockedPage.withLock Sync.RWMutex.Writer (SetData p d), Blocks)
      | Panic k => (LockedPage.withLock Sync.RWMutex.Free p, Panics k)
      end.
Proof.
  unfold LockedPage.Update, LockedPage.Lock, LockedPage.Unlock,
    LockedPage.GetUsed, LockedPage.writes, LockedPage.onLock.
  run_proc. case_decide; [reflexivity|].
  unfold GetData. cbn [LockedPage.page LockedPage.lock].
  destruct (copy_slice (data p) offset _ toUp) as [d|k] eqn:E; reflexivity.
Qed.

(** ** The mutex of the index *)

Lemma Select_blocks (m : Sync.Mutex.t) (pi : PageCtlImpl) (need : Z) :
  LockedPageCtl.Select need (LockedPageCtl.withLock m pi)
  = match m with
    | Sync.Mutex.Held => (LockedPageCtl.withLock Sync.Mutex.Held pi, Blocks)
    | Sync.Mutex.Free =>
        (LockedPageCtl.withLock Sync.Mutex.Held
           (match (Select pi need).2 with
            | Ok (_, pi') => pi'
            | Panic _ => pi
            end),
         Blocks)
    end.
Proof.
  unfold LockedPageCtl.Select, LockedPageCtl.onLock. run_proc.
  destruct m; [|reflexivity]. cbn.
  destruct (Select pi need).2 as [[o pi']|k]; reflexivity.
Qed.

Lemma AddPageInfo_locked (m : Sync.Mutex.t) (pi : PageCtlImpl)
    (pageId available : Z) :
  OMITTED ≤ available →
  LockedPageCtl.AddPageInfo pageId available (LockedPageCtl.withLock m pi)
  = match m with
    | Sync.Mutex.Held => (LockedPageCtl.withLock Sync.Mutex.Held pi, Blocks)
    | Sync.Mutex.Free =>
        match AddPageInfo pi pageId available with
        | Ok pi' => (LockedPageCtl.withLock Sync.Mutex.Free pi', Returns ())
        | Panic k => (LockedPageCtl.withLock Sync.Mutex.Free pi, Panics k)
        end
    end.
Proof.
  intros Ha. unfold LockedPageCtl.AddPageInfo, LockedPageCtl.onLock.
  rewrite decide_False by lia. run_proc.
  destruct m; [|reflexivity]. cbn.
  destruct (AddPageInfo pi pageId available) as [pi'|k]; reflexivity.
Qed.


(** X13.  In an index whose entries are where [AddPageInfo] files them, a
    request that the tiny container does not serve takes an entry out of
    the index exactly when some bucket from [scanStart] to [INTERVALS - 1]
    is not empty, and then it is the head of a bucket in that range; pages
    filed in lower buckets are never taken, even if they fit.  The call
    that took the entry blocks: no caller gets it. *)
Theorem Select_takes_iff (pi : PageCtlImpl) (need : Z) :
  wellPlaced pi → 0 < need ≤ PageSize → selectTinyFast pi need = None →
  ∃ pi', LockedPageCtl.Select need (LockedPageCtl.withLock Sync.Mutex.Free pi)
           = (LockedPageCtl.withLock Sync.Mutex.Held pi', Blocks)
    ∧ ((∃ j x, scanStart need ≤ j < INTERVALS ∧ x ∈ bucket pi j)
       ↔ (∃ j e l, scanStart need ≤ j < INTERVALS
                   ∧ bucket pi j = e :: l ∧ bucket pi' j = l))
    ∧ ((∀ j, scanStart need ≤ j < INTERVALS → bucket pi j = []) → pi' = pi).
Proof.
  intros Hwp Hn Htiny.
  exists (match (Select pi need).2 with Ok (_, pi') => pi' | Panic _ => pi end).
  split; [exact (Select_blocks Sync.Mutex.Free pi need)|].
  pose proof (Select_succeeds_iff_aux pi need Hwp Hn Htiny) as Hiff.
  destruct (Select pi need) as [tr r] eqn:Hs. cbn [snd] in *.
  split; [split|].
  - intros Hex. apply Hiff in Hex as (e & pi1 & ->).
    assert (Htr : tr ≠ []).
    { destruct (Select_as_scan pi need Hn Htiny) as (_ & fuel & _ & Hsc).
      rewrite Hsc in Hs.
      apply scan_found in Hs as (j & l' & _ & _ & Hlast & _). by destruct tr. }
    destruct (Select_oldest_first_aux pi need tr e pi1 Hwp Hs Htr)
      as (j & l & _ & Hj & Hb & Hb' & _).
    by exists j, e, l.
  - intros (j & e & l & Hj & Hb & _). exists j, e. split; [done|].
    rewrite Hb. apply elem_of_cons. by left.
  - intros Hempty. destruct r as [[o pi1]|k]; [|done]. exfalso.
    destruct o as [e|].
    + destruct Hiff as [_ Hback].
      destruct Hback as (j & x & Hj & Hx); [by exists e, pi1|].
      rewrite (Hempty j Hj) in Hx. by apply elem_of_nil in Hx.
    + eapply (Select_not_none pi need pi1). by rewrite Hs.
Qed.

(** X14.  A page registered in an empty index and then found by [Select]
    is lost: [AddPageInfo] files it and returns, the [Select] that finds it
    takes it out, so that the index is empty again, and blocks, so that no
    caller gets the page; from then on every [AddPageInfo] that would file
    a page blocks on the mutex [Select] holds. *)
Theorem AddPageInfo_then_Select_lost (pi : PageCtlImpl)
    (pageId available need : Z) :
  (∀ j, bucket pi j = []) → tiny pi = [] →
  THRESHOLD ≤ available < PageSize → 0 < need →
  need `div` THRESHOLD < available `div` THRESHOLD →
  ∃ pi1 pi2,
    LockedPageCtl.AddPageInfo pageId available
        (LockedPageCtl.withLock Sync.Mutex.Free pi)
      = (LockedPageCtl.withLock Sync.Mutex.Free pi1, Returns ())
    ∧ bucket pi1 (available `div` THRESHOLD) = [mkInfo pageId available]
    ∧ LockedPageCtl.Select need (LockedPageCtl.withLock Sync.Mutex.Free pi1)
      = (LockedPageCtl.withLock Sync.Mutex.Held pi2, Blocks)
    ∧ (∀ j, bucket pi2 j = []) ∧ tiny pi2 = []
    ∧ ∀ pageId' available', OMITTED ≤ available' →
        LockedPageCtl.AddPageInfo pageId' available'
            (LockedPageCtl.withLock Sync.Mutex.Held pi2)
          = (LockedPageCtl.withLock Sync.Mutex.Held pi2, Blocks).
Proof.
  intros Hempty Htiny Ha Hn Hlt.
  destruct (AddPageInfo_then_Select_aux pi pageId available need)
    as (pi1 & pi2 & tr & Hadd & Hsel & _ & Hb2 & Ht2); try done.
  exists pi1, pi2. split; [|split; [|split; [|split; [done|split; [done|]]]]].
  - rewrite (AddPageInfo_locked Sync.Mutex.Free)
      by (unfold OMITTED, THRESHOLD in *; lia).
    by rewrite Hadd.
  - destruct (AddPageInfo_placement pi pageId available) as (pi1' & Hadd' & Hpl);
      [unfold OMITTED, THRESHOLD in *; lia|].
    assert (pi1' = pi1) as -> by congruence.
    rewrite decide_False in Hpl
      by (unfold TinyTHRESHOLD, THRESHOLD in *; change (128 `quot` 4) with 32; lia).
    destruct Hpl as [_ Hb]. rewrite Hb, decide_True by done. by rewrite Hempty.
  - rewrite (Select_blocks Sync.Mutex.Free). by rewrite Hsel.
  - intros pageId' available' Ha'.
    by rewrite (AddPageInfo_locked Sync.Mutex.Held).
Qed.

Lemma AddPageInfo_then_Select_lost_witness :
  ∃ pi1 pi2,
    LockedPageCtl.AddPageInfo 7 200
        (LockedPageCtl.withLock Sync.Mutex.Free NewPageCtl)
      = (LockedPageCtl.withLock Sync.Mutex.Free pi1, Returns ())
    ∧ bucket pi1 (200 `div` THRESHOLD) = [mkInfo 7 200]
    ∧ LockedPageCtl.Select 100 (LockedPageCtl.withLock Sync.Mutex.Free pi1)
      = (LockedPageCtl.withLock Sync.Mutex.Held pi2, Blocks)
    ∧ (∀ j, bucket pi2 j = []) ∧ tiny pi2 = []
    ∧ ∀ pageId' available', OMITTED ≤ available' →
        LockedPageCtl.AddPageInfo pageId' available'
            (LockedPageCtl.withLock Sync.Mutex.Held pi2)
          = (LockedPageCtl.withLock Sync.Mutex.Held pi2, Blocks).
Proof.
  apply (AddPageInfo_then_Select_lost NewPageCtl 7 200 100).
  - apply bucket_NewPageCtl.
  - reflexivity.
  - vm_compute. split; [discriminate|reflexivity].
  - lia.
  - vm_compute. reflexivity.
Defined.

Lemma Select_takes_iff_witness :
  ∃ pi', LockedPageCtl.Select 100
             (LockedPageCtl.withLock Sync.Mutex.Free Examples.twoCtl)
           = (LockedPageCtl.withLock Sync.Mutex.Held pi', Blocks)
    ∧ ((∃ j x, scanStart 100 ≤ j < INTERVALS ∧ x ∈ bucket Examples.twoCtl j)
       ↔ (∃ j e l, scanStart 100 ≤ j < INTERVALS
                   ∧ bucket Examples.twoCtl j = e :: l ∧ bucket pi' j = l))
    ∧ ((∀ j, scanStart 100 ≤ j < INTERVALS → bucket Examples.twoCtl j = [])
       → pi' = Examples.twoCtl).
Proof.
  apply (Select_takes_iff Examples.twoCtl 100).
  - apply wellPlaced_twoCtl.
  - unfold PageSize. lia.
  - reflexivity.
Defined.

(** ** The record manager with locks and pins *)



Lemma proc_bind_Blocks {S A B} (c : proc S A) (k : A → proc S B) s s1 :
  c s = (s1, Blocks) → (c ≫= k) s = (s1, Blocks).
Proof. intros H. unfold mbind, proc_bind. by rewrite H. Qed.

Lemma Insert_locked (dm : LockedDataManager.DmImpl) (xid : Z) (data : list byte) :
  LockedDataManager.Insert xid data dm
  = if decide (9 + len data > MaxFreeSize)
    then (dm, Panics tooLarge)
    else (LockedDataManager.mkDm (LockedDataManager.pageCache dm)
            (LockedPageCtl.Select (9 + len data)
               (LockedDataManager.pageCtl dm)).1
            (LockedDataManager.redo dm),
          Blocks).
Proof.
  unfold LockedDataManager.Insert. rewrite len_WrapDataItemRaw.
  case_decide; [reflexivity|].
  destruct dm as [pc [m pi] log]. cbn [LockedDataManager.pageCache
    LockedDataManager.pageCtl LockedDataManager.redo].
  apply proc_bind_Blocks. unfold LockedDataManager.onCtl, zoom.
  cbn [LockedDataManager.pageCache LockedDataManager.pageCtl
         LockedDataManager.redo].
  rewrite Select_blocks. destruct m; reflexivity.
Qed.

(** X18.  [Insert] never returns a uid.  A payload whose frame exceeds
    [MaxFreeSize] is refused with the panic for an overflowing length and
    nothing changes; for any other payload the call blocks inside [Select].
    In both cases no page is pinned or written and nothing is logged; the
    only change is what [Select] did to the index and its mutex. *)
Theorem Insert_never_returns (dm : LockedDataManager.DmImpl) (xid : Z)
    (data : list byte) :
  LockedDataManager.Insert xid data dm
  = if decide (9 + len data > MaxFreeSize)
    then (dm, Panics tooLarge)
    else (LockedDataManager.mkDm (LockedDataManager.pageCache dm)
            (LockedPageCtl.Select (9 + len data)
               (LockedDataManager.pageCtl dm)).1
            (LockedDataManager.redo dm),
          Blocks).
Proof. apply Insert_locked. Qed.

























